(** * lib/types.c of libipset: the set-type registry, the set cache and the
      type negotiation with the kernel

    A shallow embedding of [src/lib/types.c].  The two process-wide singly
    linked lists ([typelist], [setlist]) are Rocq lists in [next] order, C
    strings are [string]s compared with [STREQ], the [uint8_t] family and
    revision fields are [Z]s, and every function takes the lists it reads
    and returns the lists it leaves behind. *)

From Stdlib Require Import String List ZArith Bool Lia.
Import ListNotations.

Local Open Scope string_scope.
Local Open Scope list_scope.
Local Open Scope Z_scope.

(** ** Constants of the headers *)

(** Modelled from the spec: the error numbers of <errno.h> are not under
    src/; the spec names them OutOfMemory and AlreadyExists/NotFound (the
    code returns [-EEXIST] for both of the latter).  Linux values. *)
Definition ENOMEM : Z := 12.
Definition EEXIST : Z := 17.

(** Modelled from the spec: the address families {Unspecified, IPv4, IPv6,
    DualStack} of <sys/socket.h> and libipset/types.h are not under src/.
    Linux values; [family] is a [uint8_t]. *)
Definition AF_UNSPEC : Z := 0.
Definition AF_INET : Z := 2.
Definition AF_INET6 : Z := 10.
Definition AF_INET46 : Z := 255.

(** [STREQ(a, b)] is [strcmp(a, b) == 0]. *)
Definition STREQ (a b : string) : bool := String.eqb a b.

(** [MIN] and [MAX] of libipset/utils.h, as the macros are written. *)
Definition MIN (a b : Z) : Z := if a <? b then a else b.
Definition MAX (a b : Z) : Z := if a >? b then a else b.

(** The tri-state of [kernel_check]. *)
Inductive kernel_check_t : Type :=
  | IPSET_KERNEL_MISMATCH
  | IPSET_KERNEL_CHECK_NEEDED
  | IPSET_KERNEL_OK.

Definition kernel_check_eqb (a b : kernel_check_t) : bool :=
  match a, b with
  | IPSET_KERNEL_MISMATCH, IPSET_KERNEL_MISMATCH => true
  | IPSET_KERNEL_CHECK_NEEDED, IPSET_KERNEL_CHECK_NEEDED => true
  | IPSET_KERNEL_OK, IPSET_KERNEL_OK => true
  | _, _ => false
  end.

(** [struct ipset_type], the fields this file reads or writes.  [t_full_add]
    is [full[IPSET_ADD]]; the two [maxsize] slots are [IPSET_MAXSIZE_INET]
    and [IPSET_MAXSIZE_INET6].  The [next] link is the position in the
    list. *)
Record ipset_type : Type := mk_ipset_type {
  t_name : string;
  t_alias : list string;
  t_revision : Z;
  t_family : Z;
  t_kernel_check : kernel_check_t;
  t_full_add : Z;
  t_maxsize_inet : Z;
  t_maxsize_inet6 : Z
}.

(** [struct ipset]: a cached set.  In the source [type] is a pointer to a
    descriptor, in practice a node of [typelist]; here [s_type] holds the
    contents of the descriptor pointed to.  The only field of a registered
    descriptor that is written after its registration is [kernel_check]
    ([create_type_get] and [adt_type_get] set it to [IPSET_KERNEL_OK]).  In
    the source such a write is seen through the pointer of every cached
    set of that type; here it is made on the registry list only and is not
    carried over to the [s_type] of those cached sets.  For a call that may
    write a mark, the properties below therefore state only that the
    cached sets keep their names, their families and their order; the
    cache as a whole is stated unchanged only where the registry is left
    unchanged too. *)
Record ipset : Type := mk_ipset {
  s_name : string;
  s_type : ipset_type;
  s_family : Z
}.

Definition set_s_name (s : ipset) (n : string) : ipset :=
  {| s_name := n; s_type := s_type s; s_family := s_family s |}.

Definition set_kernel_check (t : ipset_type) (k : kernel_check_t) : ipset_type :=
  {| t_name := t_name t; t_alias := t_alias t; t_revision := t_revision t;
     t_family := t_family t; t_kernel_check := k; t_full_add := t_full_add t;
     t_maxsize_inet := t_maxsize_inet t; t_maxsize_inet6 := t_maxsize_inet6 t |}.

(** ** The set cache *)

Section Cache.

(** [ipset_strncpy(dst, src, IPSET_MAXNAMELEN)] of libipset/utils.h is not
    under src/: the name stored in the [IPSET_MAXNAMELEN] buffer is taken
    as a function of the source string. *)
Variable ipset_strncpy : string -> string.

(** The loop of [ipset_cache_add], entered at node [s] whose successors
    are [rest]: [for (s = setlist; s->next != NULL; s = s->next)].  The
    name test is in the body, so it runs only for nodes that have a
    successor; [None] is the [-EEXIST] return, [Some l] the list after
    [s->next = n]. *)
Fixpoint cache_add_scan (name : string) (n s : ipset) (rest : list ipset)
  : option (list ipset) :=
  match rest with
  | [] => Some [s; n]
  | s' :: rest' =>
      if STREQ name (s_name s) then None
      else option_map (cons s) (cache_add_scan name n s' rest')
  end.

(** [ipset_cache_add].  [malloc_ok] tells whether [malloc] returned a
    node. *)
Definition ipset_cache_add (malloc_ok : bool) (name : string)
    (type : ipset_type) (family : Z) (setlist : list ipset)
  : Z * list ipset :=
  if negb malloc_ok then (- ENOMEM, setlist)
  else
    let n := {| s_name := ipset_strncpy name; s_type := type;
                s_family := family |} in
    match setlist with
    | [] => (0, [n])
    | s :: rest =>
        match cache_add_scan name n s rest with
        | None => (- EEXIST, setlist)
        | Some l => (0, l)
        end
    end.

(** The second loop of [ipset_cache_del]: unlink the first node named
    [name]; the return code is [0] when one was found ([match != NULL]). *)
Fixpoint cache_del_scan (name : string) (l : list ipset) : Z * list ipset :=
  match l with
  | [] => (- EEXIST, [])
  | s :: rest =>
      if STREQ (s_name s) name then (0, rest)
      else let (rc, rest') := cache_del_scan name rest in (rc, s :: rest')
  end.

(** [ipset_cache_del]; [None] is the NULL name, which empties the cache. *)
Definition ipset_cache_del (name : option string) (setlist : list ipset)
  : Z * list ipset :=
  match name with
  | None => (0, [])
  | Some name => cache_del_scan name setlist
  end.

(** [ipset_cache_rename]: the first node named [from] gets the copy of
    [to]. *)
Fixpoint ipset_cache_rename (from to : string) (setlist : list ipset)
  : Z * list ipset :=
  match setlist with
  | [] => (- EEXIST, [])
  | s :: rest =>
      if STREQ (s_name s) from then (0, set_s_name s (ipset_strncpy to) :: rest)
      else let (rc, rest') := ipset_cache_rename from to rest in (rc, s :: rest')
  end.

(** The loop of [ipset_cache_swap]; nodes are named by their position,
    [i] is the position of the head of [l]. *)
Fixpoint cache_swap_scan (from to : string) (l : list ipset) (i : nat)
    (a b : option nat) : option nat * option nat :=
  match l with
  | [] => (a, b)
  | s :: rest =>
      match a, b with
      | Some _, Some _ => (a, b)
      | _, _ =>
          let a' := match a with
                    | None => if STREQ (s_name s) from then Some i else None
                    | Some _ => a
                    end in
          let b' := match b with
                    | None => if STREQ (s_name s) to then Some i else None
                    | Some _ => b
                    end in
          cache_swap_scan from to rest (S i) a' b'
      end
  end.

(** Writing the name of the node at position [i]. *)
Fixpoint cache_name_at (i : nat) (n : string) (l : list ipset) {struct l}
  : list ipset :=
  match l, i with
  | [], _ => []
  | s :: rest, O => set_s_name s n :: rest
  | s :: rest, S i' => s :: cache_name_at i' n rest
  end.

(** [ipset_cache_swap]: both nodes are looked up first, then [a] gets the
    copy of [to] and [b] the copy of [from], in this order. *)
Definition ipset_cache_swap (from to : string) (setlist : list ipset)
  : Z * list ipset :=
  match cache_swap_scan from to setlist 0 None None with
  | (Some a, Some b) =>
      (0, cache_name_at b (ipset_strncpy from)
            (cache_name_at a (ipset_strncpy to) setlist))
  | _ => (- EEXIST, setlist)
  end.

(** [ipset_cache_init] and [ipset_cache_fini]. *)
Definition ipset_cache_init : Z := 0.
Definition ipset_cache_fini (setlist : list ipset) : list ipset := [].

(** A call of the cache interface, and a run of calls. *)
Inductive cache_op : Type :=
  | CacheAdd (malloc_ok : bool) (name : string) (type : ipset_type) (family : Z)
  | CacheDel (name : option string)
  | CacheRename (from to : string)
  | CacheSwap (from to : string).

Definition cache_step (op : cache_op) (setlist : list ipset) : Z * list ipset :=
  match op with
  | CacheAdd m name type family => ipset_cache_add m name type family setlist
  | CacheDel name => ipset_cache_del name setlist
  | CacheRename from to => ipset_cache_rename from to setlist
  | CacheSwap from to => ipset_cache_swap from to setlist
  end.

Fixpoint cache_run (ops : list cache_op) (setlist : list ipset) : list ipset :=
  match ops with
  | [] => setlist
  | op :: ops' => cache_run ops' (snd (cache_step op setlist))
  end.

End Cache.

(** ** The type registry *)

(** [ipset_match_typename]: the canonical name, then the NULL-terminated
    alias array. *)
Definition ipset_match_typename (name : string) (type : ipset_type) : bool :=
  if STREQ name (t_name type) then true
  else existsb (STREQ name) (t_alias type).

(** The macro [MATCH_FAMILY(type, f)]. *)
Definition MATCH_FAMILY (type : ipset_type) (f : Z) : bool :=
  (f =? AF_UNSPEC) || (t_family type =? f) || (t_family type =? AF_INET46).

Section Registry.

(** Of libipset/data.h, not under src/: the option numbers run from
    [IPSET_OPT_NONE = 0] to [IPSET_OPT_MAX], [IPSET_FLAG(opt)] is the bit
    of an option, [IPSET_ADT_FLAGS] the mask of the options of an element
    and [ipset_data_sizeof(opt, family)] the encoded size of one. *)
Variable IPSET_OPT_MAX : nat.
Variable IPSET_FLAG : nat -> Z.
Variable IPSET_ADT_FLAGS : Z.
Variable ipset_data_sizeof : nat -> Z -> Z.

(** [max] of [type_max_size] is a [size_t] (LP64). *)
Definition size_t_wrap (z : Z) : Z := z mod 2 ^ 64.

(** The loop of [type_max_size] over the options
    [IPSET_OPT_NONE + 1 .. IPSET_OPT_MAX - 1]. *)
Definition type_max_size_sum (type : ipset_type) (family : Z) : Z :=
  fold_left
    (fun max opt =>
       if Z.land (IPSET_FLAG opt) IPSET_ADT_FLAGS =? 0 then max
       else if Z.land (IPSET_FLAG opt) (t_full_add type) =? 0 then max
       else size_t_wrap (max + ipset_data_sizeof opt family))
    (seq 1 (IPSET_OPT_MAX - 1)) 0.

(** [type_max_size]: the slot is chosen by [family == AF_INET]. *)
Definition type_max_size (type : ipset_type) (family : Z) : ipset_type :=
  let max := type_max_size_sum type family in
  if family =? AF_INET then
    {| t_name := t_name type; t_alias := t_alias type;
       t_revision := t_revision type; t_family := t_family type;
       t_kernel_check := t_kernel_check type; t_full_add := t_full_add type;
       t_maxsize_inet := max; t_maxsize_inet6 := t_maxsize_inet6 type |}
  else
    {| t_name := t_name type; t_alias := t_alias type;
       t_revision := t_revision type; t_family := t_family type;
       t_kernel_check := t_kernel_check type; t_full_add := t_full_add type;
       t_maxsize_inet := t_maxsize_inet type; t_maxsize_inet6 := max |}.

(** The [switch (type->family)] of [ipset_type_add]; [None] is the
    [default: return -1]. *)
Definition type_fill_max_sizes (type : ipset_type) : option ipset_type :=
  let f := t_family type in
  if (f =? AF_UNSPEC) || (f =? AF_INET) then Some (type_max_size type AF_INET)
  else if f =? AF_INET6 then Some (type_max_size type AF_INET6)
  else if f =? AF_INET46 then
    Some (type_max_size (type_max_size type AF_INET) AF_INET6)
  else None.

(** What the insertion loop of [ipset_type_add] ends with. *)
Inductive type_add_scan_t : Type :=
  | Scan_exists                              (* errno = EEXIST; return -1 *)
  | Scan_inserted (l : list ipset_type)      (* spliced in; return 0 *)
  | Scan_end.                                (* the loop ran off the list *)

(** The insertion loop of [ipset_type_add] from node [t] on: first the
    test on [t] itself, then the test on [t->next], then [t = t->next]. *)
Fixpoint type_add_scan (type : ipset_type) (l : list ipset_type)
  : type_add_scan_t :=
  match l with
  | [] => Scan_end
  | t :: rest =>
      let continue_ :=
        match type_add_scan type rest with
        | Scan_inserted r => Scan_inserted (t :: r)
        | other => other
        end in
      let look_ahead :=
        match rest with
        | n :: _ =>
            if STREQ (t_name n) (t_name type) then
              if t_revision n =? t_revision type then Scan_exists
              else if t_revision n <? t_revision type
                   then Scan_inserted (t :: type :: rest)
                   else continue_
            else continue_
        | [] => continue_
        end in
      if STREQ (t_name t) (t_name type) then
        if t_revision t =? t_revision type then Scan_exists
        else if t_revision t <? t_revision type
             then Scan_inserted (type :: t :: rest)
             else look_ahead
      else look_ahead
  end.

(** The ways [ipset_type_add] returns. *)
Inductive type_add_result : Type :=
  | Type_added            (* return 0 *)
  | Type_EEXIST           (* return -1 with errno = EEXIST *)
  | Type_bad_family.      (* return -1 from the switch *)

(** [ipset_type_add]. *)
Definition ipset_type_add (type : ipset_type) (typelist : list ipset_type)
  : type_add_result * list ipset_type :=
  match type_fill_max_sizes type with
  | None => (Type_bad_family, typelist)
  | Some type' =>
      match type_add_scan type' typelist with
      | Scan_exists => (Type_EEXIST, typelist)
      | Scan_inserted l => (Type_added, l)
      | Scan_end => (Type_added, type' :: typelist)
      end
  end.

(** Registering a sequence of descriptors, in order. *)
Fixpoint register_all (types : list ipset_type) (typelist : list ipset_type)
  : list ipset_type :=
  match types with
  | [] => typelist
  | type :: types' => register_all types' (snd (ipset_type_add type typelist))
  end.

End Registry.

(** [ipset_typename_resolve]. *)
Fixpoint ipset_typename_resolve (str : string) (typelist : list ipset_type)
  : option string :=
  match typelist with
  | [] => None
  | t :: rest =>
      if ipset_match_typename str t then Some (t_name t)
      else ipset_typename_resolve str rest
  end.

(** [ipset_types]. *)
Definition ipset_types (typelist : list ipset_type) : list ipset_type := typelist.

(** ** The resolver *)

(** [enum ipset_cmd], the commands this file names. *)
Inductive cmd : Type :=
  | IPSET_CMD_NONE
  | IPSET_CMD_CREATE
  | IPSET_CMD_ADD
  | IPSET_CMD_DEL
  | IPSET_CMD_TEST
  | IPSET_CMD_HEADER
  | IPSET_CMD_TYPE
  | IPSET_CMD_other (n : nat).

(** The session's [struct ipset_data], the options this file reads or
    writes; [None] is an option whose flag is not set ([ipset_data_get]
    returns NULL, [ipset_data_test] false).  [d_family] is
    [ipset_data_family(data)]. *)
Record ipset_data : Type := mk_ipset_data {
  d_setname : option string;        (* IPSET_SETNAME *)
  d_typename : option string;       (* IPSET_OPT_TYPENAME *)
  d_family : Z;                     (* IPSET_OPT_FAMILY *)
  d_revision : option Z;            (* IPSET_OPT_REVISION *)
  d_revision_min : option Z;        (* IPSET_OPT_REVISION_MIN *)
  d_type : option ipset_type        (* IPSET_OPT_TYPE *)
}.

Definition set_d_family (d : ipset_data) (f : Z) : ipset_data :=
  {| d_setname := d_setname d; d_typename := d_typename d; d_family := f;
     d_revision := d_revision d; d_revision_min := d_revision_min d;
     d_type := d_type d |}.

Definition set_d_type (d : ipset_data) (t : ipset_type) : ipset_data :=
  {| d_setname := d_setname d; d_typename := d_typename d;
     d_family := d_family d; d_revision := d_revision d;
     d_revision_min := d_revision_min d; d_type := Some t |}.

(** What the functions work on: the session data, the two global lists and
    the commands handed to [ipset_cmd] so far, latest first. *)
Record world : Type := mk_world {
  w_data : ipset_data;
  w_typelist : list ipset_type;
  w_setlist : list ipset;
  w_sent : list cmd
}.

(** How a lookup ends.  The errors are the [ipset_errptr] calls, with the
    numbers their messages print. *)
Inductive type_result : Type :=
  | Type_found (t : ipset_type)
  | Err_unknown_settype                          (* "unknown settype" *)
  | Err_transport (ret : Z)                      (* ipset_cmd failed: NULL *)
  | Err_upgrade_library (family kmin tmax : Z)   (* "upgrade your ipset library" *)
  | Err_upgrade_kernel (family kmax tmin : Z)    (* "upgrade your kernel" *)
  | Err_kernel_library (family revision : Z)     (* "Kernel-library incompatibility" *)
  | Err_kernel_userspace (revision : Z)          (* "Kernel and userspace incompatible" *)
  | Type_none                                    (* NULL for IPSET_CMD_NONE *)
  | Fault.                                       (* failed assert or NULL dereference *)

Definition is_found (r : type_result) : bool :=
  match r with Type_found _ => true | _ => false end.

(** Writing the node at position [i] of the type list. *)
Fixpoint type_set_at (i : nat) (t' : ipset_type) (l : list ipset_type)
    {struct l} : list ipset_type :=
  match l, i with
  | [], _ => []
  | _ :: rest, O => t' :: rest
  | t :: rest, S i' => t :: type_set_at i' t' rest
  end.

(** The loop of [create_type_get] over the registered types: [m] is
    [match] (a node, by position, and its contents), [tmin] and [tmax] the
    two [uint8_t] locals; [i] is the position of the head of [l]. *)
Fixpoint create_scan (typename : string) (family : Z) (l : list ipset_type)
    (i : nat) (m : option (nat * ipset_type)) (tmin tmax : Z)
  : option (nat * ipset_type) * Z * Z :=
  match l with
  | [] => (m, tmin, tmax)
  | t :: rest =>
      if kernel_check_eqb (t_kernel_check t) IPSET_KERNEL_MISMATCH then
        create_scan typename family rest (S i) m tmin tmax
      else if ipset_match_typename typename t && MATCH_FAMILY t family then
        match m with
        | None =>
            create_scan typename family rest (S i) (Some (i, t)) tmin (t_revision t)
        | Some (_, mt) =>
            if t_family t =? t_family mt then
              create_scan typename family rest (S i) m (t_revision t) tmax
            else create_scan typename family rest (S i) m tmin tmax
        end
      else create_scan typename family rest (S i) m tmin tmax
  end.

(** The family a lookup settles on: [family == AF_UNSPEC &&
    match->family != AF_UNSPEC] picks the family of the match, with
    [AF_INET46] read as [AF_INET]. *)
Definition family_unset (match_ : ipset_type) (family : Z) : bool :=
  (family =? AF_UNSPEC) && negb (t_family match_ =? AF_UNSPEC).

Definition family_of_match (match_ : ipset_type) : Z :=
  if t_family match_ =? AF_INET46 then AF_INET else t_family match_.

(** The macro [set_family_and_type(data, match, family)]. *)
Definition set_family_and_type (data : ipset_data) (match_ : ipset_type)
    (family : Z) : ipset_data :=
  let data := if family_unset match_ family
              then set_d_family data (family_of_match match_) else data in
  set_d_type data match_.

(** The loop of [adt_type_get] over the registered types: it stops at the
    first node that passes the test and marks it; the result is the marked
    node and the list with it. *)
Fixpoint adt_scan (typename : string) (family revision : Z)
    (l : list ipset_type) : option (ipset_type * list ipset_type) :=
  match l with
  | [] => None
  | t :: rest =>
      let continue_ :=
        match adt_scan typename family revision rest with
        | Some (m, rest') => Some (m, t :: rest')
        | None => None
        end in
      if kernel_check_eqb (t_kernel_check t) IPSET_KERNEL_MISMATCH then continue_
      else if STREQ typename (t_name t) && MATCH_FAMILY t family
              && (revision =? t_revision t) then
        let t' := set_kernel_check t IPSET_KERNEL_OK in Some (t', t' :: rest)
      else continue_
  end.

(** The loop of [ipset_type_check]. *)
Fixpoint check_scan (typename : string) (family revision : Z)
    (l : list ipset_type) : option ipset_type :=
  match l with
  | [] => None
  | t :: rest =>
      if kernel_check_eqb (t_kernel_check t) IPSET_KERNEL_MISMATCH then
        check_scan typename family revision rest
      else if ipset_match_typename typename t && MATCH_FAMILY t family
              && (t_revision t =? revision) then Some t
      else check_scan typename family revision rest
  end.

(** The cache loop of [adt_type_get]. *)
Fixpoint cache_lookup (setname : string) (l : list ipset) : option ipset :=
  match l with
  | [] => None
  | s :: rest => if STREQ setname (s_name s) then Some s else cache_lookup setname rest
  end.

Section Resolver.

(** [ipset_cmd(session, cmd, 0)] of the session layer is not under src/:
    it returns a code and leaves the kernel's reply in the session
    data. *)
Variable ipset_cmd : cmd -> ipset_data -> Z * ipset_data.

Definition send (c : cmd) (w : world) : Z * world :=
  let (ret, data) := ipset_cmd c (w_data w) in
  (ret, {| w_data := data; w_typelist := w_typelist w;
           w_setlist := w_setlist w; w_sent := c :: w_sent w |}).

Definition with_data (w : world) (data : ipset_data) : world :=
  {| w_data := data; w_typelist := w_typelist w; w_setlist := w_setlist w;
     w_sent := w_sent w |}.

Definition with_typelist (w : world) (l : list ipset_type) : world :=
  {| w_data := w_data w; w_typelist := l; w_setlist := w_setlist w;
     w_sent := w_sent w |}.

(** [create_type_get]. *)
Definition create_type_get (w : world) : type_result * world :=
  let data := w_data w in
  match d_typename data with
  | None => (Fault, w)                                   (* assert(typename) *)
  | Some typename =>
      let family := d_family data in
      match create_scan typename family (w_typelist w) 0 None 0 0 with
      | (None, _, _) => (Err_unknown_settype, w)
      | (Some (i, match_), tmin, tmax) =>
          let unset := family_unset match_ family in
          let family := if unset then family_of_match match_ else family in
          let w := if unset then with_data w (set_d_family data family) else w in
          if kernel_check_eqb (t_kernel_check match_) IPSET_KERNEL_OK then
            (Type_found match_, with_data w (set_d_type (w_data w) match_))
          else
            let (ret, w) := send IPSET_CMD_TYPE w in
            if negb (ret =? 0) then (Err_transport ret, w)
            else
              match d_revision (w_data w) with
              | None => (Fault, w)                       (* *kmax *)
              | Some kmax =>
                  let kmin := match d_revision_min (w_data w) with
                              | Some kmin => kmin
                              | None => kmax
                              end in
                  if MAX tmin kmin >? MIN tmax kmax then
                    if kmin >? tmax
                    then (Err_upgrade_library family kmin tmax, w)
                    else (Err_upgrade_kernel family kmax tmin, w)
                  else
                    let match_ := set_kernel_check match_ IPSET_KERNEL_OK in
                    let w := with_typelist w (type_set_at i match_ (w_typelist w)) in
                    (Type_found match_, with_data w (set_d_type (w_data w) match_))
              end
      end
  end.

(** [adt_type_get].  On a cache hit the local [family] is read before it
    was ever written: [stack_family] is the value it happens to hold. *)
Definition adt_type_get (stack_family : Z) (w : world) : type_result * world :=
  match d_setname (w_data w) with
  | None => (Fault, w)                                   (* assert(setname) *)
  | Some setname =>
      match cache_lookup setname (w_setlist w) with
      | Some s =>
          let match_ := s_type s in
          (Type_found match_,
           with_data w (set_family_and_type (w_data w) match_ stack_family))
      | None =>
          let (ret, w) := send IPSET_CMD_HEADER w in
          if negb (ret =? 0) then (Err_transport ret, w)
          else
            match d_typename (w_data w), d_revision (w_data w) with
            | Some typename, Some revision =>
                let family := d_family (w_data w) in
                match adt_scan typename family revision (w_typelist w) with
                | None => (Err_kernel_library family revision, w)
                | Some (match_, l) =>
                    let w := with_typelist w l in
                    (Type_found match_,
                     with_data w (set_family_and_type (w_data w) match_ family))
                end
            | _, _ => (Fault, w)                         (* NULL typename or revision *)
            end
      end
  end.

(** [ipset_type_get]. *)
Definition ipset_type_get (stack_family : Z) (c : cmd) (w : world)
  : type_result * world :=
  match c with
  | IPSET_CMD_CREATE => create_type_get w
  | IPSET_CMD_ADD | IPSET_CMD_DEL | IPSET_CMD_TEST => adt_type_get stack_family w
  | IPSET_CMD_NONE => (Type_none, w)
  | _ => (Fault, w)                                      (* assert(cmd == IPSET_CMD_NONE) *)
  end.

End Resolver.

(** [ipset_type_check]. *)
Definition ipset_type_check (w : world) : type_result * world :=
  match d_typename (w_data w), d_revision (w_data w) with
  | Some typename, Some revision =>
      let family := d_family (w_data w) in
      match check_scan typename family revision (w_typelist w) with
      | None => (Err_kernel_userspace revision, w)
      | Some match_ =>
          (Type_found match_,
           {| w_data := set_family_and_type (w_data w) match_ family;
              w_typelist := w_typelist w; w_setlist := w_setlist w;
              w_sent := w_sent w |})
      end
  | _, _ => (Fault, w)
  end.

(** ** Notions the properties are stated with *)

(** The names carried by the cache, in list order. *)
Definition names (l : list ipset) : list string := map s_name l.

(** Whether some cached set carries [name]. *)
Definition cached (name : string) (l : list ipset) : bool :=
  existsb (STREQ name) (names l).

(** The position of the first cached set named [name]. *)
Fixpoint cache_position (name : string) (l : list ipset) : option nat :=
  match l with
  | [] => None
  | s :: rest =>
      if STREQ (s_name s) name then Some O
      else option_map S (cache_position name rest)
  end.

(** Exchanging the labels [a] and [b] on one cached set. *)
Definition swap_label (a b : string) (s : ipset) : ipset :=
  if STREQ (s_name s) a then set_s_name s b
  else if STREQ (s_name s) b then set_s_name s a
  else s.

(** The same exchange on a name. *)
Definition swap_string (a b x : string) : string :=
  if STREQ x a then b else if STREQ x b then a else x.

(** Relabelling [a] as [b] on one cached set. *)
Definition relabel (a b : string) (s : ipset) : ipset :=
  if STREQ (s_name s) a then set_s_name s b else s.

(** Modelled from the spec: a CachedSet name is a bounded-length string;
    [ipset_strncpy] and [IPSET_MAXNAMELEN] are not under src/.  The copy
    used in the examples keeps the first [IPSET_MAXNAMELEN - 1] characters. *)
Definition IPSET_MAXNAMELEN : nat := 32.

Fixpoint strncpy_chars (n : nat) (s : string) : string :=
  match n, s with
  | S n', String c s' => String c (strncpy_chars n' s')
  | _, _ => EmptyString
  end.

Definition name_copy (s : string) : string :=
  strncpy_chars (IPSET_MAXNAMELEN - 1) s.

(** A run of cache calls in which every [ipset_cache_add] brings a name the
    cache does not hold and every [ipset_cache_rename] renames to a name the
    cache does not hold. *)
Definition fresh_call (strncpy : string -> string) (op : cache_op)
    (l : list ipset) : bool :=
  match op with
  | CacheAdd _ name _ _ => negb (cached (strncpy name) l)
  | CacheRename _ to => negb (cached (strncpy to) l)
  | CacheDel _ | CacheSwap _ _ => true
  end.

Fixpoint fresh_run (strncpy : string -> string) (ops : list cache_op)
    (l : list ipset) : bool :=
  match ops with
  | [] => true
  | op :: ops' =>
      fresh_call strncpy op l
      && fresh_run strncpy ops' (snd (cache_step strncpy op l))
  end.

(** One set per name, and every stored name fits the name buffer (copying
    it again leaves it as it is). *)
Definition cache_ok (strncpy : string -> string) (l : list ipset) : Prop :=
  NoDup (names l) /\ Forall (fun n => strncpy n = n) (names l).

(** The revisions registered under [name], in list order. *)
Definition revisions_of (name : string) (l : list ipset_type) : list Z :=
  map t_revision (filter (fun t => STREQ (t_name t) name) l).

(** Strictly descending. *)
Fixpoint strictly_descending (l : list Z) : bool :=
  match l with
  | x :: (y :: _) as rest => (y <? x) && strictly_descending rest
  | _ => true
  end.

(** The families [ipset_type_add] accepts. *)
Definition valid_family (f : Z) : bool :=
  (f =? AF_UNSPEC) || (f =? AF_INET) || (f =? AF_INET6) || (f =? AF_INET46).

(** The test of the loop of [create_type_get] on one descriptor: not marked
    as a mismatch, the name or an alias, and a matching family. *)
Definition create_candidate (typename : string) (family : Z)
    (t : ipset_type) : bool :=
  negb (kernel_check_eqb (t_kernel_check t) IPSET_KERNEL_MISMATCH)
  && (ipset_match_typename typename t && MATCH_FAMILY t family).

(** The revisions, in list order, of the candidates that have the family
    of the best match. *)
Definition same_family_revisions (typename : string) (family : Z)
    (best : ipset_type) (l : list ipset_type) : list Z :=
  map t_revision
    (filter (fun t => create_candidate typename family t
                      && (t_family t =? t_family best)) l).

(** The test of the loop of [adt_type_get] on one descriptor: not marked
    as a mismatch, the canonical name, a matching family and the very
    revision. *)
Definition adt_candidate (typename : string) (family revision : Z)
    (t : ipset_type) : bool :=
  negb (kernel_check_eqb (t_kernel_check t) IPSET_KERNEL_MISMATCH)
  && (STREQ typename (t_name t) && MATCH_FAMILY t family
      && (revision =? t_revision t)).

(** A descriptor that qualifies by the words of the spec: canonical name
    or alias, a matching family and the very revision. *)
Definition named_candidate (typename : string) (family revision : Z)
    (t : ipset_type) : bool :=
  ipset_match_typename typename t && MATCH_FAMILY t family
  && (revision =? t_revision t).

(** The kernel answers [IPSET_CMD_TYPE] with code 0 and leaves the highest
    revision [kmax] in the session data, and the lowest one when [kmin] is
    [Some]. *)
Definition kernel_reports (ipset_cmd : cmd -> ipset_data -> Z * ipset_data)
    (kmin : option Z) (kmax : Z) : Prop :=
  forall d,
    fst (ipset_cmd IPSET_CMD_TYPE d) = 0
    /\ d_revision (snd (ipset_cmd IPSET_CMD_TYPE d)) = Some kmax
    /\ d_revision_min (snd (ipset_cmd IPSET_CMD_TYPE d)) = kmin.

(** The kernel answers [IPSET_CMD_HEADER] with code 0 and leaves the type
    name, the family and the revision of the set in the session data. *)
Definition kernel_header_reports
    (ipset_cmd : cmd -> ipset_data -> Z * ipset_data)
    (typename : string) (family revision : Z) : Prop :=
  forall d,
    fst (ipset_cmd IPSET_CMD_HEADER d) = 0
    /\ d_typename (snd (ipset_cmd IPSET_CMD_HEADER d)) = Some typename
    /\ d_family (snd (ipset_cmd IPSET_CMD_HEADER d)) = family
    /\ d_revision (snd (ipset_cmd IPSET_CMD_HEADER d)) = Some revision.

(** ** Sample data for the examples *)

(** A descriptor in the style of the set types of the library. *)
Definition sample_type (name : string) (revision family : Z) : ipset_type :=
  {| t_name := name; t_alias := []; t_revision := revision;
     t_family := family; t_kernel_check := IPSET_KERNEL_CHECK_NEEDED;
     t_full_add := 0; t_maxsize_inet := 0; t_maxsize_inet6 := 0 |}.

Definition hash_ip : ipset_type := sample_type "hash:ip" 0 AF_INET46.

(** Two sets are created, then the first is renamed to the name of the
    second. *)
Definition rename_onto_existing : list cache_op :=
  [ CacheAdd true "a" hash_ip AF_INET;
    CacheAdd true "b" hash_ip AF_INET;
    CacheRename "a" "b" ].

(** Three sets are created and the second is renamed to the name of the
    first. *)
Definition two_sets_named_a : list cache_op :=
  [ CacheAdd true "a" hash_ip AF_INET;
    CacheAdd true "q" hash_ip AF_INET6;
    CacheAdd true "b" hash_ip AF_INET;
    CacheRename "q" "a" ].

(** A run that keeps every name fresh. *)
Definition fresh_calls : list cache_op :=
  [ CacheAdd true "a" hash_ip AF_INET;
    CacheAdd true "b" hash_ip AF_INET6;
    CacheSwap "a" "b";
    CacheRename "a" "c";
    CacheDel (Some "b");
    CacheAdd false "d" hash_ip AF_INET;
    CacheAdd true "b" hash_ip AF_INET ].

(** A simulated kernel that supports the revisions [kmin .. kmax] of every
    type. *)
Definition kernel_range (kmin kmax : Z) (c : cmd) (d : ipset_data)
  : Z * ipset_data :=
  (0, {| d_setname := d_setname d; d_typename := d_typename d;
         d_family := d_family d; d_revision := Some kmax;
         d_revision_min := Some kmin; d_type := d_type d |}).

(** A simulated kernel that reports one revision and no minimum. *)
Definition kernel_revision (k : Z) (c : cmd) (d : ipset_data)
  : Z * ipset_data :=
  (0, {| d_setname := d_setname d; d_typename := d_typename d;
         d_family := d_family d; d_revision := Some k;
         d_revision_min := None; d_type := d_type d |}).

(** A simulated kernel in which every set has the given header. *)
Definition kernel_header (typename : string) (family revision : Z) (c : cmd)
    (d : ipset_data) : Z * ipset_data :=
  (0, {| d_setname := d_setname d; d_typename := Some typename;
         d_family := family; d_revision := Some revision;
         d_revision_min := d_revision_min d; d_type := d_type d |}).

(** The session of a create command with a type name and a family. *)
Definition create_session (typename : string) (family : Z)
    (typelist : list ipset_type) : world :=
  {| w_data := {| d_setname := Some "s1"; d_typename := Some typename;
                  d_family := family; d_revision := None;
                  d_revision_min := None; d_type := None |};
     w_typelist := typelist; w_setlist := []; w_sent := [] |}.

(** The session of an add, delete or test command on the set [setname]. *)
Definition adt_session (setname : string) (typelist : list ipset_type)
    (setlist : list ipset) : world :=
  {| w_data := {| d_setname := Some setname; d_typename := None;
                  d_family := AF_UNSPEC; d_revision := None;
                  d_revision_min := None; d_type := None |};
     w_typelist := typelist; w_setlist := setlist; w_sent := [] |}.

(** [hash:ip] with its old name as an alias, and the same marked as not
    supported by the kernel. *)
Definition hash_ip_inet : ipset_type :=
  {| t_name := "hash:ip"; t_alias := ["iphash"]; t_revision := 0;
     t_family := AF_INET; t_kernel_check := IPSET_KERNEL_CHECK_NEEDED;
     t_full_add := 0; t_maxsize_inet := 0; t_maxsize_inet6 := 0 |}.

Definition hash_ip_mismatch : ipset_type :=
  set_kernel_check hash_ip_inet IPSET_KERNEL_MISMATCH.

(** ** Notions for the further properties *)

(** The world with another cache. *)
Definition with_setlist (w : world) (l : list ipset) : world :=
  {| w_data := w_data w; w_typelist := w_typelist w; w_setlist := l;
     w_sent := w_sent w |}.

(** The revisions of the candidates of [create_type_get], in list order. *)
Definition candidate_revisions (typename : string) (family : Z)
    (l : list ipset_type) : list Z :=
  map t_revision (filter (create_candidate typename family) l).

(** The test of the loop of [ipset_type_check] on one descriptor. *)
Definition check_candidate (typename : string) (family revision : Z)
    (t : ipset_type) : bool :=
  negb (kernel_check_eqb (t_kernel_check t) IPSET_KERNEL_MISMATCH)
  && (ipset_match_typename typename t && MATCH_FAMILY t family
      && (t_revision t =? revision)).

(** The options that count in [type_max_size]: those of
    [IPSET_OPT_NONE + 1 .. IPSET_OPT_MAX - 1] whose flag is in
    [IPSET_ADT_FLAGS] and in [full[IPSET_ADD]]. *)
Definition counted_options (IPSET_OPT_MAX : nat) (IPSET_FLAG : nat -> Z)
    (IPSET_ADT_FLAGS : Z) (type : ipset_type) : list nat :=
  filter (fun opt =>
            negb (Z.land (IPSET_FLAG opt) IPSET_ADT_FLAGS =? 0)
            && negb (Z.land (IPSET_FLAG opt) (t_full_add type) =? 0))
    (seq 1 (IPSET_OPT_MAX - 1)).

(** The plain sum of the sizes of a list of options. *)
Definition sizes_total (ipset_data_sizeof : nat -> Z -> Z) (family : Z)
    (opts : list nat) : Z :=
  fold_right (fun opt acc => ipset_data_sizeof opt family + acc) 0 opts.

(** Option numbers, flags and sizes for the examples: three options, of
    which the first two belong to an element. *)
Definition sample_OPT_MAX : nat := 4.
Definition sample_FLAG (opt : nat) : Z := Z.shiftl 1 (Z.of_nat opt).
Definition sample_ADT_FLAGS : Z := 6.
Definition sample_sizeof (opt : nat) (family : Z) : Z :=
  if family =? AF_INET then 4 else 16.

(** [ipset_type_add] and the registration of a list with the sample
    options. *)
Definition sample_type_add (type : ipset_type) (typelist : list ipset_type)
  : type_add_result * list ipset_type :=
  ipset_type_add sample_OPT_MAX sample_FLAG sample_ADT_FLAGS sample_sizeof
    type typelist.

Definition sample_registry (types : list ipset_type) : list ipset_type :=
  register_all sample_OPT_MAX sample_FLAG sample_ADT_FLAGS sample_sizeof
    types [].

(** A descriptor with an alias and flags, for the examples. *)
Definition hash_net : ipset_type :=
  {| t_name := "hash:net"; t_alias := ["nethash"]; t_revision := 2;
     t_family := AF_INET46; t_kernel_check := IPSET_KERNEL_CHECK_NEEDED;
     t_full_add := 2; t_maxsize_inet := 0; t_maxsize_inet6 := 0 |}.

(** A kernel that cannot be reached. *)
Definition kernel_down (ret : Z) (c : cmd) (d : ipset_data) : Z * ipset_data :=
  (ret, d).

(** ** The revision range of a create, in the words of the spec *)

(** The descriptors the loop of [create_type_get] takes into account for a
    type name and a family. *)
Definition create_candidates (typename : string) (family : Z)
    (l : list ipset_type) : list ipset_type :=
  filter (create_candidate typename family) l.

(** The descriptor of the highest revision in a list, and the one of the
    lowest; on a tie the later one in the list. *)
Fixpoint highest_revision (l : list ipset_type) : option ipset_type :=
  match l with
  | [] => None
  | t :: rest =>
      match highest_revision rest with
      | Some m => if t_revision m <? t_revision t then Some t else Some m
      | None => Some t
      end
  end.

Fixpoint lowest_revision (l : list ipset_type) : option ipset_type :=
  match l with
  | [] => None
  | t :: rest =>
      match lowest_revision rest with
      | Some m => if t_revision t <? t_revision m then Some t else Some m
      | None => Some t
      end
  end.

(** Step 1 of [negotiateForCreate] as the spec words it: [bestMatch] is
    the match of the highest revision overall. *)
Definition spec_bestMatch (typename : string) (family : Z)
    (l : list ipset_type) : option ipset_type :=
  highest_revision (create_candidates typename family l).

(** Step 1 of [negotiateForCreate] as the spec words it: [minRevision] is
    the second-highest revision among the descriptors that share the
    family of [bestMatch], that is the highest one below the revision of
    [bestMatch]. *)
Definition spec_minRevision (typename : string) (family : Z)
    (l : list ipset_type) : option Z :=
  match spec_bestMatch typename family l with
  | None => None
  | Some best =>
      option_map t_revision
        (highest_revision
           (filter (fun t => (t_family t =? t_family best)
                             && (t_revision t <? t_revision best))
              (create_candidates typename family l)))
  end.

(** The lowest revision among the candidates that share the family of the
    match of the highest revision. *)
Definition lowest_family_revision (typename : string) (family : Z)
    (l : list ipset_type) : option Z :=
  match spec_bestMatch typename family l with
  | None => None
  | Some best =>
      option_map t_revision
        (lowest_revision
           (filter (fun t => t_family t =? t_family best)
              (create_candidates typename family l)))
  end.

(** Revisions 3, 5 and 7 of one type, registered in that order. *)
Definition three_revisions : list ipset_type :=
  sample_registry [sample_type "hash:ip" 3 AF_INET;
                   sample_type "hash:ip" 5 AF_INET;
                   sample_type "hash:ip" 7 AF_INET].

(** * Properties *)

(** ** Strings and labels *)

Lemma STREQ_eq (a b : string) : STREQ a b = true <-> a = b.
Proof. unfold STREQ. apply String.eqb_eq. Qed.

Lemma STREQ_neq (a b : string) : STREQ a b = false <-> a <> b.
Proof. unfold STREQ. apply String.eqb_neq. Qed.

Lemma STREQ_refl (a : string) : STREQ a a = true.
Proof. apply STREQ_eq. reflexivity. Qed.

Lemma STREQ_sym (a b : string) : STREQ a b = STREQ b a.
Proof. unfold STREQ. apply String.eqb_sym. Qed.

Ltac streq :=
  repeat match goal with
    | H : STREQ _ _ = true |- _ => apply STREQ_eq in H
    | H : STREQ _ _ = false |- _ => apply STREQ_neq in H
    end.

Lemma cached_In (name : string) (l : list ipset) :
  cached name l = true <-> In name (names l).
Proof.
  unfold cached. rewrite existsb_exists. split.
  - intros [x [Hin Heq]]. apply STREQ_eq in Heq. subst. exact Hin.
  - intros Hin. exists name. split; [exact Hin | apply STREQ_refl].
Qed.

Lemma cached_not_In (name : string) (l : list ipset) :
  cached name l = false <-> ~ In name (names l).
Proof.
  rewrite <- cached_In. destruct (cached name l); split; intros H;
    try discriminate; try reflexivity; intuition congruence.
Qed.

Lemma set_s_name_twice (s : ipset) (a b : string) :
  set_s_name (set_s_name s a) b = set_s_name s b.
Proof. reflexivity. Qed.

Lemma set_s_name_same (s : ipset) : set_s_name s (s_name s) = s.
Proof. destruct s. reflexivity. Qed.

(** ** The cache: what each call does to the list *)

Section CacheFacts.

Variable ipset_strncpy : string -> string.

Lemma cache_add_scan_appends name n s rest l :
  cache_add_scan name n s rest = Some l -> l = (s :: rest) ++ [n].
Proof.
  revert s l. induction rest as [|s' rest IH]; intros s l H; simpl in H.
  - inversion H. reflexivity.
  - destruct (STREQ name (s_name s)); [discriminate|].
    destruct (cache_add_scan name n s' rest) as [l'|] eqn:E; [|discriminate].
    inversion H. subst. rewrite (IH _ _ E). reflexivity.
Qed.

(** The scan refuses exactly the names carried by a node that has a
    successor. *)
Lemma cache_add_scan_refuses name n s rest :
  cache_add_scan name n s rest = None
  <-> In name (names (removelast (s :: rest))).
Proof using Type.
  revert s. induction rest as [|s' rest IH]; intros s.
  - simpl. split; [discriminate | intros []].
  - change (removelast (s :: s' :: rest)) with (s :: removelast (s' :: rest)).
    simpl cache_add_scan. unfold names in IH |- *. simpl map. simpl In.
    destruct (STREQ name (s_name s)) eqn:E; streq.
    + split; auto.
    + specialize (IH s').
      destruct (cache_add_scan name n s' rest); simpl; split; intros H.
      * discriminate.
      * destruct H as [H|H]; [congruence|]. apply IH in H. discriminate.
      * right. apply IH. reflexivity.
      * reflexivity.
Qed.

Lemma ipset_cache_add_cases m name type family l :
  let n := mk_ipset (ipset_strncpy name) type family in
  ipset_cache_add ipset_strncpy m name type family l = (- ENOMEM, l)
  \/ ipset_cache_add ipset_strncpy m name type family l = (- EEXIST, l)
  \/ ipset_cache_add ipset_strncpy m name type family l = (0, l ++ [n]).
Proof.
  intros n. unfold ipset_cache_add. destruct m; simpl; [|auto].
  destruct l as [|s rest]; [auto|].
  fold n. destruct (cache_add_scan name n s rest) eqn:E; [|auto].
  apply cache_add_scan_appends in E. subst. auto.
Qed.

Lemma cache_del_scan_cases name l :
  cache_del_scan name l = (- EEXIST, l)
  \/ fst (cache_del_scan name l) = 0.
Proof.
  induction l as [|s rest IH]; simpl; [auto|].
  destruct (STREQ (s_name s) name); [auto|].
  destruct (cache_del_scan name rest) as [rc rest'].
  destruct IH as [IH|IH]; simpl in *.
  - inversion IH. auto.
  - subst. auto.
Qed.

Lemma cache_del_scan_incl name l x :
  In x (names (snd (cache_del_scan name l))) -> In x (names l).
Proof.
  induction l as [|s rest IH]; simpl; [auto|].
  destruct (STREQ (s_name s) name); simpl; [auto|].
  destruct (cache_del_scan name rest) as [rc rest']. simpl in *.
  intros [H|H]; auto.
Qed.

Lemma cache_del_scan_NoDup name l :
  NoDup (names l) -> NoDup (names (snd (cache_del_scan name l))).
Proof.
  induction l as [|s rest IH]; simpl; [auto|].
  intros H. inversion H as [|? ? Hnotin Hnd]. subst.
  destruct (STREQ (s_name s) name); simpl; [exact Hnd|].
  pose proof (@cache_del_scan_incl name rest (s_name s)) as Hincl.
  destruct (cache_del_scan name rest) as [rc rest']. simpl in *.
  constructor; auto.
Qed.

Lemma ipset_cache_rename_cases from to l :
  ipset_cache_rename ipset_strncpy from to l = (- EEXIST, l)
  \/ fst (ipset_cache_rename ipset_strncpy from to l) = 0.
Proof.
  induction l as [|s rest IH]; simpl; [auto|].
  destruct (STREQ (s_name s) from); [auto|].
  destruct (ipset_cache_rename ipset_strncpy from to rest) as [rc rest'].
  destruct IH as [IH|IH]; simpl in *.
  - inversion IH. auto.
  - subst. auto.
Qed.

Lemma ipset_cache_rename_names from to l x :
  In x (names (snd (ipset_cache_rename ipset_strncpy from to l)))
  -> In x (names l) \/ x = ipset_strncpy to.
Proof.
  induction l as [|s rest IH]; simpl; [auto|].
  destruct (STREQ (s_name s) from); simpl.
  - intros [H|H]; auto.
  - destruct (ipset_cache_rename ipset_strncpy from to rest) as [rc rest'].
    simpl in *. intros [H|H]; auto. destruct (IH H); auto.
Qed.

Lemma ipset_cache_rename_NoDup from to l :
  ~ In (ipset_strncpy to) (names l) -> NoDup (names l)
  -> NoDup (names (snd (ipset_cache_rename ipset_strncpy from to l))).
Proof.
  induction l as [|s rest IH]; simpl; [auto|].
  intros Hfresh H. inversion H as [|? ? Hnotin Hnd]. subst.
  destruct (STREQ (s_name s) from); simpl.
  - constructor; auto.
  - pose proof (@ipset_cache_rename_names from to rest (s_name s)) as Hn.
    destruct (ipset_cache_rename ipset_strncpy from to rest) as [rc rest'].
    simpl in *. constructor; [|auto].
    intros Hin. destruct (Hn Hin) as [Hin'|Heq]; [auto|].
    apply Hfresh. left. exact Heq.
Qed.

End CacheFacts.

(** ** The cache: positions and labels *)

Lemma cache_swap_scan_positions from to l i a b :
  cache_swap_scan from to l i a b =
  (match a with
   | Some _ => a
   | None => option_map (Nat.add i) (cache_position from l)
   end,
   match b with
   | Some _ => b
   | None => option_map (Nat.add i) (cache_position to l)
   end).
Proof.
  revert i a b. induction l as [|s rest IH]; intros i a b.
  - simpl. destruct a, b; reflexivity.
  - simpl cache_swap_scan. simpl cache_position.
    assert (Hshift : forall o, option_map (Nat.add i) (option_map S o)
                               = option_map (Nat.add (S i)) o).
    { intros [k|]; simpl; [|reflexivity]. f_equal. apply Nat.add_succ_r. }
    destruct a as [a|], b as [b|]; try reflexivity; rewrite IH.
    + destruct (STREQ (s_name s) to); simpl; [rewrite Nat.add_0_r|rewrite Hshift];
        reflexivity.
    + destruct (STREQ (s_name s) from); simpl; [rewrite Nat.add_0_r|rewrite Hshift];
        reflexivity.
    + destruct (STREQ (s_name s) from), (STREQ (s_name s) to); simpl;
        rewrite ?Nat.add_0_r, ?Hshift; reflexivity.
Qed.

Lemma cache_position_add0 o : option_map (Nat.add 0) o = o.
Proof. destruct o; reflexivity. Qed.

(** [ipset_cache_swap] in terms of the first positions of the two names. *)
Lemma ipset_cache_swap_positions strncpy from to l :
  ipset_cache_swap strncpy from to l =
  match cache_position from l, cache_position to l with
  | Some a, Some b =>
      (0, cache_name_at b (strncpy from) (cache_name_at a (strncpy to) l))
  | _, _ => (- EEXIST, l)
  end.
Proof.
  unfold ipset_cache_swap. rewrite cache_swap_scan_positions.
  rewrite !cache_position_add0.
  destruct (cache_position from l), (cache_position to l); reflexivity.
Qed.

Lemma cache_position_In name l :
  In name (names l) <-> exists i, cache_position name l = Some i.
Proof.
  induction l as [|s rest IH]; simpl.
  - split; [tauto | intros [i H]; discriminate].
  - destruct (STREQ (s_name s) name) eqn:E; streq.
    + split; [intros _; exists O; reflexivity | auto].
    + rewrite IH. split.
      * intros [H|[i H]]; [congruence|]. exists (S i). rewrite H. reflexivity.
      * intros [i H]. right.
        destruct (cache_position name rest) as [k|]; [exists k; reflexivity|discriminate].
Qed.

Lemma map_relabel_absent a b l :
  ~ In a (names l) -> map (relabel a b) l = l.
Proof.
  induction l as [|s rest IH]; simpl; [reflexivity|].
  intros H. unfold relabel at 1.
  destruct (STREQ (s_name s) a) eqn:E; streq; [tauto|].
  rewrite IH; tauto.
Qed.

Lemma map_swap_label_absent_l a b l :
  ~ In a (names l) -> map (swap_label a b) l = map (relabel b a) l.
Proof.
  induction l as [|s rest IH]; simpl; [reflexivity|].
  intros H. unfold swap_label at 1, relabel at 1.
  destruct (STREQ (s_name s) a) eqn:E; streq; [tauto|].
  rewrite IH; tauto.
Qed.

Lemma map_swap_label_absent_r a b l :
  ~ In b (names l) -> map (swap_label a b) l = map (relabel a b) l.
Proof.
  induction l as [|s rest IH]; simpl; [reflexivity|].
  intros H. unfold swap_label at 1, relabel at 1.
  destruct (STREQ (s_name s) a) eqn:Ea; [rewrite IH; tauto|].
  destruct (STREQ (s_name s) b) eqn:Eb; streq; [tauto|].
  rewrite IH; tauto.
Qed.

Lemma cache_name_at_relabel a b l i :
  NoDup (names l) -> cache_position a l = Some i
  -> cache_name_at i b l = map (relabel a b) l.
Proof.
  revert i. induction l as [|s rest IH]; intros i Hnd Hpos; simpl in *.
  - discriminate.
  - inversion Hnd as [|? ? Hnotin Hnd']. subst. unfold relabel at 1.
    destruct (STREQ (s_name s) a) eqn:E; streq.
    + inversion Hpos. subst. simpl. rewrite map_relabel_absent; auto.
    + destruct (cache_position a rest) as [k|]; [|discriminate].
      inversion Hpos. subst. simpl. rewrite (IH k); auto.
Qed.

(** With one set per name, writing [b] at the first [a] and then [a] at the
    first [b] is the exchange of the two labels on every set. *)
Lemma cache_name_at_swap a b l i j :
  NoDup (names l) -> cache_position a l = Some i -> cache_position b l = Some j
  -> cache_name_at j a (cache_name_at i b l) = map (swap_label a b) l.
Proof.
  revert i j. induction l as [|s rest IH]; intros i j Hnd Hi Hj; simpl in *.
  - discriminate.
  - inversion Hnd as [|? ? Hnotin Hnd']. subst. unfold swap_label at 1.
    destruct (STREQ (s_name s) a) eqn:Ea.
    + inversion Hi. subst i. streq. simpl.
      destruct (STREQ (s_name s) b) eqn:Eb; streq.
      * inversion Hj. subst j. simpl. rewrite set_s_name_twice.
        rewrite map_swap_label_absent_l, map_relabel_absent by congruence.
        congruence.
      * destruct (cache_position b rest) as [k|] eqn:Ek; [|discriminate].
        inversion Hj. subst j. simpl.
        rewrite map_swap_label_absent_l by congruence.
        rewrite (@cache_name_at_relabel b a rest k); auto.
    + destruct (cache_position a rest) as [k|] eqn:Ek; [|discriminate].
      inversion Hi. subst i. simpl.
      destruct (STREQ (s_name s) b) eqn:Eb; streq.
      * inversion Hj. subst j. simpl.
        rewrite map_swap_label_absent_r by congruence.
        rewrite (@cache_name_at_relabel a b rest k); auto.
      * destruct (cache_position b rest) as [k'|] eqn:Ek'; [|discriminate].
        inversion Hj. subst j. simpl. rewrite (IH k k'); auto.
Qed.

Lemma names_swap_label a b l :
  names (map (swap_label a b) l) = map (swap_string a b) (names l).
Proof.
  unfold names. rewrite !map_map. apply map_ext. intros s.
  unfold swap_label, swap_string.
  destruct (STREQ (s_name s) a); [reflexivity|].
  destruct (STREQ (s_name s) b); reflexivity.
Qed.

Lemma swap_string_involutive a b x :
  swap_string a b (swap_string a b x) = x.
Proof.
  unfold swap_string.
  destruct (STREQ x a) eqn:Ea.
  - destruct (STREQ b a) eqn:Eba; streq; [congruence|].
    rewrite STREQ_refl. congruence.
  - destruct (STREQ x b) eqn:Eb.
    + rewrite STREQ_refl. streq. congruence.
    + rewrite Ea, Eb. reflexivity.
Qed.

Lemma swap_label_involutive a b s :
  swap_label a b (swap_label a b s) = s.
Proof.
  destruct s as [n t f]. unfold swap_label, set_s_name. simpl.
  destruct (STREQ n a) eqn:Ea; simpl.
  - destruct (STREQ b a) eqn:Eba; streq; [congruence|].
    rewrite STREQ_refl. simpl. congruence.
  - destruct (STREQ n b) eqn:Eb; simpl.
    + rewrite STREQ_refl. streq. destruct (STREQ a a); congruence.
    + rewrite Ea, Eb. reflexivity.
Qed.

Lemma swap_string_injective a b x y :
  swap_string a b x = swap_string a b y -> x = y.
Proof.
  intros Hxy. rewrite <- (swap_string_involutive a b x), Hxy.
  apply swap_string_involutive.
Qed.

Lemma NoDup_swap_label a b l :
  NoDup (names l) -> NoDup (names (map (swap_label a b) l)).
Proof.
  rewrite names_swap_label. generalize (names l) as ns.
  induction ns as [|n ns IH]; simpl; intros H; [constructor|].
  inversion H as [|? ? Hnotin Hnd]. subst. constructor; [|auto].
  rewrite in_map_iff. intros [y [Heq Hin]].
  apply swap_string_injective in Heq. subst. contradiction.
Qed.

Lemma cache_name_at_types i n l :
  map s_type (cache_name_at i n l) = map s_type l
  /\ map s_family (cache_name_at i n l) = map s_family l.
Proof.
  revert i. induction l as [|s rest IH]; intros i; simpl; [auto|].
  destruct i as [|i]; simpl; [auto|].
  destruct (IH i) as [Ht Hf]. rewrite Ht, Hf. auto.
Qed.

(** A swap never touches the type or the family of a cached set. *)
Lemma ipset_cache_swap_types strncpy from to l :
  map s_type (snd (ipset_cache_swap strncpy from to l)) = map s_type l
  /\ map s_family (snd (ipset_cache_swap strncpy from to l)) = map s_family l.
Proof.
  rewrite ipset_cache_swap_positions.
  destruct (cache_position from l), (cache_position to l); simpl; auto.
  split.
  - rewrite (proj1 (cache_name_at_types _ _ _)). apply cache_name_at_types.
  - rewrite (proj2 (cache_name_at_types _ _ _)). apply cache_name_at_types.
Qed.

(** With one set per name, a swap of two cached names that fit the name
    buffer succeeds and exchanges the two labels. *)
Lemma ipset_cache_swap_unique strncpy a b l :
  NoDup (names l) -> In a (names l) -> In b (names l)
  -> strncpy a = a -> strncpy b = b
  -> ipset_cache_swap strncpy a b l = (0, map (swap_label a b) l).
Proof.
  intros Hnd Ha Hb Hfa Hfb. rewrite ipset_cache_swap_positions.
  apply cache_position_In in Ha. apply cache_position_In in Hb.
  destruct Ha as [i Hi], Hb as [j Hj]. rewrite Hi, Hj, Hfa, Hfb.
  rewrite (@cache_name_at_swap a b l i j Hnd Hi Hj). reflexivity.
Qed.

Lemma strncpy_chars_idempotent n s :
  strncpy_chars n (strncpy_chars n s) = strncpy_chars n s.
Proof.
  revert s. induction n as [|n IH]; intros s; simpl; [reflexivity|].
  destruct s as [|c s]; simpl; [reflexivity|]. rewrite IH. reflexivity.
Qed.

Lemma name_copy_idempotent s : name_copy (name_copy s) = name_copy s.
Proof. apply strncpy_chars_idempotent. Qed.

(** ** The cache: one set per name *)

Section CacheInvariant.

Variable ipset_strncpy : string -> string.

(** A name copied into the buffer is copied unchanged from there. *)
Hypothesis ipset_strncpy_idempotent :
  forall s, ipset_strncpy (ipset_strncpy s) = ipset_strncpy s.

Lemma cache_ok_nil : cache_ok ipset_strncpy [].
Proof. split; constructor. Qed.

Lemma cache_ok_add m name type family l :
  ~ In (ipset_strncpy name) (names l) -> cache_ok ipset_strncpy l
  -> cache_ok ipset_strncpy (snd (ipset_cache_add ipset_strncpy m name type family l)).
Proof.
  intros Hfresh [Hnd Hfit].
  destruct (ipset_cache_add_cases ipset_strncpy m name type family l)
    as [E|[E|E]]; rewrite E; simpl; try (split; assumption).
  unfold cache_ok, names. rewrite map_app. simpl. split.
  - apply NoDup_app; [exact Hnd | repeat constructor; auto |].
    intros a Ha [Hb|[]]. subst. exact (Hfresh Ha).
  - apply Forall_app. split; [exact Hfit|]. repeat constructor.
    apply ipset_strncpy_idempotent.
Qed.

Lemma cache_ok_del name l :
  cache_ok ipset_strncpy l -> cache_ok ipset_strncpy (snd (ipset_cache_del name l)).
Proof.
  intros [Hnd Hfit]. destruct name as [name|]; simpl; [|apply cache_ok_nil].
  split; [apply cache_del_scan_NoDup; exact Hnd|].
  rewrite Forall_forall in *. intros x Hx.
  apply Hfit. apply (cache_del_scan_incl _ _ _ Hx).
Qed.

Lemma cache_ok_rename from to l :
  ~ In (ipset_strncpy to) (names l) -> cache_ok ipset_strncpy l
  -> cache_ok ipset_strncpy (snd (ipset_cache_rename ipset_strncpy from to l)).
Proof.
  intros Hfresh [Hnd Hfit]. split.
  - apply ipset_cache_rename_NoDup; assumption.
  - rewrite Forall_forall in *. intros x Hx.
    destruct (ipset_cache_rename_names _ _ _ _ _ Hx) as [H|H]; [auto|].
    subst. apply ipset_strncpy_idempotent.
Qed.

Lemma cache_ok_swap from to l :
  cache_ok ipset_strncpy l -> cache_ok ipset_strncpy (snd (ipset_cache_swap ipset_strncpy from to l)).
Proof.
  intros [Hnd Hfit].
  destruct (cache_position from l) as [i|] eqn:Ei;
    [destruct (cache_position to l) as [j|] eqn:Ej|];
    try (rewrite ipset_cache_swap_positions, Ei, ?Ej; split; assumption).
  assert (Hfrom : In from (names l)) by (apply cache_position_In; eauto).
  assert (Hto : In to (names l)) by (apply cache_position_In; eauto).
  rewrite Forall_forall in Hfit.
  rewrite ipset_cache_swap_unique by auto. simpl. split.
  - apply NoDup_swap_label. exact Hnd.
  - rewrite names_swap_label. rewrite Forall_forall. intros x Hx.
    apply in_map_iff in Hx. destruct Hx as [y [Hy Hin]]. subst x.
    unfold swap_string.
    destruct (STREQ y from); [auto|]. destruct (STREQ y to); auto.
Qed.

Lemma cache_ok_step op l :
  fresh_call ipset_strncpy op l = true -> cache_ok ipset_strncpy l
  -> cache_ok ipset_strncpy (snd (cache_step ipset_strncpy op l)).
Proof.
  destruct op as [m name type family|name|from to|from to]; simpl; intros Hf Hok.
  - apply cache_ok_add; [|exact Hok].
    apply cached_not_In. destruct (cached _ l); [discriminate|reflexivity].
  - apply cache_ok_del. exact Hok.
  - apply cache_ok_rename; [|exact Hok].
    apply cached_not_In. destruct (cached _ l); [discriminate|reflexivity].
  - apply cache_ok_swap. exact Hok.
Qed.

Lemma cache_ok_run ops l :
  fresh_run ipset_strncpy ops l = true -> cache_ok ipset_strncpy l
  -> cache_ok ipset_strncpy (cache_run ipset_strncpy ops l).
Proof.
  revert l. induction ops as [|op ops IH]; intros l Hf Hok; simpl in *.
  - exact Hok.
  - apply andb_true_iff in Hf. destruct Hf as [Hop Hrest].
    apply IH; [exact Hrest|]. apply cache_ok_step; assumption.
Qed.

End CacheInvariant.

(** ** The cache: the claims *)

(** The names [ipset_cache_add] refuses are exactly those carried by a
    node that has a successor: the last node of the list is never
    compared. *)
Lemma ipset_cache_add_EEXIST_iff strncpy name type family l :
  fst (ipset_cache_add strncpy true name type family l) = - EEXIST
  <-> In name (names (removelast l)).
Proof.
  unfold ipset_cache_add. simpl negb. cbv iota.
  destruct l as [|s rest].
  - simpl. split; [discriminate | tauto].
  - rewrite <- cache_add_scan_refuses
      with (n := mk_ipset (strncpy name) type family).
    destruct (cache_add_scan name _ s rest); simpl; split; intros H;
      try reflexivity; discriminate.
Qed.

(** C3 (code bug).  [ipset_cache_add("s1", T, family)] on the empty cache
    followed by the same call again: the second call returns 0 and the
    cache holds two sets named "s1", where the claim has the second call
    fail with [-EEXIST] and the cache keep one set. *)
Theorem ipset_cache_add_twice_accepted strncpy type family :
  let once := ipset_cache_add strncpy true "s1" type family [] in
  let twice := ipset_cache_add strncpy true "s1" type family (snd once) in
  once = (0, [mk_ipset (strncpy "s1") type family])
  /\ twice = (0, [mk_ipset (strncpy "s1") type family;
                  mk_ipset (strncpy "s1") type family])
  /\ length (snd twice) = 2%nat.
Proof. repeat split. Qed.

(** C10.  A cache call that returns [-EEXIST] (for [ipset_cache_del],
    [ipset_cache_rename] and [ipset_cache_swap]: a named set is absent)
    leaves the cache as it was. *)
Theorem cache_step_EEXIST_unchanged strncpy op l :
  fst (cache_step strncpy op l) = - EEXIST
  -> snd (cache_step strncpy op l) = l.
Proof.
  destruct op as [m name type family|name|from to|from to]; simpl; intros H.
  - destruct (ipset_cache_add_cases strncpy m name type family l)
      as [E|[E|E]]; rewrite E in *; simpl in *; try reflexivity; discriminate.
  - destruct name as [name|]; simpl in *; [|discriminate].
    destruct (cache_del_scan_cases name l) as [E|E]; rewrite E in *;
      [reflexivity | discriminate].
  - destruct (ipset_cache_rename_cases strncpy from to l) as [E|E];
      rewrite E in *; [reflexivity | discriminate].
  - rewrite ipset_cache_swap_positions in *.
    destruct (cache_position from l), (cache_position to l);
      simpl in *; try reflexivity; discriminate.
Qed.

Lemma cache_step_EEXIST_unchanged_witness :
  fst (cache_step name_copy (CacheSwap "a" "x")
         (cache_run name_copy fresh_calls [])) = - EEXIST
  /\ snd (cache_step name_copy (CacheSwap "a" "x")
            (cache_run name_copy fresh_calls []))
     = cache_run name_copy fresh_calls [].
Proof.
  split; [reflexivity|].
  apply (@cache_step_EEXIST_unchanged name_copy (CacheSwap "a" "x")).
  reflexivity.
Defined.

(** The absent name is what makes the three calls fail. *)
Lemma cache_absent_EEXIST strncpy name other l :
  ~ In name (names l)
  -> fst (ipset_cache_del (Some name) l) = - EEXIST
     /\ fst (ipset_cache_rename strncpy name other l) = - EEXIST
     /\ fst (ipset_cache_swap strncpy name other l) = - EEXIST
     /\ fst (ipset_cache_swap strncpy other name l) = - EEXIST.
Proof.
  intros Habs.
  assert (Hpos : cache_position name l = None).
  { destruct (cache_position name l) as [i|] eqn:E; [|reflexivity].
    exfalso. apply Habs. apply cache_position_In. eauto. }
  repeat split.
  - simpl. induction l as [|s rest IH]; simpl in *; [reflexivity|].
    destruct (STREQ (s_name s) name) eqn:E; streq; [tauto|].
    destruct (cache_position name rest); [discriminate|].
    destruct (cache_del_scan name rest). simpl in *. tauto.
  - induction l as [|s rest IH]; simpl in *; [reflexivity|].
    destruct (STREQ (s_name s) name) eqn:E; streq; [tauto|].
    destruct (cache_position name rest); [discriminate|].
    destruct (ipset_cache_rename strncpy name other rest). simpl in *. tauto.
  - rewrite ipset_cache_swap_positions, Hpos. reflexivity.
  - rewrite ipset_cache_swap_positions, Hpos.
    destruct (cache_position other l); reflexivity.
Qed.

(** C7, as stated, fails: two sets are added and the first is renamed to
    the name of the second; the rename is accepted and both sets are named
    "b". *)
Lemma cache_rename_onto_existing_name :
  names (cache_run name_copy rename_onto_existing []) = ["b"; "b"]
  /\ ~ NoDup (names (cache_run name_copy rename_onto_existing [])).
Proof.
  split; [reflexivity|].
  change (names (cache_run name_copy rename_onto_existing [])) with ["b"; "b"].
  intros H. inversion H as [|? ? Hnotin _]. apply Hnotin. left. reflexivity.
Qed.

(** C7 (amended).  From the empty cache, every run of cache calls in which
    each [ipset_cache_add] brings a name the cache does not hold and each
    [ipset_cache_rename] renames to a name the cache does not hold leaves
    at most one set per name. *)
Theorem cache_run_one_set_per_name strncpy ops :
  (forall s, strncpy (strncpy s) = strncpy s)
  -> fresh_run strncpy ops [] = true
  -> NoDup (names (cache_run strncpy ops [])).
Proof.
  intros Hidem Hfresh.
  apply (cache_ok_run strncpy Hidem ops [] Hfresh (cache_ok_nil strncpy)).
Qed.

Lemma cache_run_one_set_per_name_witness :
  fresh_run name_copy fresh_calls [] = true
  /\ NoDup (names (cache_run name_copy fresh_calls [])).
Proof.
  split; [reflexivity|].
  apply (@cache_run_one_set_per_name name_copy fresh_calls
           name_copy_idempotent).
  reflexivity.
Defined.

(** C8, as stated, fails: after three adds and a rename the cache holds
    sets named "a", "a", "b"; two swaps of "a" and "b" leave the names
    "a", "b", "a", so the second and the third set have exchanged their
    names for good. *)
Lemma cache_swap_twice_with_repeated_name :
  let l := cache_run name_copy two_sets_named_a [] in
  let twice := snd (ipset_cache_swap name_copy "a" "b"
                      (snd (ipset_cache_swap name_copy "a" "b" l))) in
  cached "a" l = true /\ cached "b" l = true
  /\ names l = ["a"; "a"; "b"]
  /\ names twice = ["a"; "b"; "a"]
  /\ twice <> l.
Proof.
  repeat split. intros H. apply (f_equal names) in H. discriminate H.
Qed.

(** C8 (amended).  Whatever the cache, [ipset_cache_swap(a, b)] leaves the
    type and the family of every set where they were, the first time and
    the second.  In a cache with one set per name that holds sets named
    [a] and [b], [ipset_cache_swap(a, b)] succeeds and exchanges the two
    name labels, and a second [ipset_cache_swap(a, b)] succeeds and
    restores the cache. *)
Theorem ipset_cache_swap_involution strncpy a b l :
  let once := ipset_cache_swap strncpy a b l in
  let twice := ipset_cache_swap strncpy a b (snd once) in
  map s_type (snd once) = map s_type l
  /\ map s_family (snd once) = map s_family l
  /\ map s_type (snd twice) = map s_type l
  /\ map s_family (snd twice) = map s_family l
  /\ (cache_ok strncpy l -> In a (names l) -> In b (names l)
      -> once = (0, map (swap_label a b) l) /\ twice = (0, l)).
Proof.
  intros once twice.
  destruct (ipset_cache_swap_types strncpy a b l) as [Ht1 Hf1].
  destruct (ipset_cache_swap_types strncpy a b (snd once)) as [Ht2 Hf2].
  fold once in Ht1, Hf1. fold twice in Ht2, Hf2.
  split; [exact Ht1|]. split; [exact Hf1|].
  split; [rewrite Ht2; exact Ht1|]. split; [rewrite Hf2; exact Hf1|].
  intros [Hnd Hfit] Ha Hb.
  assert (Hfa : strncpy a = a) by (rewrite Forall_forall in Hfit; auto).
  assert (Hfb : strncpy b = b) by (rewrite Forall_forall in Hfit; auto).
  assert (Honce : once = (0, map (swap_label a b) l))
    by (apply ipset_cache_swap_unique; assumption).
  split; [exact Honce|].
  unfold twice. rewrite Honce. simpl snd.
  rewrite ipset_cache_swap_unique; try assumption.
  - f_equal. rewrite map_map. rewrite <- (map_id l) at 2.
    apply map_ext. apply swap_label_involutive.
  - apply NoDup_swap_label. exact Hnd.
  - rewrite names_swap_label. apply in_map_iff. exists b. split; [|exact Hb].
    unfold swap_string. destruct (STREQ b a) eqn:E; streq; [congruence|].
    rewrite STREQ_refl. reflexivity.
  - rewrite names_swap_label. apply in_map_iff. exists a. split; [|exact Ha].
    unfold swap_string. rewrite STREQ_refl. reflexivity.
Qed.

Lemma cache_ok_fresh_calls :
  cache_ok name_copy (cache_run name_copy fresh_calls []).
Proof.
  apply (cache_ok_run name_copy name_copy_idempotent fresh_calls);
    [reflexivity | apply cache_ok_nil].
Defined.

Lemma ipset_cache_swap_involution_witness :
  let l := cache_run name_copy fresh_calls [] in
  In "c" (names l) /\ In "b" (names l)
  /\ ipset_cache_swap name_copy "c" "b"
       (snd (ipset_cache_swap name_copy "c" "b" l)) = (0, l).
Proof.
  assert (Hc : In "c" (names (cache_run name_copy fresh_calls [])))
    by (simpl; auto).
  assert (Hb : In "b" (names (cache_run name_copy fresh_calls [])))
    by (simpl; auto).
  split; [exact Hc|]. split; [exact Hb|].
  exact (proj2 (proj2 (proj2 (proj2 (proj2
           (ipset_cache_swap_involution name_copy "c" "b"
              (cache_run name_copy fresh_calls [])))))
           cache_ok_fresh_calls Hc Hb)).
Defined.

(** ** The registry *)

Section RegistryFacts.

Variable IPSET_OPT_MAX : nat.
Variable IPSET_FLAG : nat -> Z.
Variable IPSET_ADT_FLAGS : Z.
Variable ipset_data_sizeof : nat -> Z -> Z.

Local Abbreviation max_size_of :=
  (type_max_size IPSET_OPT_MAX IPSET_FLAG IPSET_ADT_FLAGS ipset_data_sizeof).
Local Abbreviation fill_sizes :=
  (type_fill_max_sizes IPSET_OPT_MAX IPSET_FLAG IPSET_ADT_FLAGS ipset_data_sizeof).
Local Abbreviation type_add :=
  (ipset_type_add IPSET_OPT_MAX IPSET_FLAG IPSET_ADT_FLAGS ipset_data_sizeof).

(** Filling in the sizes leaves name, aliases, revision, family and kernel
    check as they are. *)
Lemma type_max_size_fields type family :
  let type' := max_size_of type family in
  t_name type' = t_name type /\ t_alias type' = t_alias type
  /\ t_revision type' = t_revision type /\ t_family type' = t_family type
  /\ t_kernel_check type' = t_kernel_check type.
Proof.
  unfold type_max_size. destruct (family =? AF_INET); simpl; auto.
Qed.

Lemma type_fill_max_sizes_fields type type' :
  fill_sizes type = Some type'
  -> t_name type' = t_name type /\ t_alias type' = t_alias type
     /\ t_revision type' = t_revision type /\ t_family type' = t_family type
     /\ t_kernel_check type' = t_kernel_check type.
Proof.
  unfold type_fill_max_sizes. intros H.
  destruct ((t_family type =? AF_UNSPEC) || (t_family type =? AF_INET)).
  - inversion H. apply type_max_size_fields.
  - destruct (t_family type =? AF_INET6).
    + inversion H. apply type_max_size_fields.
    + destruct (t_family type =? AF_INET46); [|discriminate].
      inversion H.
      destruct (type_max_size_fields (max_size_of type AF_INET) AF_INET6)
        as (F1 & F2 & F3 & F4 & F5).
      destruct (type_max_size_fields type AF_INET) as (G1 & G2 & G3 & G4 & G5).
      repeat split; congruence.
Qed.

Lemma type_fill_max_sizes_valid type :
  valid_family (t_family type) = true
  -> exists type', fill_sizes type = Some type'.
Proof.
  unfold valid_family, type_fill_max_sizes. intros H.
  destruct (t_family type =? AF_UNSPEC), (t_family type =? AF_INET),
    (t_family type =? AF_INET6), (t_family type =? AF_INET46);
    simpl in *; try discriminate; eauto.
Qed.

Lemma strictly_descending_tail x l :
  strictly_descending (x :: l) = true -> strictly_descending l = true.
Proof.
  simpl. destruct l as [|y l]; [reflexivity|].
  intros H. apply andb_true_iff in H. apply H.
Qed.

Lemma strictly_descending_head x l y :
  strictly_descending (x :: l) = true -> In y l -> y < x.
Proof.
  revert x. induction l as [|z l IH]; intros x H Hin; [destruct Hin|].
  simpl in H. apply andb_true_iff in H. destruct H as [Hzx Hrest].
  apply Z.ltb_lt in Hzx. destruct Hin as [Heq|Hin]; [lia|].
  specialize (IH z Hrest Hin). lia.
Qed.

(** One turn of the insertion loop: when the rest of the list already ends
    in [EEXIST] and the node at hand is not a lower revision of the same
    name, the loop ends in [EEXIST]. *)
Lemma type_add_scan_cons_exists type t rest :
  type_add_scan type rest = Scan_exists
  -> (STREQ (t_name t) (t_name type) = true
      -> (t_revision t <? t_revision type) = false
         \/ (t_revision t =? t_revision type) = true)
  -> type_add_scan type (t :: rest) = Scan_exists.
Proof.
  intros Hrest Hhead.
  assert (Hlook :
    match rest with
    | n :: _ =>
        if STREQ (t_name n) (t_name type) then
          if t_revision n =? t_revision type then Scan_exists
          else if t_revision n <? t_revision type
               then Scan_inserted (t :: type :: rest)
               else Scan_exists
        else Scan_exists
    | [] => Scan_exists
    end = Scan_exists).
  { destruct rest as [|n rest']; [reflexivity|].
    simpl in Hrest.
    destruct (STREQ (t_name n) (t_name type)); [|reflexivity].
    destruct (t_revision n =? t_revision type); [reflexivity|].
    destruct (t_revision n <? t_revision type); [discriminate|reflexivity]. }
  change (type_add_scan type (t :: rest)) with
    (let continue_ :=
       match type_add_scan type rest with
       | Scan_inserted r => Scan_inserted (t :: r)
       | other => other
       end in
     let look_ahead :=
       match rest with
       | n :: _ =>
           if STREQ (t_name n) (t_name type) then
             if t_revision n =? t_revision type then Scan_exists
             else if t_revision n <? t_revision type
                  then Scan_inserted (t :: type :: rest)
                  else continue_
           else continue_
       | [] => continue_
       end in
     if STREQ (t_name t) (t_name type) then
       if t_revision t =? t_revision type then Scan_exists
       else if t_revision t <? t_revision type
            then Scan_inserted (type :: t :: rest)
            else look_ahead
     else look_ahead).
  cbv zeta. rewrite Hrest.
  destruct (STREQ (t_name t) (t_name type)); [|exact Hlook].
  destruct (t_revision t =? t_revision type); [reflexivity|].
  destruct (Hhead eq_refl) as [Hlt|Heq]; [|discriminate].
  rewrite Hlt. exact Hlook.
Qed.

(** Where the revisions of a name are listed in strictly descending order,
    the insertion loop finds every revision that is already there. *)
Lemma type_add_scan_descending_exists type l :
  strictly_descending (revisions_of (t_name type) l) = true
  -> (exists t, In t l /\ t_name t = t_name type
                /\ t_revision t = t_revision type)
  -> type_add_scan type l = Scan_exists.
Proof.
  induction l as [|t rest IH]; intros Hdesc [d [Hin [Hname Hrev]]];
    [destruct Hin|].
  destruct Hin as [Heq|Hin].
  - subst d. simpl. rewrite Hname, STREQ_refl.
    rewrite (proj2 (Z.eqb_eq _ _) Hrev). reflexivity.
  - unfold revisions_of in Hdesc. simpl in Hdesc.
    apply type_add_scan_cons_exists.
    + apply IH; [|exists d; auto].
      destruct (STREQ (t_name t) (t_name type)); [|exact Hdesc].
      simpl map in Hdesc. apply (@strictly_descending_tail _ _ Hdesc).
    + intros Hsame. left. rewrite Hsame in Hdesc. simpl map in Hdesc.
      apply Z.ltb_ge. rewrite <- Hrev.
      apply Z.lt_le_incl. apply (@strictly_descending_head _ _ _ Hdesc).
      apply in_map. apply filter_In. split; [exact Hin|].
      rewrite Hname. apply STREQ_refl.
Qed.

(** On a registry whose same-named revisions are strictly descending,
    registering a name and revision that is already there fails with
    [EEXIST] and leaves the registry as it was. *)
Lemma ipset_type_add_descending_EEXIST type l :
  valid_family (t_family type) = true
  -> strictly_descending (revisions_of (t_name type) l) = true
  -> (exists t, In t l /\ t_name t = t_name type
                /\ t_revision t = t_revision type)
  -> type_add type l = (Type_EEXIST, l).
Proof.
  intros Hfam Hdesc [d [Hin [Hname Hrev]]].
  unfold ipset_type_add.
  destruct (type_fill_max_sizes_valid type Hfam) as [type' Hfill].
  rewrite Hfill.
  destruct (type_fill_max_sizes_fields _ _ Hfill) as (Fn & _ & Fr & _ & _).
  rewrite type_add_scan_descending_exists; [reflexivity| |].
  - rewrite Fn. exact Hdesc.
  - exists d. rewrite Fn, Fr. auto.
Qed.

End RegistryFacts.

(** ** The registry: the claims *)

Section RegistryClaims.

Variable IPSET_OPT_MAX : nat.
Variable IPSET_FLAG : nat -> Z.
Variable IPSET_ADT_FLAGS : Z.
Variable ipset_data_sizeof : nat -> Z -> Z.

Local Abbreviation type_add :=
  (ipset_type_add IPSET_OPT_MAX IPSET_FLAG IPSET_ADT_FLAGS ipset_data_sizeof).
Local Abbreviation register :=
  (register_all IPSET_OPT_MAX IPSET_FLAG IPSET_ADT_FLAGS ipset_data_sizeof).
Local Abbreviation sized :=
  (type_max_size IPSET_OPT_MAX IPSET_FLAG IPSET_ADT_FLAGS ipset_data_sizeof).

(** Revision 5 of a name is registered, then revision 3. *)
Lemma register_5_then_3 name family :
  family = AF_INET \/ family = AF_INET6
  -> register [sample_type name 5 family; sample_type name 3 family] []
     = [sized (sample_type name 3 family) family;
        sized (sample_type name 5 family) family].
Proof.
  intros [Hf|Hf]; subst family; unfold register_all, ipset_type_add,
    type_fill_max_sizes; simpl; rewrite STREQ_refl; reflexivity.
Qed.

(** Revision 3 of a name is registered, then revision 5. *)
Lemma register_3_then_5 name family :
  family = AF_INET \/ family = AF_INET6
  -> register [sample_type name 3 family; sample_type name 5 family] []
     = [sized (sample_type name 5 family) family;
        sized (sample_type name 3 family) family].
Proof.
  intros [Hf|Hf]; subst family; unfold register_all, ipset_type_add,
    type_fill_max_sizes; simpl; rewrite STREQ_refl; reflexivity.
Qed.

(** C2 (code bug).  [ipset_type_add] of revision 5 of a name and then of
    revision 3 of the same name leaves the registry with revision 3 in
    front of revision 5: the lower revision, finding no lower one to go in
    front of, is put at the head of the list.  The claim has the revisions
    of a name in strictly descending order after any such sequence. *)
Theorem register_lower_revision_goes_first name :
  let typelist :=
    register [sample_type name 5 AF_INET; sample_type name 3 AF_INET] [] in
  map t_name typelist = [name; name]
  /\ map t_revision typelist = [3; 5]
  /\ revisions_of name typelist = [3; 5]
  /\ strictly_descending (revisions_of name typelist) = false.
Proof.
  cbv zeta. rewrite register_5_then_3 by auto.
  unfold revisions_of. simpl. rewrite STREQ_refl. simpl. repeat split.
Qed.

(** C5 (code bug).  With revision 5 and then revision 3 of a name
    registered, [ipset_type_add] of revision 5 of that name again returns
    0 and the registry holds one descriptor more, revision 5 twice.  The
    claim has the call fail and the registry unchanged. *)
Theorem register_duplicate_revision_accepted name :
  let typelist :=
    register [sample_type name 5 AF_INET; sample_type name 3 AF_INET] [] in
  let again := type_add (sample_type name 5 AF_INET) typelist in
  (exists t, In t typelist /\ t_name t = name /\ t_revision t = 5)
  /\ fst again = Type_added
  /\ map t_name (snd again) = [name; name; name]
  /\ map t_revision (snd again) = [5; 3; 5]
  /\ length (snd again) = S (length typelist).
Proof.
  cbv zeta. rewrite register_5_then_3 by auto. split.
  - exists (sized (sample_type name 5 AF_INET) AF_INET).
    split; [right; left; reflexivity | split; reflexivity].
  - unfold ipset_type_add, type_fill_max_sizes. simpl.
    rewrite STREQ_refl. simpl. repeat split.
Qed.

End RegistryClaims.

(** ** The resolver: the scan of [create_type_get] *)

Lemma MAX_max a b : MAX a b = Z.max a b.
Proof. unfold MAX. destruct (Z.gtb_spec a b); lia. Qed.

Lemma MIN_min a b : MIN a b = Z.min a b.
Proof. unfold MIN. destruct (Z.ltb_spec a b); lia. Qed.

Lemma kernel_check_eqb_eq a b : kernel_check_eqb a b = true <-> a = b.
Proof. destruct a, b; simpl; split; intros H; try reflexivity; discriminate. Qed.

Lemma kernel_check_eqb_neq a b : kernel_check_eqb a b = false <-> a <> b.
Proof.
  destruct a, b; simpl; split; intros H; try reflexivity; try discriminate;
    exfalso; apply H; reflexivity.
Qed.

(** Once a match is held, the scan keeps it and its revision. *)
Lemma create_scan_keeps_match typename family l i j mt tmin tmax :
  exists tmin',
    create_scan typename family l i (Some (j, mt)) tmin tmax
    = (Some (j, mt), tmin', tmax).
Proof.
  revert i tmin. induction l as [|t rest IH]; intros i tmin; simpl.
  - eauto.
  - destruct (kernel_check_eqb (t_kernel_check t) IPSET_KERNEL_MISMATCH); [apply IH|].
    destruct (ipset_match_typename typename t && MATCH_FAMILY t family); [|apply IH].
    destruct (t_family t =? t_family mt); apply IH.
Qed.

(** The match of a scan is the node at its position, and [tmax] is its
    revision. *)
Lemma create_scan_match typename family l i tmin tmax j best tmin' tmax' :
  create_scan typename family l i None tmin tmax = (Some (j, best), tmin', tmax')
  -> tmax' = t_revision best
     /\ (i <= j)%nat /\ nth_error l (j - i) = Some best
     /\ t_kernel_check best <> IPSET_KERNEL_MISMATCH
     /\ ipset_match_typename typename best = true
     /\ MATCH_FAMILY best family = true.
Proof.
  revert i. induction l as [|t rest IH]; intros i H; simpl in H; [discriminate|].
  assert (Hnext : create_scan typename family rest (S i) None tmin tmax
                  = (Some (j, best), tmin', tmax')
                  -> tmax' = t_revision best
                     /\ (i <= j)%nat /\ nth_error (t :: rest) (j - i) = Some best
                     /\ t_kernel_check best <> IPSET_KERNEL_MISMATCH
                     /\ ipset_match_typename typename best = true
                     /\ MATCH_FAMILY best family = true).
  { intros H'. destruct (IH _ H') as (H1 & H2 & H3 & H4).
    repeat split; try tauto; try lia.
    replace (j - i)%nat with (S (j - S i)) by lia. exact H3. }
  destruct (kernel_check_eqb (t_kernel_check t) IPSET_KERNEL_MISMATCH) eqn:Ek;
    [auto|].
  destruct (ipset_match_typename typename t) eqn:En; simpl in H; [|auto].
  destruct (MATCH_FAMILY t family) eqn:Ef; [|auto].
  destruct (create_scan_keeps_match typename family rest (S i) i t tmin
              (t_revision t)) as [tmin'' E].
  rewrite E in H. inversion H. subst.
  rewrite Nat.sub_diag. simpl. apply kernel_check_eqb_neq in Ek.
  repeat split; auto.
Qed.

(** Where no registered type passes the name and family test, the scan
    leaves its locals as they were. *)
Lemma create_scan_no_match typename family l i m tmin tmax :
  (forall t, In t l
             -> ipset_match_typename typename t && MATCH_FAMILY t family = false)
  -> create_scan typename family l i m tmin tmax = (m, tmin, tmax).
Proof.
  revert i. induction l as [|t rest IH]; intros i H; simpl; [reflexivity|].
  rewrite (H t) by (left; reflexivity).
  destruct (kernel_check_eqb (t_kernel_check t) IPSET_KERNEL_MISMATCH);
    apply IH; intros t' Ht'; apply H; right; exact Ht'.
Qed.

Lemma type_set_at_nth i t l old :
  nth_error l i = Some old -> nth_error (type_set_at i t l) i = Some t.
Proof.
  revert i. induction l as [|x rest IH]; intros i H.
  - destruct i; discriminate.
  - destruct i as [|i]; simpl in *; [reflexivity|]. apply IH. exact H.
Qed.

Lemma last_cons (x d : Z) (l : list Z) : last (x :: l) d = last l x.
Proof.
  revert x d. induction l as [|y l IH]; intros x d; [reflexivity|].
  change (last (x :: y :: l) d) with (last (y :: l) d).
  rewrite (IH y d), (IH y x). reflexivity.
Qed.

(** With a match held, [tmin] ends as the revision of the last candidate
    of the family of the match. *)
Lemma create_scan_tmin typename family l i j mt tmin tmax :
  create_scan typename family l i (Some (j, mt)) tmin tmax
  = (Some (j, mt), last (same_family_revisions typename family mt l) tmin, tmax).
Proof.
  revert i tmin. unfold same_family_revisions, create_candidate.
  induction l as [|t rest IH]; intros i tmin; simpl; [reflexivity|].
  destruct (kernel_check_eqb (t_kernel_check t) IPSET_KERNEL_MISMATCH);
    simpl; [apply IH|].
  destruct (ipset_match_typename typename t && MATCH_FAMILY t family);
    simpl; [|apply IH].
  destruct (t_family t =? t_family mt); simpl map; [|apply IH].
  rewrite last_cons. apply IH.
Qed.

(** What the scan of [create_type_get] computes: the best match is the
    first candidate in list order, [tmax] is its revision, and [tmin] is
    the revision of the last later candidate of the same family, or 0
    where there is none. *)
Lemma create_scan_result typename family l i best tmin tmax :
  create_scan typename family l 0 None 0 0 = (Some (i, best), tmin, tmax)
  -> exists pre post,
       l = pre ++ best :: post /\ length pre = i
       /\ forallb (fun t => negb (create_candidate typename family t)) pre = true
       /\ create_candidate typename family best = true
       /\ tmax = t_revision best
       /\ tmin = last (same_family_revisions typename family best post) 0.
Proof.
  assert (G : forall k,
    create_scan typename family l k None 0 0 = (Some (i, best), tmin, tmax)
    -> exists pre post,
         l = pre ++ best :: post /\ (k + length pre)%nat = i
         /\ forallb (fun t => negb (create_candidate typename family t)) pre = true
         /\ create_candidate typename family best = true
         /\ tmax = t_revision best
         /\ tmin = last (same_family_revisions typename family best post) 0).
  { unfold create_candidate.
    induction l as [|t rest IH]; intros k H; simpl in H; [discriminate|].
    assert (Hskip :
      create_candidate typename family t = false
      -> create_scan typename family rest (S k) None 0 0
         = (Some (i, best), tmin, tmax)
      -> exists pre post,
           t :: rest = pre ++ best :: post /\ (k + length pre)%nat = i
           /\ forallb (fun t => negb (create_candidate typename family t)) pre
              = true
           /\ create_candidate typename family best = true
           /\ tmax = t_revision best
           /\ tmin = last (same_family_revisions typename family best post) 0).
    { intros Ht H'. destruct (IH _ H') as (pre & post & E & Hlen & Hpre & Hrest).
      exists (t :: pre), post. subst rest. simpl.
      rewrite Ht. simpl. repeat split; try tauto. lia. }
    unfold create_candidate in Hskip.
    destruct (kernel_check_eqb (t_kernel_check t) IPSET_KERNEL_MISMATCH)
      eqn:Ek; simpl in Hskip; [auto|].
    destruct (ipset_match_typename typename t && MATCH_FAMILY t family) eqn:Et;
      simpl in Hskip; [|auto].
    rewrite create_scan_tmin in H. inversion H. subst.
    exists [], rest. simpl. unfold create_candidate.
    repeat split; try reflexivity; try lia.
    rewrite Ek, Et. reflexivity. }
  intros H. destruct (G 0%nat H) as (pre & post & Hrest).
  exists pre, post. exact Hrest.
Qed.

(** Three revisions of one type: [tmin] is the lowest of them.  One
    revision: [tmin] stays 0. *)
Example create_scan_three_revisions :
  create_scan "hash:ip" AF_INET
    [sample_type "hash:ip" 7 AF_INET; sample_type "hash:ip" 5 AF_INET;
     sample_type "hash:ip" 3 AF_INET] 0 None 0 0
  = (Some (0%nat, sample_type "hash:ip" 7 AF_INET), 3, 7).
Proof. reflexivity. Qed.

Example create_scan_one_revision :
  create_scan "hash:ip" AF_INET [sample_type "hash:ip" 5 AF_INET] 0 None 0 0
  = (Some (0%nat, sample_type "hash:ip" 5 AF_INET), 0, 5).
Proof. reflexivity. Qed.

(** ** The resolver: [create_type_get] after the scan *)

Section CreateFacts.

Variable ipset_cmd : cmd -> ipset_data -> Z * ipset_data.

(** With a match that is not yet known to the kernel and a kernel that
    answers, [create_type_get] is decided by the overlap test alone. *)
Lemma create_type_get_checked w typename i best tmin tmax okmin kmax :
  d_typename (w_data w) = Some typename
  -> create_scan typename (d_family (w_data w)) (w_typelist w) 0 None 0 0
     = (Some (i, best), tmin, tmax)
  -> t_kernel_check best <> IPSET_KERNEL_OK
  -> kernel_reports ipset_cmd okmin kmax
  -> let kmin := match okmin with Some kmin => kmin | None => kmax end in
     let family :=
       if family_unset best (d_family (w_data w)) then family_of_match best
       else d_family (w_data w) in
     let r := create_type_get ipset_cmd w in
     fst r = (if MAX tmin kmin >? MIN tmax kmax then
                if kmin >? tmax then Err_upgrade_library family kmin tmax
                else Err_upgrade_kernel family kmax tmin
              else Type_found (set_kernel_check best IPSET_KERNEL_OK))
     /\ w_typelist (snd r)
        = (if MAX tmin kmin >? MIN tmax kmax then w_typelist w
           else type_set_at i (set_kernel_check best IPSET_KERNEL_OK)
                  (w_typelist w))
     /\ w_sent (snd r) = IPSET_CMD_TYPE :: w_sent w.
Proof.
  intros Hname Hscan Hcheck Hkernel kmin family r.
  unfold r, create_type_get. rewrite Hname, Hscan.
  apply kernel_check_eqb_neq in Hcheck. rewrite Hcheck.
  set (w1 := if family_unset best (d_family (w_data w))
             then with_data w _ else w).
  assert (Hw1 : w_typelist w1 = w_typelist w /\ w_sent w1 = w_sent w).
  { unfold w1. destruct (family_unset best (d_family (w_data w))); auto. }
  destruct Hw1 as [Htl Hsent].
  unfold send. destruct (Hkernel (w_data w1)) as (Hret & Hmax & Hmin).
  destruct (ipset_cmd IPSET_CMD_TYPE (w_data w1)) as [ret data2].
  simpl in Hret, Hmax, Hmin. subst ret. simpl negb. cbv iota.
  simpl w_data. rewrite Hmax, Hmin. fold kmin. fold family.
  destruct (MAX tmin kmin >? MIN tmax kmax).
  - destruct (kmin >? tmax); simpl; rewrite Htl, Hsent; auto.
  - simpl. rewrite Htl, Hsent. auto.
Qed.

End CreateFacts.

(** ** The resolver: the claims on [create_type_get] *)

Lemma kernel_range_reports kmin kmax :
  kernel_reports (kernel_range kmin kmax) (Some kmin) kmax.
Proof. intros d. repeat split. Defined.

Lemma kernel_revision_reports k :
  kernel_reports (kernel_revision k) None k.
Proof. intros d. repeat split. Defined.

(** Revisions 5 and 3 of a type registered in the order 5, then 3, leave
    revision 3 in front: it is taken as the best match with [tmax = 3] and
    [tmin = 5], and the kernel that supports 4 to 6 is refused. *)
Lemma create_type_get_after_5_then_3 IPSET_OPT_MAX IPSET_FLAG IPSET_ADT_FLAGS
    ipset_data_sizeof name :
  let typelist :=
    register_all IPSET_OPT_MAX IPSET_FLAG IPSET_ADT_FLAGS ipset_data_sizeof
      [sample_type name 5 AF_INET; sample_type name 3 AF_INET] [] in
  fst (create_type_get (kernel_range 4 6) (create_session name AF_INET typelist))
  = Err_upgrade_library AF_INET 4 3.
Proof.
  cbv zeta. rewrite register_5_then_3 by auto.
  unfold create_type_get, create_session. simpl.
  unfold ipset_match_typename. simpl. rewrite !STREQ_refl. reflexivity.
Qed.

(** C6.  Where no registered descriptor passes the name-or-alias and
    family test for the session's type name and family, [create_type_get]
    fails with the "unknown settype" error and nothing is handed to
    [ipset_cmd]: the session, the registry and the list of commands sent
    are as before, whatever the kernel would have answered. *)
Theorem create_type_get_unknown_settype ipset_cmd w typename :
  d_typename (w_data w) = Some typename
  -> (forall t, In t (w_typelist w)
                -> ipset_match_typename typename t
                   && MATCH_FAMILY t (d_family (w_data w)) = false)
  -> create_type_get ipset_cmd w = (Err_unknown_settype, w)
     /\ w_sent (snd (create_type_get ipset_cmd w)) = w_sent w.
Proof.
  intros Hname Hnone.
  assert (E : create_type_get ipset_cmd w = (Err_unknown_settype, w)).
  { unfold create_type_get. rewrite Hname.
    rewrite create_scan_no_match by exact Hnone. reflexivity. }
  rewrite E. split; reflexivity.
Qed.

Lemma create_type_get_unknown_settype_witness :
  let w := create_session "hash:net" AF_INET6
             [sample_type "hash:ip" 5 AF_INET; sample_type "hash:net" 3 AF_INET] in
  create_type_get (kernel_range 0 9) w = (Err_unknown_settype, w)
  /\ w_sent (snd (create_type_get (kernel_range 0 9) w)) = w_sent w.
Proof.
  apply (@create_type_get_unknown_settype (kernel_range 0 9) _ "hash:net").
  - reflexivity.
  - intros t [Ht|[Ht|[]]]; subst t; reflexivity.
Defined.

(** C9.  When the kernel's reply holds a revision and no minimum, the
    minimum is the revision itself: [create_type_get] ends as it does
    against a kernel that reports that revision as both bounds, and it
    succeeds if and only if the revision lies between [tmin] and the
    revision of the best match. *)
Theorem create_type_get_single_revision ipset_cmd w typename i best tmin tmax k :
  d_typename (w_data w) = Some typename
  -> create_scan typename (d_family (w_data w)) (w_typelist w) 0 None 0 0
     = (Some (i, best), tmin, tmax)
  -> t_kernel_check best <> IPSET_KERNEL_OK
  -> kernel_reports ipset_cmd None k
  -> let r := create_type_get ipset_cmd w in
     (is_found (fst r) = true <-> tmin <= k <= t_revision best)
     /\ (forall ipset_cmd',
            kernel_reports ipset_cmd' (Some k) k
            -> fst r = fst (create_type_get ipset_cmd' w)
               /\ w_typelist (snd r)
                  = w_typelist (snd (create_type_get ipset_cmd' w))).
Proof.
  intros Hname Hscan Hcheck Hkernel r.
  destruct (create_type_get_checked ipset_cmd w typename i best tmin tmax
              None k Hname Hscan Hcheck Hkernel) as (Hfst & Htl & _).
  destruct (create_scan_match _ _ _ _ _ _ _ _ _ _ Hscan) as (Hmax & _).
  fold r in Hfst, Htl. split.
  - rewrite Hfst, MAX_max, MIN_min, <- Hmax.
    destruct (Z.gtb_spec (Z.max tmin k) (Z.min tmax k)) as [Hgt|Hle].
    + destruct (k >? tmax); simpl; split; try discriminate; lia.
    + simpl. split; [intros _; lia | reflexivity].
  - intros ipset_cmd' Hkernel'.
    destruct (create_type_get_checked ipset_cmd' w typename i best tmin tmax
                (Some k) k Hname Hscan Hcheck Hkernel')
      as (Hfst' & Htl' & _).
    rewrite Hfst, Htl, Hfst', Htl'. split; reflexivity.
Qed.

Lemma create_type_get_single_revision_witness :
  let w := create_session "hash:ip" AF_INET
             [sample_type "hash:ip" 5 AF_INET; sample_type "hash:ip" 3 AF_INET] in
  kernel_reports (kernel_revision 4) None 4
  /\ (is_found (fst (create_type_get (kernel_revision 4) w)) = true
      <-> 3 <= 4 <= 5).
Proof.
  split; [apply kernel_revision_reports|].
  refine (proj1 (@create_type_get_single_revision (kernel_revision 4)
                   (create_session "hash:ip" AF_INET
                      [sample_type "hash:ip" 5 AF_INET;
                       sample_type "hash:ip" 3 AF_INET])
                   "hash:ip" 0%nat (sample_type "hash:ip" 5 AF_INET)
                   3 5 4 eq_refl eq_refl _ (kernel_revision_reports 4))).
  simpl. discriminate.
Defined.

(** ** The resolver: the claims on [adt_type_get] *)

(** The scan stops at the first descriptor that passes its test and marks
    that one. *)
Lemma adt_scan_first typename family revision pre t post :
  forallb (fun x => negb (adt_candidate typename family revision x)) pre = true
  -> adt_candidate typename family revision t = true
  -> adt_scan typename family revision (pre ++ t :: post)
     = Some (set_kernel_check t IPSET_KERNEL_OK,
             pre ++ set_kernel_check t IPSET_KERNEL_OK :: post).
Proof.
  unfold adt_candidate. intros Hpre Ht.
  induction pre as [|x pre IH]; simpl in *.
  - apply andb_true_iff in Ht. destruct Ht as [Hk Htest].
    destruct (kernel_check_eqb (t_kernel_check t) IPSET_KERNEL_MISMATCH);
      [discriminate|].
    rewrite Htest. reflexivity.
  - apply andb_true_iff in Hpre. destruct Hpre as [Hx Hpre].
    rewrite (IH Hpre).
    destruct (kernel_check_eqb (t_kernel_check x) IPSET_KERNEL_MISMATCH);
      [reflexivity|].
    simpl in Hx. apply negb_true_iff in Hx. rewrite Hx. reflexivity.
Qed.

Lemma adt_scan_none typename family revision l :
  (forall t, In t l -> adt_candidate typename family revision t = false)
  -> adt_scan typename family revision l = None.
Proof.
  unfold adt_candidate. induction l as [|t rest IH]; intros H; simpl;
    [reflexivity|].
  rewrite IH by (intros t' Ht'; apply H; right; exact Ht').
  pose proof (H t (or_introl eq_refl)) as Ht.
  destruct (kernel_check_eqb (t_kernel_check t) IPSET_KERNEL_MISMATCH);
    [reflexivity|].
  simpl in Ht. rewrite Ht. reflexivity.
Qed.

(** A descriptor that passes the test of the scan qualifies by name or
    alias as well. *)
Lemma adt_candidate_named typename family revision t :
  adt_candidate typename family revision t = true
  -> named_candidate typename family revision t = true.
Proof.
  unfold adt_candidate, named_candidate, ipset_match_typename.
  intros H. apply andb_true_iff in H. destruct H as [_ H].
  destruct (STREQ typename (t_name t)); [exact H | discriminate].
Qed.

(** After a miss in the cache and a report of the kernel, [adt_type_get]
    is its scan of the registry. *)
Lemma adt_type_get_on_miss ipset_cmd stack_family w setname typename family
    revision :
  d_setname (w_data w) = Some setname
  -> cache_lookup setname (w_setlist w) = None
  -> kernel_header_reports ipset_cmd typename family revision
  -> adt_type_get ipset_cmd stack_family w
     = let w2 := snd (send ipset_cmd IPSET_CMD_HEADER w) in
       match adt_scan typename family revision (w_typelist w) with
       | None => (Err_kernel_library family revision, w2)
       | Some (match_, l) =>
           (Type_found match_,
            with_data (with_typelist w2 l)
              (set_family_and_type (w_data w2) match_ family))
       end.
Proof.
  intros Hset Hmiss Hkernel.
  unfold adt_type_get. rewrite Hset, Hmiss. unfold send.
  destruct (Hkernel (w_data w)) as (Hret & Hname & Hfam & Hrev).
  destruct (ipset_cmd IPSET_CMD_HEADER (w_data w)) as [ret data2].
  simpl in Hret, Hname, Hfam, Hrev. subst ret. simpl.
  rewrite Hname, Hrev, Hfam.
  destruct (adt_scan typename family revision (w_typelist w)) as [[m l]|];
    reflexivity.
Qed.

(** X27.  In [adt_type_get], once the set is not in the cache and the
    kernel has reported type name, family and revision: the first
    descriptor, in registry order, that is not marked
    [IPSET_KERNEL_MISMATCH], whose canonical name is the reported type
    name, whose family matches and whose revision is the reported one is
    returned, and it is marked [IPSET_KERNEL_OK] with the rest of the
    registry untouched; where no descriptor passes that test, the call
    fails with the "Kernel-library incompatibility" error and the registry
    is untouched. *)
Theorem adt_type_get_first_exact_match ipset_cmd stack_family w setname
    typename family revision :
  d_setname (w_data w) = Some setname
  -> cache_lookup setname (w_setlist w) = None
  -> kernel_header_reports ipset_cmd typename family revision
  -> let r := adt_type_get ipset_cmd stack_family w in
     (forall pre t post,
         w_typelist w = pre ++ t :: post
         -> forallb (fun x => negb (adt_candidate typename family revision x))
              pre = true
         -> adt_candidate typename family revision t = true
         -> fst r = Type_found (set_kernel_check t IPSET_KERNEL_OK)
            /\ w_typelist (snd r)
               = pre ++ set_kernel_check t IPSET_KERNEL_OK :: post)
     /\ ((forall t, In t (w_typelist w)
                    -> adt_candidate typename family revision t = false)
         -> fst r = Err_kernel_library family revision
            /\ w_typelist (snd r) = w_typelist w).
Proof.
  intros Hset Hmiss Hkernel r.
  rewrite (adt_type_get_on_miss ipset_cmd stack_family w setname typename
             family revision Hset Hmiss Hkernel : r = _).
  split.
  - intros pre t post Hlist Hpre Ht. rewrite Hlist. cbv zeta.
    rewrite (adt_scan_first _ _ _ _ _ _ Hpre Ht). split; reflexivity.
  - intros Hnone. cbv zeta. rewrite adt_scan_none by exact Hnone.
    split; [reflexivity|]. unfold send.
    destruct (ipset_cmd IPSET_CMD_HEADER (w_data w)). reflexivity.
Qed.

Lemma kernel_header_is_reported typename family revision :
  kernel_header_reports (kernel_header typename family revision)
    typename family revision.
Proof. intros d. repeat split. Defined.

Lemma adt_type_get_first_exact_match_witness :
  let w := adt_session "s1"
             [hash_ip_mismatch; sample_type "hash:ip" 1 AF_INET; hash_ip_inet;
              hash_ip_inet] [] in
  let r := adt_type_get (kernel_header "hash:ip" AF_INET 0) AF_UNSPEC w in
  fst r = Type_found (set_kernel_check hash_ip_inet IPSET_KERNEL_OK)
  /\ w_typelist (snd r)
     = [hash_ip_mismatch; sample_type "hash:ip" 1 AF_INET]
       ++ set_kernel_check hash_ip_inet IPSET_KERNEL_OK :: [hash_ip_inet].
Proof.
  refine (proj1 (@adt_type_get_first_exact_match
                   (kernel_header "hash:ip" AF_INET 0) AF_UNSPEC
                   (adt_session "s1"
                      [hash_ip_mismatch; sample_type "hash:ip" 1 AF_INET;
                       hash_ip_inet; hash_ip_inet] [])
                   "s1" "hash:ip" AF_INET 0 eq_refl eq_refl
                   (kernel_header_is_reported "hash:ip" AF_INET 0))
            [hash_ip_mismatch; sample_type "hash:ip" 1 AF_INET]
            hash_ip_inet [hash_ip_inet] eq_refl eq_refl eq_refl).
Defined.

(** * Further properties of the cache *)

Lemma cache_lookup_app name a b :
  cache_lookup name (a ++ b)
  = match cache_lookup name a with
    | Some s => Some s
    | None => cache_lookup name b
    end.
Proof.
  induction a as [|s a IH]; simpl; [reflexivity|].
  destruct (STREQ name (s_name s)); [reflexivity | exact IH].
Qed.

Lemma cache_lookup_None name l :
  cache_lookup name l = None <-> ~ In name (names l).
Proof.
  induction l as [|s rest IH]; simpl.
  - split; [intros _ [] | reflexivity].
  - destruct (STREQ name (s_name s)) eqn:E; streq.
    + split; [discriminate | intros H; exfalso; apply H; left; congruence].
    + rewrite IH. split; [intros H [H'|H']; [congruence | exact (H H')]|].
      intros H H'. apply H. right. exact H'.
Qed.

Lemma cache_lookup_Some name l s :
  cache_lookup name l = Some s -> In s l /\ s_name s = name.
Proof.
  induction l as [|x rest IH]; simpl; [discriminate|].
  destruct (STREQ name (s_name x)) eqn:E; streq.
  - intros H. inversion H. subst. auto.
  - intros H. destruct (IH H). auto.
Qed.

(** The first set of a name splits the cache. *)
Lemma names_first_split name l :
  In name (names l)
  -> exists pre s post,
       l = pre ++ s :: post /\ ~ In name (names pre) /\ s_name s = name.
Proof.
  induction l as [|x rest IH]; simpl; [intros []|].
  destruct (STREQ (s_name x) name) eqn:E; streq.
  - intros _. exists [], x, rest. simpl. auto.
  - intros [H|H]; [congruence|].
    destruct (IH H) as (pre & s & post & Hl & Hpre & Hs).
    exists (x :: pre), s, post. subst rest. simpl.
    repeat split; [|exact Hs]. intros [H'|H']; [congruence | exact (Hpre H')].
Qed.

Lemma cache_del_scan_split name pre s post :
  ~ In name (names pre) -> s_name s = name
  -> cache_del_scan name (pre ++ s :: post) = (0, pre ++ post).
Proof.
  intros Hpre Hs. induction pre as [|x pre IH]; simpl.
  - rewrite Hs, STREQ_refl. reflexivity.
  - simpl in Hpre. destruct (STREQ (s_name x) name) eqn:E; streq.
    + exfalso. apply Hpre. left. exact E.
    + rewrite IH; [reflexivity|]. intros H. apply Hpre. right. exact H.
Qed.

Lemma ipset_cache_rename_split strncpy from to pre s post :
  ~ In from (names pre) -> s_name s = from
  -> ipset_cache_rename strncpy from to (pre ++ s :: post)
     = (0, pre ++ set_s_name s (strncpy to) :: post).
Proof.
  intros Hpre Hs. induction pre as [|x pre IH]; simpl.
  - rewrite Hs, STREQ_refl. reflexivity.
  - simpl in Hpre. destruct (STREQ (s_name x) from) eqn:E; streq.
    + exfalso. apply Hpre. left. exact E.
    + rewrite IH; [reflexivity|]. intros H. apply Hpre. right. exact H.
Qed.

Lemma removelast_names_incl name l :
  In name (names (removelast l)) -> In name (names l).
Proof.
  induction l as [|x rest IH]; [intros []|].
  destruct rest as [|y rest]; [intros []|].
  change (removelast (x :: y :: rest)) with (x :: removelast (y :: rest)).
  simpl. intros [H|H]; [left; exact H | right; apply IH; exact H].
Qed.

(** A name that no cached set carries is accepted, given a node. *)
Lemma ipset_cache_add_fresh strncpy name type family l :
  ~ In name (names l)
  -> ipset_cache_add strncpy true name type family l
     = (0, l ++ [mk_ipset (strncpy name) type family]).
Proof.
  intros Hnew.
  destruct (ipset_cache_add_cases strncpy true name type family l)
    as [E|[E|E]]; [| |exact E].
  - unfold ipset_cache_add in E. simpl negb in E. cbv iota in E.
    destruct l as [|s rest]; [discriminate|].
    destruct (cache_add_scan name _ s rest); discriminate.
  - exfalso. apply Hnew. apply removelast_names_incl.
    apply (ipset_cache_add_EEXIST_iff strncpy name type family l).
    rewrite E. reflexivity.
Qed.

Lemma cache_lookup_appended name type family l :
  ~ In name (names l)
  -> cache_lookup name (l ++ [mk_ipset name type family])
     = Some (mk_ipset name type family).
Proof.
  intros Hnew. rewrite cache_lookup_app.
  rewrite (proj2 (cache_lookup_None name l) Hnew). simpl.
  rewrite STREQ_refl. reflexivity.
Qed.

(** X1.  How [ipset_cache_add] returns: [-ENOMEM] exactly when no node
    could be allocated; otherwise [-EEXIST] exactly when the name is
    carried by a node other than the last one of the list; otherwise 0.
    The cache is changed only by a call that returns 0, which puts the new
    set, with the copied name, the type and the family, behind all
    others. *)
Theorem ipset_cache_add_returns strncpy m name type family l :
  let r := ipset_cache_add strncpy m name type family l in
  (fst r = - ENOMEM <-> m = false)
  /\ (fst r = - EEXIST <-> m = true /\ In name (names (removelast l)))
  /\ (fst r = 0 <-> m = true /\ ~ In name (names (removelast l)))
  /\ (fst r = 0 -> snd r = l ++ [mk_ipset (strncpy name) type family])
  /\ (fst r <> 0 -> snd r = l).
Proof.
  cbv zeta. destruct m.
  - pose proof (ipset_cache_add_EEXIST_iff strncpy name type family l) as Hiff.
    destruct (ipset_cache_add_cases strncpy true name type family l)
      as [E|[E|E]].
    + unfold ipset_cache_add in E. simpl negb in E. cbv iota in E.
      destruct l as [|s rest]; [discriminate|].
      destruct (cache_add_scan name _ s rest); discriminate.
    + rewrite E in *. simpl in *.
      assert (Hin : In name (names (removelast l))) by (apply Hiff; reflexivity).
      repeat split; try discriminate; try tauto;
        try (intros [_ H]; contradiction).
    + rewrite E in *. simpl in *.
      assert (Hnot : ~ In name (names (removelast l))).
      { intros H. apply Hiff in H. discriminate. }
      repeat split; try discriminate; try tauto;
        try (intros H; exfalso; apply H; reflexivity).
  - unfold ipset_cache_add. simpl.
    repeat split; try discriminate; try tauto; intros [H _]; discriminate.
Qed.

(** X2.  A set added under a name that the cache does not hold and that
    fits the name buffer is found under that name afterwards, with the
    type and the family it was added with, and every set that was found
    before is found unchanged. *)
Theorem ipset_cache_add_then_lookup strncpy name type family l :
  strncpy name = name -> ~ In name (names l)
  -> let r := ipset_cache_add strncpy true name type family l in
     fst r = 0
     /\ cache_lookup name (snd r) = Some (mk_ipset name type family)
     /\ (forall other s, cache_lookup other l = Some s
                         -> cache_lookup other (snd r) = Some s).
Proof.
  intros Hfit Hnew r. unfold r.
  rewrite (ipset_cache_add_fresh strncpy name type family l Hnew), Hfit.
  simpl fst. simpl snd. split; [reflexivity|]. split.
  - apply cache_lookup_appended. exact Hnew.
  - intros other s Hs. rewrite cache_lookup_app, Hs. reflexivity.
Qed.

Lemma ipset_cache_add_then_lookup_witness :
  let l := cache_run name_copy fresh_calls [] in
  name_copy "list1" = "list1" /\ ~ In "list1" (names l)
  /\ cache_lookup "list1"
       (snd (ipset_cache_add name_copy true "list1" hash_net AF_INET6 l))
     = Some (mk_ipset "list1" hash_net AF_INET6).
Proof.
  assert (Hnew : ~ In "list1" (names (cache_run name_copy fresh_calls []))).
  { simpl. intros [H|[H|[]]]; discriminate. }
  split; [reflexivity|]. split; [exact Hnew|].
  exact (proj1 (proj2 (ipset_cache_add_then_lookup name_copy "list1" hash_net
                         AF_INET6 (cache_run name_copy fresh_calls [])
                         eq_refl Hnew))).
Defined.

Lemma cache_lookup_del_other name other l :
  other <> name
  -> cache_lookup other (snd (cache_del_scan name l)) = cache_lookup other l.
Proof.
  intros Hne. induction l as [|s rest IH]; simpl; [reflexivity|].
  destruct (STREQ (s_name s) name) eqn:E; streq; simpl.
  - destruct (STREQ other (s_name s)) eqn:E'; streq; [congruence | reflexivity].
  - destruct (cache_del_scan name rest) as [rc rest']. simpl in *.
    rewrite IH. reflexivity.
Qed.

(** X3.  [ipset_cache_del] with a name returns 0 exactly when a set of
    that name is cached, and [-EEXIST] otherwise; it unlinks the first set
    of that name and nothing else. *)
Theorem ipset_cache_del_first name l :
  (fst (ipset_cache_del (Some name) l) = 0 <-> In name (names l))
  /\ (fst (ipset_cache_del (Some name) l) = - EEXIST <-> ~ In name (names l))
  /\ (forall pre s post,
         l = pre ++ s :: post -> ~ In name (names pre) -> s_name s = name
         -> ipset_cache_del (Some name) l = (0, pre ++ post)).
Proof.
  assert (Hsplit : forall pre s post,
             l = pre ++ s :: post -> ~ In name (names pre) -> s_name s = name
             -> ipset_cache_del (Some name) l = (0, pre ++ post)).
  { intros pre s post Hl Hpre Hs. subst l. simpl.
    apply cache_del_scan_split; assumption. }
  assert (Hin : In name (names l) -> fst (ipset_cache_del (Some name) l) = 0).
  { intros H. destruct (names_first_split name l H)
      as (pre & s & post & Hl & Hpre & Hs).
    rewrite (Hsplit pre s post Hl Hpre Hs). reflexivity. }
  assert (Hout : ~ In name (names l)
                 -> fst (ipset_cache_del (Some name) l) = - EEXIST).
  { intros H. apply (cache_absent_EEXIST (fun x => x) name name l H). }
  split; [|split; [|exact Hsplit]].
  - split; [|exact Hin]. intros H0.
    destruct (cached name l) eqn:E; [apply cached_In; exact E|].
    apply cached_not_In in E. rewrite (Hout E) in H0. discriminate.
  - split; [|exact Hout]. intros He Hn. rewrite (Hin Hn) in He. discriminate.
Qed.

(** X4.  In a cache with one set per name, a deleted name is no longer
    found; whatever the cache, the sets found under other names are found
    as before. *)
Theorem ipset_cache_del_then_lookup name l :
  (NoDup (names l)
   -> cache_lookup name (snd (ipset_cache_del (Some name) l)) = None)
  /\ (forall other, other <> name
         -> cache_lookup other (snd (ipset_cache_del (Some name) l))
            = cache_lookup other l).
Proof.
  split.
  - intros Hnd. apply cache_lookup_None. simpl.
    destruct (cached name l) eqn:E.
    + apply cached_In in E.
      destruct (names_first_split name l E) as (pre & s & post & Hl & Hpre & Hs).
      subst l. rewrite cache_del_scan_split by assumption. simpl.
      unfold names in *. rewrite map_app in *. simpl in Hnd.
      apply NoDup_remove_2 in Hnd. rewrite Hs in Hnd. exact Hnd.
    + apply cached_not_In in E. intros H.
      apply E. apply (cache_del_scan_incl name l name H).
  - intros other Hne. simpl. apply cache_lookup_del_other. exact Hne.
Qed.

Lemma ipset_cache_del_then_lookup_witness :
  let l := cache_run name_copy fresh_calls [] in
  NoDup (names l)
  /\ cache_lookup "c" l <> None
  /\ cache_lookup "c" (snd (ipset_cache_del (Some "c") l)) = None.
Proof.
  assert (Hnd : NoDup (names (cache_run name_copy fresh_calls []))).
  { simpl. constructor; [intros [H|[]]; discriminate|].
    constructor; [intros []|constructor]. }
  split; [exact Hnd|]. split; [discriminate|].
  exact (proj1 (ipset_cache_del_then_lookup "c"
                  (cache_run name_copy fresh_calls [])) Hnd).
Defined.

Lemma ipset_cache_rename_types strncpy from to l :
  map s_type (snd (ipset_cache_rename strncpy from to l)) = map s_type l
  /\ map s_family (snd (ipset_cache_rename strncpy from to l)) = map s_family l.
Proof.
  induction l as [|s rest IH]; simpl; [auto|].
  destruct (STREQ (s_name s) from); simpl; [auto|].
  destruct (ipset_cache_rename strncpy from to rest) as [rc rest'].
  simpl in *. destruct IH as [Ht Hf]. rewrite Ht, Hf. auto.
Qed.

(** X5.  [ipset_cache_rename] returns 0 exactly when a set named [from] is
    cached, and [-EEXIST] otherwise; it writes the copy of [to] on the
    first set named [from] and on no other, and no set changes its type
    or family. *)
Theorem ipset_cache_rename_first strncpy from to l :
  (fst (ipset_cache_rename strncpy from to l) = 0 <-> In from (names l))
  /\ (fst (ipset_cache_rename strncpy from to l) = - EEXIST
      <-> ~ In from (names l))
  /\ (forall pre s post,
         l = pre ++ s :: post -> ~ In from (names pre) -> s_name s = from
         -> ipset_cache_rename strncpy from to l
            = (0, pre ++ set_s_name s (strncpy to) :: post))
  /\ map s_type (snd (ipset_cache_rename strncpy from to l)) = map s_type l
  /\ map s_family (snd (ipset_cache_rename strncpy from to l))
     = map s_family l.
Proof.
  assert (Hsplit : forall pre s post,
             l = pre ++ s :: post -> ~ In from (names pre) -> s_name s = from
             -> ipset_cache_rename strncpy from to l
                = (0, pre ++ set_s_name s (strncpy to) :: post)).
  { intros pre s post Hl Hpre Hs. subst l.
    apply ipset_cache_rename_split; assumption. }
  assert (Hin : In from (names l)
                -> fst (ipset_cache_rename strncpy from to l) = 0).
  { intros H. destruct (names_first_split from l H)
      as (pre & s & post & Hl & Hpre & Hs).
    rewrite (Hsplit pre s post Hl Hpre Hs). reflexivity. }
  assert (Hout : ~ In from (names l)
                 -> fst (ipset_cache_rename strncpy from to l) = - EEXIST).
  { intros H. apply (cache_absent_EEXIST strncpy from to l H). }
  split; [|split; [|split; [exact Hsplit | apply ipset_cache_rename_types]]].
  - split; [|exact Hin]. intros H0.
    destruct (cached from l) eqn:E; [apply cached_In; exact E|].
    apply cached_not_In in E. rewrite (Hout E) in H0. discriminate.
  - split; [|exact Hout]. intros He Hn. rewrite (Hin Hn) in He. discriminate.
Qed.

(** X6.  In a cache with one set per name, renaming a cached set to a name
    that is not cached and fits the name buffer moves the set: it is found
    under the new name with its type and family, the old name is no longer
    found, and renaming it back restores the cache. *)
Theorem ipset_cache_rename_round_trip strncpy from to l :
  cache_ok strncpy l -> In from (names l) -> ~ In to (names l)
  -> strncpy to = to
  -> let l1 := snd (ipset_cache_rename strncpy from to l) in
     cache_lookup from l1 = None
     /\ option_map s_type (cache_lookup to l1)
        = option_map s_type (cache_lookup from l)
     /\ option_map s_family (cache_lookup to l1)
        = option_map s_family (cache_lookup from l)
     /\ cache_lookup to l1 <> None
     /\ ipset_cache_rename strncpy to from l1 = (0, l).
Proof.
  intros [Hnd Hfit] Hfrom Hto Hfitto l1.
  assert (Hne : from <> to) by (intros E; subst; contradiction).
  assert (Hfitfrom : strncpy from = from)
    by (rewrite Forall_forall in Hfit; auto).
  destruct (names_first_split from l Hfrom) as (pre & s & post & Hl & Hpre & Hs).
  assert (Hl1 : l1 = pre ++ set_s_name s to :: post).
  { unfold l1. subst l. rewrite ipset_cache_rename_split by assumption.
    rewrite Hfitto. reflexivity. }
  assert (Hpost : ~ In from (names post)).
  { subst l. unfold names in Hnd. rewrite map_app in Hnd. simpl in Hnd.
    apply NoDup_remove_2 in Hnd. rewrite Hs in Hnd.
    intros H. apply Hnd. apply in_or_app. right. exact H. }
  assert (Hpreto : ~ In to (names pre)).
  { intros H. apply Hto. subst l. unfold names. rewrite map_app.
    apply in_or_app. left. exact H. }
  rewrite Hl1. subst l. repeat split.
  - apply cache_lookup_None. unfold names. rewrite map_app. simpl.
    intros H. apply in_app_or in H. destruct H as [H|[H|H]]; auto.
  - rewrite !cache_lookup_app.
    rewrite (proj2 (cache_lookup_None to pre) Hpreto).
    rewrite (proj2 (cache_lookup_None from pre) Hpre).
    simpl. rewrite Hs, !STREQ_refl. reflexivity.
  - rewrite !cache_lookup_app.
    rewrite (proj2 (cache_lookup_None to pre) Hpreto).
    rewrite (proj2 (cache_lookup_None from pre) Hpre).
    simpl. rewrite Hs, !STREQ_refl. reflexivity.
  - rewrite cache_lookup_app.
    rewrite (proj2 (cache_lookup_None to pre) Hpreto).
    simpl. rewrite STREQ_refl. discriminate.
  - rewrite ipset_cache_rename_split; [|exact Hpreto | reflexivity].
    rewrite Hfitfrom, set_s_name_twice, <- Hs, set_s_name_same. reflexivity.
Qed.

Lemma ipset_cache_rename_round_trip_witness :
  let l := cache_run name_copy fresh_calls [] in
  In "c" (names l) /\ ~ In "z" (names l)
  /\ ipset_cache_rename name_copy "z" "c"
       (snd (ipset_cache_rename name_copy "c" "z" l)) = (0, l).
Proof.
  assert (Hc : In "c" (names (cache_run name_copy fresh_calls [])))
    by (simpl; auto).
  assert (Hz : ~ In "z" (names (cache_run name_copy fresh_calls []))).
  { simpl. intros [H|[H|[]]]; discriminate. }
  split; [exact Hc|]. split; [exact Hz|].
  exact (proj2 (proj2 (proj2 (proj2
           (ipset_cache_rename_round_trip name_copy "c" "z"
              (cache_run name_copy fresh_calls [])
              cache_ok_fresh_calls Hc Hz eq_refl))))).
Defined.

Lemma cache_name_at_length i n l :
  length (cache_name_at i n l) = length l.
Proof.
  revert i. induction l as [|s rest IH]; intros i; simpl; [reflexivity|].
  destruct i; simpl; [reflexivity|]. rewrite IH. reflexivity.
Qed.

Lemma cache_name_at_comm i j x y l :
  i <> j
  -> cache_name_at i x (cache_name_at j y l)
     = cache_name_at j y (cache_name_at i x l).
Proof.
  revert i j. induction l as [|s rest IH]; intros i j Hne; simpl;
    [reflexivity|].
  destruct i as [|i], j as [|j]; simpl; try reflexivity.
  - exfalso. apply Hne. reflexivity.
  - rewrite IH; [reflexivity|]. intros E. apply Hne. f_equal. exact E.
Qed.

Lemma cache_position_name name l i :
  cache_position name l = Some i -> nth_error (names l) i = Some name.
Proof.
  revert i. induction l as [|s rest IH]; intros i H; simpl in H;
    [discriminate|].
  destruct (STREQ (s_name s) name) eqn:E; streq.
  - inversion H. subst. reflexivity.
  - destruct (cache_position name rest) as [k|]; [|discriminate].
    inversion H. subst. simpl. apply IH. reflexivity.
Qed.

(** X7.  [ipset_cache_swap] returns 0 exactly when both names are cached
    and [-EEXIST] otherwise, and the cache keeps its length. *)
Theorem ipset_cache_swap_returns strncpy from to l :
  let r := ipset_cache_swap strncpy from to l in
  (fst r = 0 <-> In from (names l) /\ In to (names l))
  /\ (fst r = - EEXIST <-> ~ (In from (names l) /\ In to (names l)))
  /\ length (snd r) = length l.
Proof.
  cbv zeta. rewrite ipset_cache_swap_positions.
  pose proof (cache_position_In from l) as Hf.
  pose proof (cache_position_In to l) as Ht.
  destruct (cache_position from l) as [i|], (cache_position to l) as [j|];
    simpl; repeat split; try discriminate; try reflexivity;
    try (rewrite !cache_name_at_length; reflexivity);
    try (apply Hf; eauto; fail); try (apply Ht; eauto; fail);
    try (intros _; split; [apply Hf | apply Ht]; eauto);
    try (intros H; exfalso; apply H; split; [apply Hf | apply Ht]; eauto);
    try (intros [H1 H2]; apply Hf in H1; apply Ht in H2;
         destruct H1 as [? H1], H2 as [? H2]; discriminate);
    try (intros _ [H1 H2]; apply Hf in H1; apply Ht in H2;
         destruct H1 as [? H1], H2 as [? H2]; discriminate).
Qed.

(** X8.  The order of the two names does not matter to
    [ipset_cache_swap]: whatever the cache, swapping [a] with [b] returns
    and leaves what swapping [b] with [a] does. *)
Theorem ipset_cache_swap_symmetric strncpy a b l :
  ipset_cache_swap strncpy a b l = ipset_cache_swap strncpy b a l.
Proof.
  rewrite !ipset_cache_swap_positions.
  destruct (cache_position a l) as [i|] eqn:Ei,
           (cache_position b l) as [j|] eqn:Ej; try reflexivity.
  destruct (Nat.eq_dec i j) as [E|Hne].
  - subst j. apply cache_position_name in Ei. apply cache_position_name in Ej.
    assert (a = b) by congruence. subst b. reflexivity.
  - rewrite (cache_name_at_comm j i (strncpy a) (strncpy b) l); [reflexivity|].
    intros E. apply Hne. symmetry. exact E.
Qed.

(** * Further properties of the resolver *)

Lemma send_fields ipset_cmd c w :
  w_typelist (snd (send ipset_cmd c w)) = w_typelist w
  /\ w_setlist (snd (send ipset_cmd c w)) = w_setlist w
  /\ w_sent (snd (send ipset_cmd c w)) = c :: w_sent w
  /\ fst (send ipset_cmd c w) = fst (ipset_cmd c (w_data w))
  /\ w_data (snd (send ipset_cmd c w)) = snd (ipset_cmd c (w_data w)).
Proof.
  unfold send. destruct (ipset_cmd c (w_data w)). simpl. auto.
Qed.

(** X9.  [adt_type_get] asks the kernel exactly when the set name is not
    in the cache.  A cached name is answered with the type of the first
    cached set of that name, nothing is sent and the registry is not
    written; otherwise exactly one [IPSET_CMD_HEADER] is sent.  No set is
    added to the cache or removed from it, and no cached set changes its
    name or its family.  (A kernel mark written on a registry descriptor
    after a miss is seen through the cached sets that point to that
    descriptor; nothing is said here about the descriptors behind the
    cached sets.) *)
Theorem adt_type_get_asks_kernel_on_miss ipset_cmd stack_family w setname :
  d_setname (w_data w) = Some setname
  -> let r := adt_type_get ipset_cmd stack_family w in
     (In setname (names (w_setlist w))
      -> w_sent (snd r) = w_sent w
         /\ w_typelist (snd r) = w_typelist w
         /\ exists s, cache_lookup setname (w_setlist w) = Some s
                      /\ fst r = Type_found (s_type s)
                      /\ d_type (w_data (snd r)) = Some (s_type s))
     /\ (~ In setname (names (w_setlist w))
         -> w_sent (snd r) = IPSET_CMD_HEADER :: w_sent w)
     /\ names (w_setlist (snd r)) = names (w_setlist w)
     /\ map s_family (w_setlist (snd r)) = map s_family (w_setlist w).
Proof.
  intros Hset r.
  cut ((In setname (names (w_setlist w))
        -> w_sent (snd r) = w_sent w
           /\ w_typelist (snd r) = w_typelist w
           /\ exists s, cache_lookup setname (w_setlist w) = Some s
                        /\ fst r = Type_found (s_type s)
                        /\ d_type (w_data (snd r)) = Some (s_type s))
       /\ (~ In setname (names (w_setlist w))
           -> w_sent (snd r) = IPSET_CMD_HEADER :: w_sent w)
       /\ w_setlist (snd r) = w_setlist w).
  { intros (Hhit & Hmiss & Hnodes). rewrite Hnodes. auto. }
  unfold r, adt_type_get. rewrite Hset.
  destruct (send_fields ipset_cmd IPSET_CMD_HEADER w)
    as (Stl & Ssl & Ssent & _ & _).
  destruct (cache_lookup setname (w_setlist w)) as [s|] eqn:E.
  - simpl. repeat split.
    + exists s. unfold set_family_and_type. repeat split.
    + intros Hnot. apply cache_lookup_None in Hnot. congruence.
  - assert (Hnot : ~ In setname (names (w_setlist w)))
      by (apply cache_lookup_None; exact E).
    destruct (send ipset_cmd IPSET_CMD_HEADER w) as [ret w2]. simpl in *.
    split; [intros H; contradiction|].
    destruct (negb (ret =? 0)); [simpl; auto|].
    destruct (d_typename (w_data w2)); [|simpl; auto].
    destruct (d_revision (w_data w2)); [|simpl; auto].
    destruct (adt_scan s (d_family (w_data w2)) z (w_typelist w2))
      as [[m l']|]; simpl; auto.
Qed.

Lemma adt_type_get_asks_kernel_on_miss_witness :
  let w := adt_session "b" [hash_ip_inet]
             (cache_run name_copy fresh_calls []) in
  w_sent (snd (adt_type_get (kernel_down (-1)) AF_UNSPEC w)) = w_sent w.
Proof.
  assert (Hb : In "b" (names (cache_run name_copy fresh_calls [])))
    by (simpl; auto).
  exact (proj1 (proj1 (adt_type_get_asks_kernel_on_miss (kernel_down (-1))
                         AF_UNSPEC
                         (adt_session "b" [hash_ip_inet]
                            (cache_run name_copy fresh_calls []))
                         "b" eq_refl) Hb)).
Defined.

(** X10.  A set that [ipset_cache_add] has put into the cache under a name
    that fits the name buffer and was not cached is resolved by
    [adt_type_get] to the type it was added with, without any command to
    the kernel and without a change to the registry. *)
Theorem adt_type_get_after_cache_add ipset_cmd stack_family strncpy w name
    type family :
  d_setname (w_data w) = Some name
  -> strncpy name = name
  -> ~ In name (names (w_setlist w))
  -> let added := ipset_cache_add strncpy true name type family (w_setlist w) in
     let r := adt_type_get ipset_cmd stack_family (with_setlist w (snd added)) in
     fst added = 0
     /\ fst r = Type_found type
     /\ w_sent (snd r) = w_sent w
     /\ w_typelist (snd r) = w_typelist w
     /\ d_type (w_data (snd r)) = Some type.
Proof.
  intros Hset Hfit Hnew added r. unfold r, added.
  rewrite (ipset_cache_add_fresh strncpy name type family (w_setlist w) Hnew).
  rewrite Hfit. simpl fst. simpl snd. split; [reflexivity|].
  unfold adt_type_get, with_setlist. simpl. rewrite Hset.
  rewrite (cache_lookup_appended name type family (w_setlist w) Hnew). simpl.
  unfold set_family_and_type. repeat split.
Qed.

Lemma adt_type_get_after_cache_add_witness :
  let w := adt_session "list1" [hash_ip_inet] [] in
  fst (adt_type_get (kernel_down (-1)) AF_UNSPEC
         (with_setlist w
            (snd (ipset_cache_add name_copy true "list1" hash_net AF_INET
                    (w_setlist w)))))
  = Type_found hash_net.
Proof.
  refine (proj1 (proj2 (adt_type_get_after_cache_add (kernel_down (-1))
                          AF_UNSPEC name_copy
                          (adt_session "list1" [hash_ip_inet] [])
                          "list1" hash_net AF_INET eq_refl eq_refl _))).
  simpl. intros [].
Defined.

Lemma create_scan_skip_prefix typename family pre rest k m tmin tmax :
  forallb (fun t => negb (create_candidate typename family t)) pre = true
  -> create_scan typename family (pre ++ rest) k m tmin tmax
     = create_scan typename family rest (k + length pre) m tmin tmax.
Proof.
  unfold create_candidate. revert k.
  induction pre as [|x pre IH]; intros k H; simpl.
  - rewrite Nat.add_0_r. reflexivity.
  - simpl in H. apply andb_true_iff in H. destruct H as [Hx Hpre].
    apply negb_true_iff in Hx.
    replace (k + S (length pre))%nat with (S k + length pre)%nat by lia.
    destruct (kernel_check_eqb (t_kernel_check x) IPSET_KERNEL_MISMATCH);
      [apply IH; exact Hpre|].
    simpl in Hx. rewrite Hx. apply IH. exact Hpre.
Qed.

(** The scan of [create_type_get] on a list whose first candidate is
    known. *)
Lemma create_scan_first_candidate typename family pre best post :
  forallb (fun t => negb (create_candidate typename family t)) pre = true
  -> create_candidate typename family best = true
  -> create_scan typename family (pre ++ best :: post) 0 None 0 0
     = (Some (length pre, best),
        last (same_family_revisions typename family best post) 0,
        t_revision best).
Proof.
  intros Hpre Hbest. rewrite create_scan_skip_prefix by exact Hpre.
  unfold create_candidate in Hbest. simpl.
  apply andb_true_iff in Hbest. destruct Hbest as [Hk Ht].
  apply negb_true_iff in Hk. rewrite Hk, Ht. apply create_scan_tmin.
Qed.

Lemma type_set_at_split pre t post x :
  type_set_at (length pre) x (pre ++ t :: post) = pre ++ x :: post.
Proof.
  induction pre as [|p pre IH]; simpl; [reflexivity|]. rewrite IH. reflexivity.
Qed.

Lemma set_kernel_check_same t :
  set_kernel_check t (t_kernel_check t) = t.
Proof. destruct t. reflexivity. Qed.

(** What a successful [create_type_get] has done: the returned descriptor
    is the best match of the scan, marked [IPSET_KERNEL_OK], and the
    registry holds it at the place of the best match. *)
Lemma create_type_get_found_inv ipset_cmd w m :
  fst (create_type_get ipset_cmd w) = Type_found m
  -> exists typename pre best post,
       d_typename (w_data w) = Some typename
       /\ w_typelist w = pre ++ best :: post
       /\ forallb (fun t => negb (create_candidate typename
                                    (d_family (w_data w)) t)) pre = true
       /\ create_candidate typename (d_family (w_data w)) best = true
       /\ m = set_kernel_check best IPSET_KERNEL_OK
       /\ w_typelist (snd (create_type_get ipset_cmd w)) = pre ++ m :: post.
Proof.
  unfold create_type_get.
  destruct (d_typename (w_data w)) as [typename|] eqn:Hname; [|discriminate].
  destruct (create_scan typename (d_family (w_data w)) (w_typelist w)
              0 None 0 0) as [[[[i best]|] tmin] tmax] eqn:Hscan;
    [|discriminate].
  destruct (create_scan_result _ _ _ _ _ _ _ Hscan)
    as (pre & post & Hl & Hlen & Hpre & Hbest & _).
  set (w1 := if family_unset best (d_family (w_data w))
             then with_data w _ else w).
  assert (Hw1 : w_typelist w1 = w_typelist w).
  { unfold w1. destruct (family_unset best (d_family (w_data w))); reflexivity. }
  intros H. exists typename, pre, best, post.
  repeat split; try assumption.
  - destruct (kernel_check_eqb (t_kernel_check best) IPSET_KERNEL_OK) eqn:Ek.
    + apply kernel_check_eqb_eq in Ek. simpl in H. inversion H. subst m.
      rewrite <- Ek. symmetry. apply set_kernel_check_same.
    + destruct (send ipset_cmd IPSET_CMD_TYPE w1) as [ret w2].
      destruct (negb (ret =? 0)); [discriminate|].
      destruct (d_revision (w_data w2)); [|discriminate].
      destruct (MAX tmin _ >? MIN tmax z);
        [destruct (_ >? tmax); discriminate|].
      simpl in H. inversion H. reflexivity.
  - destruct (kernel_check_eqb (t_kernel_check best) IPSET_KERNEL_OK) eqn:Ek.
    + apply kernel_check_eqb_eq in Ek. simpl in *. inversion H. subst m.
      rewrite Hw1. exact Hl.
    + pose proof (send_fields ipset_cmd IPSET_CMD_TYPE w1) as (Stl & _).
      destruct (send ipset_cmd IPSET_CMD_TYPE w1) as [ret w2]. simpl in Stl.
      destruct (negb (ret =? 0)); [discriminate|].
      destruct (d_revision (w_data w2)); [|discriminate].
      destruct (MAX tmin _ >? MIN tmax z);
        [destruct (_ >? tmax); discriminate|].
      simpl in *. inversion H. subst m. rewrite Stl, Hw1, Hl, <- Hlen.
      apply type_set_at_split.
Qed.

(** A best match that is already marked is returned at once. *)
Lemma create_type_get_marked_ok ipset_cmd w typename i best tmin tmax :
  d_typename (w_data w) = Some typename
  -> create_scan typename (d_family (w_data w)) (w_typelist w) 0 None 0 0
     = (Some (i, best), tmin, tmax)
  -> t_kernel_check best = IPSET_KERNEL_OK
  -> let r := create_type_get ipset_cmd w in
     fst r = Type_found best
     /\ w_sent (snd r) = w_sent w
     /\ w_typelist (snd r) = w_typelist w
     /\ d_type (w_data (snd r)) = Some best
     /\ d_family (w_data (snd r))
        = (if (d_family (w_data w) =? AF_UNSPEC)
              && negb (t_family best =? AF_UNSPEC)
           then if t_family best =? AF_INET46 then AF_INET else t_family best
           else d_family (w_data w)).
Proof.
  intros Hname Hscan Hok r. unfold r, create_type_get.
  rewrite Hname, Hscan, Hok. simpl kernel_check_eqb. cbv iota.
  unfold family_unset, family_of_match.
  destruct ((d_family (w_data w) =? AF_UNSPEC)
            && negb (t_family best =? AF_UNSPEC)); simpl; repeat split.
Qed.

(** X11.  A best match that is already marked [IPSET_KERNEL_OK] is
    returned by [create_type_get] without a command to the kernel and
    without a change to the registry; the session gets the type, and a
    family that was unspecified becomes the family of the match, with
    [AF_INET46] read as [AF_INET]. *)
Theorem create_type_get_kernel_ok ipset_cmd w typename i best tmin tmax :
  d_typename (w_data w) = Some typename
  -> create_scan typename (d_family (w_data w)) (w_typelist w) 0 None 0 0
     = (Some (i, best), tmin, tmax)
  -> t_kernel_check best = IPSET_KERNEL_OK
  -> let r := create_type_get ipset_cmd w in
     fst r = Type_found best
     /\ w_sent (snd r) = w_sent w
     /\ w_typelist (snd r) = w_typelist w
     /\ d_type (w_data (snd r)) = Some best
     /\ d_family (w_data (snd r))
        = (if (d_family (w_data w) =? AF_UNSPEC)
              && negb (t_family best =? AF_UNSPEC)
           then if t_family best =? AF_INET46 then AF_INET else t_family best
           else d_family (w_data w)).
Proof.
  intros Hname Hscan Hok.
  exact (create_type_get_marked_ok ipset_cmd w typename i best tmin tmax
           Hname Hscan Hok).
Qed.

Lemma create_type_get_kernel_ok_witness :
  let best := set_kernel_check hash_net IPSET_KERNEL_OK in
  let w := create_session "nethash" AF_UNSPEC [hash_ip_inet; best] in
  let r := create_type_get (kernel_down (-1)) w in
  fst r = Type_found best /\ w_sent (snd r) = []
  /\ d_family (w_data (snd r)) = AF_INET.
Proof.
  pose proof (create_type_get_kernel_ok (kernel_down (-1))
                (create_session "nethash" AF_UNSPEC
                   [hash_ip_inet; set_kernel_check hash_net IPSET_KERNEL_OK])
                "nethash" 1%nat (set_kernel_check hash_net IPSET_KERNEL_OK)
                0 2 eq_refl eq_refl eq_refl) as (H1 & H2 & _ & _ & H5).
  split; [exact H1|]. split; [exact H2 | exact H5].
Defined.

Lemma create_candidate_unspec typename family t :
  create_candidate typename family t = true
  -> create_candidate typename AF_UNSPEC t = true.
Proof.
  unfold create_candidate, MATCH_FAMILY. simpl.
  intros H. apply andb_true_iff in H. destruct H as [Hk H].
  apply andb_true_iff in H. destruct H as [Hn _].
  rewrite Hk, Hn. reflexivity.
Qed.

Lemma MATCH_FAMILY_of_match t : MATCH_FAMILY t (family_of_match t) = true.
Proof.
  unfold MATCH_FAMILY, family_of_match.
  destruct (t_family t =? AF_INET46) eqn:E.
  - rewrite !orb_true_r. reflexivity.
  - rewrite Z.eqb_refl. rewrite orb_true_r. reflexivity.
Qed.

(** X12.  The kernel is asked once per type: after [create_type_get] has
    succeeded, a later [create_type_get] for the same type name, with the
    same family or with the family the first call settled on, returns the
    same descriptor without a command to the kernel and without a change
    to the registry, whatever the kernel would answer. *)
Theorem create_type_get_asks_kernel_once ipset_cmd ipset_cmd' w w2 m :
  fst (create_type_get ipset_cmd w) = Type_found m
  -> w_typelist w2 = w_typelist (snd (create_type_get ipset_cmd w))
  -> d_typename (w_data w2) = d_typename (w_data w)
  -> d_family (w_data w2) = d_family (w_data w)
     \/ (d_family (w_data w) = AF_UNSPEC
         /\ d_family (w_data w2) = family_of_match m)
  -> fst (create_type_get ipset_cmd' w2) = Type_found m
     /\ w_sent (snd (create_type_get ipset_cmd' w2)) = w_sent w2
     /\ w_typelist (snd (create_type_get ipset_cmd' w2)) = w_typelist w2.
Proof.
  intros Hfound Hlist Hname2 Hfam2.
  destruct (create_type_get_found_inv ipset_cmd w m Hfound)
    as (typename & pre & best & post & Hname & Hl & Hpre & Hbest & Hm & Hl').
  rewrite Hl' in Hlist. rewrite Hname in Hname2.
  assert (Hfields : t_name m = t_name best /\ t_alias m = t_alias best
                    /\ t_family m = t_family best
                    /\ t_kernel_check m = IPSET_KERNEL_OK).
  { subst m. simpl. auto. }
  destruct Hfields as (Fn & Fa & Ff & Fk).
  assert (Hpre2 : forallb (fun t => negb (create_candidate typename
                                            (d_family (w_data w2)) t)) pre
                  = true).
  { destruct Hfam2 as [E|[E _]]; [rewrite E; exact Hpre|].
    rewrite E in Hpre. rewrite forallb_forall in *. intros t Ht.
    specialize (Hpre t Ht). apply negb_true_iff in Hpre. apply negb_true_iff.
    destruct (create_candidate typename (d_family (w_data w2)) t) eqn:Ec;
      [|reflexivity].
    apply create_candidate_unspec in Ec. congruence. }
  assert (Hm2 : create_candidate typename (d_family (w_data w2)) m = true).
  { unfold create_candidate in *. rewrite Fk. simpl.
    apply andb_true_iff in Hbest. destruct Hbest as [_ Hbest].
    apply andb_true_iff in Hbest. destruct Hbest as [Hn Hf].
    apply andb_true_iff. split.
    - unfold ipset_match_typename in *. rewrite Fn, Fa. exact Hn.
    - destruct Hfam2 as [E|[_ E]]; rewrite E.
      + unfold MATCH_FAMILY in *. rewrite Ff. exact Hf.
      + apply MATCH_FAMILY_of_match. }
  pose proof (create_scan_first_candidate typename (d_family (w_data w2))
                pre m post Hpre2 Hm2) as Hscan.
  rewrite <- Hlist in Hscan.
  destruct (create_type_get_marked_ok ipset_cmd' w2 typename (length pre) m
              _ _ Hname2 Hscan Fk) as (H1 & H2 & H3 & _).
  auto.
Qed.

Lemma create_type_get_asks_kernel_once_witness :
  let w := create_session "nethash" AF_UNSPEC [hash_ip_inet; hash_net] in
  let first := create_type_get (kernel_range 1 3) w in
  let w2 := with_data (snd first) (w_data w) in
  is_found (fst first) = true
  /\ fst (create_type_get (kernel_down (-1)) w2) = fst first
  /\ w_sent (snd (create_type_get (kernel_down (-1)) w2)) = w_sent w2.
Proof.
  split; [reflexivity|].
  pose proof (create_type_get_asks_kernel_once (kernel_range 1 3)
                (kernel_down (-1))
                (create_session "nethash" AF_UNSPEC [hash_ip_inet; hash_net])
                (with_data
                   (snd (create_type_get (kernel_range 1 3)
                           (create_session "nethash" AF_UNSPEC
                              [hash_ip_inet; hash_net])))
                   (w_data (create_session "nethash" AF_UNSPEC
                              [hash_ip_inet; hash_net])))
                (set_kernel_check hash_net IPSET_KERNEL_OK)
                eq_refl eq_refl eq_refl (or_introl eq_refl)) as (H1 & H2 & _).
  split; [exact H1 | exact H2].
Defined.

(** X13.  While [ipset_cmd] fails, [ipset_type_get] changes neither the
    registry nor the cache, for any command: either nothing is sent (the
    answer came from the cache, from a type already marked, or is an
    error found before the kernel is asked), or one command is sent and
    the call ends with the failure of the transport. *)
Theorem ipset_type_get_kernel_unreachable ipset_cmd stack_family c w :
  (forall c' d, fst (ipset_cmd c' d) <> 0)
  -> let r := ipset_type_get ipset_cmd stack_family c w in
     w_typelist (snd r) = w_typelist w
     /\ w_setlist (snd r) = w_setlist w
     /\ (w_sent (snd r) = w_sent w
         \/ exists c' ret,
              w_sent (snd r) = c' :: w_sent w /\ ret <> 0
              /\ fst r = Err_transport ret).
Proof.
  intros Hdown r.
  assert (Hcreate :
    let r := create_type_get ipset_cmd w in
    w_typelist (snd r) = w_typelist w /\ w_setlist (snd r) = w_setlist w
    /\ (w_sent (snd r) = w_sent w
        \/ exists c' ret, w_sent (snd r) = c' :: w_sent w /\ ret <> 0
                          /\ fst r = Err_transport ret)).
  { unfold create_type_get.
    destruct (d_typename (w_data w)) as [typename|]; [|simpl; auto].
    destruct (create_scan typename (d_family (w_data w)) (w_typelist w)
                0 None 0 0) as [[[[i best]|] tmin] tmax]; [|simpl; auto].
    set (w1 := if family_unset best (d_family (w_data w))
               then with_data w _ else w).
    assert (Hw1 : w_typelist w1 = w_typelist w /\ w_setlist w1 = w_setlist w
                  /\ w_sent w1 = w_sent w).
    { unfold w1. destruct (family_unset best (d_family (w_data w))); auto. }
    destruct Hw1 as (T1 & S1 & N1).
    destruct (kernel_check_eqb (t_kernel_check best) IPSET_KERNEL_OK);
      [simpl; auto|].
    destruct (send_fields ipset_cmd IPSET_CMD_TYPE w1)
      as (Stl & Ssl & Ssent & Sret & _).
    pose proof (Hdown IPSET_CMD_TYPE (w_data w1)) as Hret.
    destruct (send ipset_cmd IPSET_CMD_TYPE w1) as [ret w2]. simpl in *.
    rewrite <- Sret in Hret. apply Z.eqb_neq in Hret. rewrite Hret. simpl.
    repeat split; try congruence.
    right. exists IPSET_CMD_TYPE, ret. apply Z.eqb_neq in Hret.
    repeat split; congruence. }
  assert (Hadt :
    let r := adt_type_get ipset_cmd stack_family w in
    w_typelist (snd r) = w_typelist w /\ w_setlist (snd r) = w_setlist w
    /\ (w_sent (snd r) = w_sent w
        \/ exists c' ret, w_sent (snd r) = c' :: w_sent w /\ ret <> 0
                          /\ fst r = Err_transport ret)).
  { unfold adt_type_get.
    destruct (d_setname (w_data w)) as [setname|]; [|simpl; auto].
    destruct (cache_lookup setname (w_setlist w)); [simpl; auto|].
    destruct (send_fields ipset_cmd IPSET_CMD_HEADER w)
      as (Stl & Ssl & Ssent & Sret & _).
    pose proof (Hdown IPSET_CMD_HEADER (w_data w)) as Hret.
    destruct (send ipset_cmd IPSET_CMD_HEADER w) as [ret w2]. simpl in *.
    rewrite <- Sret in Hret. apply Z.eqb_neq in Hret. rewrite Hret. simpl.
    repeat split; try congruence.
    right. exists IPSET_CMD_HEADER, ret. apply Z.eqb_neq in Hret.
    repeat split; congruence. }
  unfold r, ipset_type_get.
  destruct c; try exact Hcreate; try exact Hadt; simpl; auto.
Qed.

Lemma ipset_type_get_kernel_unreachable_witness :
  let w := adt_session "s1" [hash_ip_inet] [] in
  let r := ipset_type_get (kernel_down (-1)) AF_UNSPEC IPSET_CMD_ADD w in
  w_typelist (snd r) = w_typelist w /\ w_setlist (snd r) = w_setlist w.
Proof.
  assert (Hdown : forall (c' : cmd) (d : ipset_data),
             fst (kernel_down (-1) c' d) <> 0) by (intros c' d; discriminate).
  pose proof (ipset_type_get_kernel_unreachable (kernel_down (-1)) AF_UNSPEC
                IPSET_CMD_ADD (adt_session "s1" [hash_ip_inet] []) Hdown)
    as (H1 & H2 & _).
  split; [exact H1 | exact H2].
Defined.

(** X14.  When the two revision ranges are well formed ([tmin <= tmax],
    [kmin <= kmax]) and do not overlap, the error of [create_type_get]
    tells the side that is behind: "upgrade your ipset library" means the
    kernel's lowest revision is above the library's highest, "upgrade
    your kernel" that the kernel's highest is below the library's lowest.
    In both cases the registry is left as it was. *)
Theorem create_type_get_mismatch_direction ipset_cmd w typename i best
    tmin tmax kmin kmax :
  d_typename (w_data w) = Some typename
  -> create_scan typename (d_family (w_data w)) (w_typelist w) 0 None 0 0
     = (Some (i, best), tmin, tmax)
  -> t_kernel_check best <> IPSET_KERNEL_OK
  -> kernel_reports ipset_cmd (Some kmin) kmax
  -> tmin <= tmax -> kmin <= kmax
  -> Z.min tmax kmax < Z.max tmin kmin
  -> let r := create_type_get ipset_cmd w in
     w_typelist (snd r) = w_typelist w
     /\ ((exists family, fst r = Err_upgrade_library family kmin tmax)
         /\ tmax < kmin
         \/ (exists family, fst r = Err_upgrade_kernel family kmax tmin)
            /\ kmax < tmin).
Proof.
  intros Hname Hscan Hcheck Hkernel Ht Hk Hno r.
  destruct (create_type_get_checked ipset_cmd w typename i best tmin tmax
              (Some kmin) kmax Hname Hscan Hcheck Hkernel) as (Hfst & Htl & _).
  fold r in Hfst, Htl. rewrite MAX_max, MIN_min in Hfst, Htl.
  assert (Hgt : (Z.max tmin kmin >? Z.min tmax kmax) = true)
    by (apply Z.gtb_lt; exact Hno).
  rewrite Hgt in Hfst, Htl. split; [exact Htl|].
  destruct (Z.gtb_spec kmin tmax) as [Hlib|Hker].
  - left. split; [eexists; exact Hfst | exact Hlib].
  - right. split; [eexists; exact Hfst | lia].
Qed.

Lemma create_type_get_mismatch_direction_witness :
  let w := create_session "hash:ip" AF_INET
             [sample_type "hash:ip" 5 AF_INET; sample_type "hash:ip" 3 AF_INET] in
  kernel_reports (kernel_range 1 2) (Some 1) 2
  /\ w_typelist (snd (create_type_get (kernel_range 1 2) w)) = w_typelist w.
Proof.
  split; [apply kernel_range_reports|].
  refine (proj1 (create_type_get_mismatch_direction (kernel_range 1 2)
                   (create_session "hash:ip" AF_INET
                      [sample_type "hash:ip" 5 AF_INET;
                       sample_type "hash:ip" 3 AF_INET])
                   "hash:ip" 0%nat (sample_type "hash:ip" 5 AF_INET)
                   3 5 1 2 eq_refl eq_refl _ (kernel_range_reports 1 2)
                   _ _ _)).
  - simpl. discriminate.
  - discriminate.
  - discriminate.
  - reflexivity.
Defined.

(** ** Strictly descending lists *)

Lemma strictly_descending_cons x l :
  strictly_descending (x :: l) = true
  <-> (forall y, In y l -> y < x) /\ strictly_descending l = true.
Proof.
  split.
  - intros H. split.
    + intros y Hy. apply (strictly_descending_head x l y H Hy).
    + apply (strictly_descending_tail x l H).
  - intros [Hall Hl]. destruct l as [|y l]; [reflexivity|].
    change (((y <? x) && strictly_descending (y :: l))%bool = true).
    rewrite Hl, andb_true_r. apply Z.ltb_lt. apply Hall. left. reflexivity.
Qed.

Lemma strictly_descending_insert a r b :
  strictly_descending (a ++ b) = true
  -> (forall x, In x a -> r < x) -> (forall y, In y b -> y < r)
  -> strictly_descending (a ++ r :: b) = true.
Proof.
  induction a as [|x a IH]; simpl app; intros Hab Ha Hb.
  - apply strictly_descending_cons. auto.
  - apply strictly_descending_cons in Hab. destruct Hab as [Hx Hrest].
    apply strictly_descending_cons. split.
    + intros y Hy. apply in_app_or in Hy. destruct Hy as [Hy|[Hy|Hy]].
      * apply Hx. apply in_or_app. left. exact Hy.
      * subst y. apply Ha. left. reflexivity.
      * apply Hx. apply in_or_app. right. exact Hy.
    + apply IH; [exact Hrest | | exact Hb].
      intros y Hy. apply Ha. right. exact Hy.
Qed.

Lemma filter_both_incl (p q : ipset_type -> bool) l x :
  In x (map t_revision (filter (fun t => p t && q t) l))
  -> In x (map t_revision (filter p l)).
Proof.
  rewrite !in_map_iff. intros [t [Hx Ht]]. exists t. split; [exact Hx|].
  apply filter_In in Ht. destruct Ht as [Hin Hpq].
  apply andb_true_iff in Hpq. apply filter_In. tauto.
Qed.

Lemma strictly_descending_filter_both (p q : ipset_type -> bool) l :
  strictly_descending (map t_revision (filter p l)) = true
  -> strictly_descending (map t_revision (filter (fun t => p t && q t) l))
     = true.
Proof.
  induction l as [|t rest IH]; simpl; [reflexivity|].
  destruct (p t); simpl; [|exact IH].
  intros H. apply strictly_descending_cons in H. destruct H as [Hall Hrest].
  destruct (q t); simpl; [|apply IH; exact Hrest].
  apply strictly_descending_cons. split; [|apply IH; exact Hrest].
  intros y Hy. apply Hall. apply (filter_both_incl p q rest y Hy).
Qed.

Lemma last_In (l : list Z) d : l <> [] -> In (last l d) l.
Proof.
  induction l as [|x l IH]; intros H; [contradiction|].
  destruct l as [|y l]; [left; reflexivity|].
  right. change (last (x :: y :: l) d) with (last (y :: l) d).
  apply IH. discriminate.
Qed.

Lemma strictly_descending_last l d x :
  strictly_descending l = true -> In x l -> last l d <= x.
Proof.
  revert d. induction l as [|a l IH]; intros d Hd Hx; [destruct Hx|].
  apply strictly_descending_cons in Hd. destruct Hd as [Hall Hl].
  rewrite last_cons. destruct l as [|b l].
  - simpl. destruct Hx as [Hx|[]]. lia.
  - destruct Hx as [Hx|Hx].
    + subst x. apply Z.lt_le_incl. apply Hall.
      apply last_In. discriminate.
    + apply IH; assumption.
Qed.

Lemma filter_none (p : ipset_type -> bool) l :
  forallb (fun t => negb (p t)) l = true -> filter p l = [].
Proof.
  induction l as [|t rest IH]; simpl; [reflexivity|].
  intros H. apply andb_true_iff in H. destruct H as [Ht Hrest].
  apply negb_true_iff in Ht. rewrite Ht. apply IH. exact Hrest.
Qed.

(** X15.  On a registry in which the candidates for a type name and
    family come in strictly descending revision order, the scan of
    [create_type_get] yields a sound range: [tmax] is the highest revision
    of all candidates, and either the best match is the only candidate of
    its family and [tmin] is 0, or [tmin] is the lowest revision among the
    candidates of that family and lies below [tmax]. *)
Theorem create_scan_descending_range typename family l i best tmin tmax :
  create_scan typename family l 0 None 0 0 = (Some (i, best), tmin, tmax)
  -> strictly_descending (candidate_revisions typename family l) = true
  -> tmax = t_revision best
     /\ (forall c, In c l -> create_candidate typename family c = true
                   -> t_revision c <= tmax)
     /\ ((tmin = 0
          /\ forall c, In c l -> create_candidate typename family c = true
                       -> t_family c = t_family best -> t_revision c = tmax)
         \/ (tmin < tmax
             /\ (exists c, In c l /\ create_candidate typename family c = true
                           /\ t_family c = t_family best
                           /\ t_revision c = tmin)
             /\ forall c, In c l -> create_candidate typename family c = true
                          -> t_family c = t_family best
                          -> tmin <= t_revision c)).
Proof.
  intros Hscan Hdesc.
  destruct (create_scan_result typename family l i best tmin tmax Hscan)
    as (pre & post & Hl & _ & Hpre & Hbest & Hmax & Hmin).
  subst l. unfold candidate_revisions in Hdesc.
  rewrite filter_app, (filter_none _ pre Hpre) in Hdesc. simpl in Hdesc.
  rewrite Hbest in Hdesc. simpl in Hdesc.
  apply strictly_descending_cons in Hdesc. destruct Hdesc as [Hall Hpost].
  assert (Hcases : forall c, In c (pre ++ best :: post)
                     -> create_candidate typename family c = true
                     -> c = best \/ In c post).
  { intros c Hc Hcand. apply in_app_or in Hc.
    destruct Hc as [Hc|[Hc|Hc]]; auto.
    rewrite forallb_forall in Hpre. specialize (Hpre c Hc).
    rewrite Hcand in Hpre. discriminate. }
  assert (Hpostrev : forall c, In c post
                       -> create_candidate typename family c = true
                       -> t_revision c < t_revision best).
  { intros c Hc Hcand. apply Hall. apply in_map. apply filter_In. auto. }
  assert (Hsf : forall c, In c post
                  -> create_candidate typename family c = true
                  -> t_family c = t_family best
                  -> In (t_revision c)
                       (same_family_revisions typename family best post)).
  { intros c Hc Hcand Hfam. unfold same_family_revisions. apply in_map.
    apply filter_In. split; [exact Hc|]. rewrite Hcand, Hfam, Z.eqb_refl.
    reflexivity. }
  assert (Hsfdesc : strictly_descending
                      (same_family_revisions typename family best post)
                    = true).
  { unfold same_family_revisions.
    apply (strictly_descending_filter_both
             (create_candidate typename family)
             (fun t => t_family t =? t_family best) post Hpost). }
  split; [exact Hmax|]. split.
  - intros c Hc Hcand. rewrite Hmax.
    destruct (Hcases c Hc Hcand) as [E|Hin]; [subst; lia|].
    apply Z.lt_le_incl. apply Hpostrev; assumption.
  - destruct (same_family_revisions typename family best post) as [|r rs] eqn:E.
    + left. split; [exact Hmin|].
      intros c Hc Hcand Hfam. rewrite Hmax.
      destruct (Hcases c Hc Hcand) as [Ec|Hin]; [subst; reflexivity|].
      destruct (Hsf c Hin Hcand Hfam).
    + right.
      assert (Hlast : In tmin (r :: rs))
        by (rewrite Hmin; apply last_In; discriminate).
      rewrite <- E in Hlast. unfold same_family_revisions in Hlast.
      apply in_map_iff in Hlast. destruct Hlast as [c [Hrev Hc]].
      apply filter_In in Hc. destruct Hc as [Hc Htest].
      apply andb_true_iff in Htest. destruct Htest as [Hcand Hfam].
      apply Z.eqb_eq in Hfam. split; [|split].
      * rewrite Hmax, <- Hrev. apply Hpostrev; assumption.
      * exists c. repeat split; try assumption.
        apply in_or_app. right. right. exact Hc.
      * intros c' Hc' Hcand' Hfam'.
        destruct (Hcases c' Hc' Hcand') as [Ec|Hin].
        -- subst c'. rewrite <- Hrev. apply Z.lt_le_incl.
           apply Hpostrev; assumption.
        -- rewrite Hmin. apply strictly_descending_last; [exact Hsfdesc|].
           apply Hsf; assumption.
Qed.

Lemma create_scan_descending_range_witness :
  let l := [sample_type "hash:ip" 7 AF_INET; sample_type "hash:ip" 6 AF_INET6;
            sample_type "hash:ip" 5 AF_INET; sample_type "hash:ip" 3 AF_INET] in
  strictly_descending (candidate_revisions "hash:ip" AF_UNSPEC l) = true
  /\ forall c, In c l -> create_candidate "hash:ip" AF_UNSPEC c = true
               -> t_revision c <= 7.
Proof.
  split; [reflexivity|].
  exact (proj1 (proj2 (create_scan_descending_range "hash:ip" AF_UNSPEC
                         [sample_type "hash:ip" 7 AF_INET;
                          sample_type "hash:ip" 6 AF_INET6;
                          sample_type "hash:ip" 5 AF_INET;
                          sample_type "hash:ip" 3 AF_INET]
                         0%nat (sample_type "hash:ip" 7 AF_INET) 3 7
                         eq_refl eq_refl))).
Defined.

(** ** [ipset_type_check] and [ipset_typename_resolve] *)

Lemma check_scan_first typename family revision pre t post :
  forallb (fun x => negb (check_candidate typename family revision x)) pre = true
  -> check_candidate typename family revision t = true
  -> check_scan typename family revision (pre ++ t :: post) = Some t.
Proof.
  unfold check_candidate. intros Hpre Ht.
  induction pre as [|x pre IH]; simpl in *.
  - apply andb_true_iff in Ht. destruct Ht as [Hk Htest].
    apply negb_true_iff in Hk. rewrite Hk, Htest. reflexivity.
  - apply andb_true_iff in Hpre. destruct Hpre as [Hx Hpre].
    rewrite (IH Hpre). apply negb_true_iff in Hx.
    destruct (kernel_check_eqb (t_kernel_check x) IPSET_KERNEL_MISMATCH);
      [reflexivity|].
    simpl in Hx. rewrite Hx. reflexivity.
Qed.

Lemma check_scan_none typename family revision l :
  (forall t, In t l -> check_candidate typename family revision t = false)
  -> check_scan typename family revision l = None.
Proof.
  unfold check_candidate. induction l as [|t rest IH]; intros H; simpl;
    [reflexivity|].
  rewrite IH by (intros t' Ht'; apply H; right; exact Ht').
  pose proof (H t (or_introl eq_refl)) as Ht.
  destruct (kernel_check_eqb (t_kernel_check t) IPSET_KERNEL_MISMATCH);
    [reflexivity|].
  simpl in Ht. rewrite Ht. reflexivity.
Qed.

Lemma check_scan_some typename family revision l :
  (exists t, In t l /\ check_candidate typename family revision t = true)
  -> exists m, check_scan typename family revision l = Some m.
Proof.
  unfold check_candidate. induction l as [|x rest IH]; intros [t [Hin Ht]];
    [destruct Hin|]. simpl.
  destruct (kernel_check_eqb (t_kernel_check x) IPSET_KERNEL_MISMATCH) eqn:Ek.
  - destruct Hin as [E|Hin]; [subst x; rewrite Ek in Ht; discriminate|].
    apply IH. exists t. auto.
  - destruct (ipset_match_typename typename x && MATCH_FAMILY x family
              && (t_revision x =? revision)) eqn:Ex; [eauto|].
    destruct Hin as [E|Hin].
    + subst x. rewrite Ek, Ex in Ht. discriminate.
    + apply IH. exists t. auto.
Qed.

Lemma adt_candidate_check typename family revision t :
  adt_candidate typename family revision t = true
  -> check_candidate typename family revision t = true.
Proof.
  unfold adt_candidate, check_candidate, ipset_match_typename.
  intros H. apply andb_true_iff in H. destruct H as [Hk H]. rewrite Hk.
  destruct (STREQ typename (t_name t)); [|discriminate].
  rewrite Z.eqb_sym. exact H.
Qed.

(** X16.  [ipset_type_check] only reads the registry, the cache and the
    session's report: it sends nothing and marks nothing.  It returns the
    first descriptor, not marked as a mismatch, whose name or alias is the
    reported type name, whose family matches and whose revision is the
    reported one, and fails with the "Kernel and userspace incompatible"
    error when there is none.  Every report that the scan of
    [adt_type_get] accepts is accepted by it as well. *)
Theorem ipset_type_check_reads_only w typename revision :
  d_typename (w_data w) = Some typename
  -> d_revision (w_data w) = Some revision
  -> let family := d_family (w_data w) in
     let r := ipset_type_check w in
     w_typelist (snd r) = w_typelist w
     /\ w_setlist (snd r) = w_setlist w
     /\ w_sent (snd r) = w_sent w
     /\ (forall pre t post,
            w_typelist w = pre ++ t :: post
            -> forallb (fun x => negb (check_candidate typename family
                                         revision x)) pre = true
            -> check_candidate typename family revision t = true
            -> fst r = Type_found t /\ d_type (w_data (snd r)) = Some t)
     /\ ((forall t, In t (w_typelist w)
                    -> check_candidate typename family revision t = false)
         -> fst r = Err_kernel_userspace revision)
     /\ ((exists t, In t (w_typelist w)
                    /\ adt_candidate typename family revision t = true)
         -> is_found (fst r) = true).
Proof.
  intros Hname Hrev family r. unfold r, ipset_type_check.
  rewrite Hname, Hrev. fold family.
  split; [|split; [|split; [|split; [|split]]]].
  - destruct (check_scan typename family revision (w_typelist w)); reflexivity.
  - destruct (check_scan typename family revision (w_typelist w)); reflexivity.
  - destruct (check_scan typename family revision (w_typelist w)); reflexivity.
  - intros pre t post Hl Hpre Ht. rewrite Hl.
    rewrite (check_scan_first typename family revision pre t post Hpre Ht).
    split; reflexivity.
  - intros Hnone. rewrite check_scan_none by exact Hnone. reflexivity.
  - intros [t [Hin Ht]].
    destruct (check_scan_some typename family revision (w_typelist w))
      as [m Hm].
    + exists t. split; [exact Hin|]. apply adt_candidate_check. exact Ht.
    + rewrite Hm. reflexivity.
Qed.

Lemma ipset_type_check_reads_only_witness :
  let w := with_data (adt_session "s1" [hash_ip_mismatch; hash_ip_inet] [])
             (snd (kernel_header "iphash" AF_INET 0 IPSET_CMD_HEADER
                     (w_data (adt_session "s1" [] [])))) in
  fst (ipset_type_check w) = Type_found hash_ip_inet
  /\ w_typelist (snd (ipset_type_check w)) = w_typelist w.
Proof.
  pose proof (ipset_type_check_reads_only
                (with_data
                   (adt_session "s1" [hash_ip_mismatch; hash_ip_inet] [])
                   (snd (kernel_header "iphash" AF_INET 0 IPSET_CMD_HEADER
                           (w_data (adt_session "s1" [] [])))))
                "iphash" 0 eq_refl eq_refl) as (H1 & _ & _ & H4 & _).
  split; [|exact H1].
  exact (proj1 (H4 [hash_ip_mismatch] hash_ip_inet [] eq_refl eq_refl eq_refl)).
Defined.

Lemma ipset_typename_resolve_None str l :
  ipset_typename_resolve str l = None
  <-> forall t, In t l -> ipset_match_typename str t = false.
Proof.
  induction l as [|x rest IH]; simpl.
  - split; [intros _ t [] | reflexivity].
  - destruct (ipset_match_typename str x) eqn:E.
    + split; [discriminate|]. intros H.
      rewrite (H x (or_introl eq_refl)) in E. discriminate.
    + rewrite IH. split.
      * intros H t [Ht|Ht]; [subst; exact E | apply H; exact Ht].
      * intros H t Ht. apply H. right. exact Ht.
Qed.

(** X17.  [ipset_typename_resolve] returns the canonical name of the first
    registered descriptor that has the given string as its name or as an
    alias, and NULL exactly when no registered descriptor has; in that
    case [create_type_get] for the string fails with the "unknown
    settype" error, for every family, without a command to the kernel. *)
Theorem ipset_typename_resolve_first str typelist :
  (ipset_typename_resolve str typelist = None
   <-> forall t, In t typelist -> ipset_match_typename str t = false)
  /\ (forall pre t post,
         typelist = pre ++ t :: post
         -> (forall p, In p pre -> ipset_match_typename str p = false)
         -> ipset_match_typename str t = true
         -> ipset_typename_resolve str typelist = Some (t_name t))
  /\ (ipset_typename_resolve str typelist = None
      -> forall ipset_cmd w,
           d_typename (w_data w) = Some str -> w_typelist w = typelist
           -> create_type_get ipset_cmd w = (Err_unknown_settype, w)).
Proof.
  split; [apply ipset_typename_resolve_None|]. split.
  - intros pre t post Hl Hpre Ht. subst typelist.
    induction pre as [|p pre IH]; simpl.
    + rewrite Ht. reflexivity.
    + rewrite (Hpre p (or_introl eq_refl)). apply IH.
      intros q Hq. apply Hpre. right. exact Hq.
  - intros Hnone ipset_cmd w Hname Hl.
    unfold create_type_get. rewrite Hname, Hl.
    rewrite create_scan_no_match; [reflexivity|].
    intros t Ht. apply ipset_typename_resolve_None with (t := t) in Hnone;
      [|exact Ht].
    rewrite Hnone. reflexivity.
Qed.

(** * Further properties of the registry *)

(** One turn of the insertion loop, spelled out. *)
Lemma type_add_scan_cons type t rest :
  type_add_scan type (t :: rest)
  = let continue_ :=
      match type_add_scan type rest with
      | Scan_inserted r => Scan_inserted (t :: r)
      | other => other
      end in
    let look_ahead :=
      match rest with
      | n :: _ =>
          if STREQ (t_name n) (t_name type) then
            if t_revision n =? t_revision type then Scan_exists
            else if t_revision n <? t_revision type
                 then Scan_inserted (t :: type :: rest)
                 else continue_
          else continue_
      | [] => continue_
      end in
    if STREQ (t_name t) (t_name type) then
      if t_revision t =? t_revision type then Scan_exists
      else if t_revision t <? t_revision type
           then Scan_inserted (type :: t :: rest)
           else look_ahead
    else look_ahead.
Proof. reflexivity. Qed.

(** The loop only ever splices the new descriptor in: what was registered
    stays, in its order. *)
Lemma type_add_scan_inserted_split type l l' :
  type_add_scan type l = Scan_inserted l'
  -> exists pre post, l = pre ++ post /\ l' = pre ++ type :: post.
Proof.
  revert l'. induction l as [|t rest IH]; intros l' H; [discriminate|].
  rewrite type_add_scan_cons in H. cbv zeta in H.
  assert (Hcont :
    match type_add_scan type rest with
    | Scan_inserted r => Scan_inserted (t :: r)
    | other => other
    end = Scan_inserted l'
    -> exists pre post, t :: rest = pre ++ post /\ l' = pre ++ type :: post).
  { destruct (type_add_scan type rest) as [|r|]; try discriminate.
    intros E. inversion E. subst l'.
    destruct (IH r eq_refl) as (pre & post & Hl & Hr).
    exists (t :: pre), post. subst. auto. }
  assert (Hlook :
    match rest with
    | n :: _ =>
        if STREQ (t_name n) (t_name type) then
          if t_revision n =? t_revision type then Scan_exists
          else if t_revision n <? t_revision type
               then Scan_inserted (t :: type :: rest)
               else match type_add_scan type rest with
                    | Scan_inserted r => Scan_inserted (t :: r)
                    | other => other
                    end
        else match type_add_scan type rest with
             | Scan_inserted r => Scan_inserted (t :: r)
             | other => other
             end
    | [] => match type_add_scan type rest with
            | Scan_inserted r => Scan_inserted (t :: r)
            | other => other
            end
    end = Scan_inserted l'
    -> exists pre post, t :: rest = pre ++ post /\ l' = pre ++ type :: post).
  { destruct rest as [|n rest']; [exact Hcont|].
    destruct (STREQ (t_name n) (t_name type)); [|exact Hcont].
    destruct (t_revision n =? t_revision type); [discriminate|].
    destruct (t_revision n <? t_revision type); [|exact Hcont].
    intros E. inversion E. exists [t], (n :: rest'). auto. }
  destruct (STREQ (t_name t) (t_name type)); [|exact (Hlook H)].
  destruct (t_revision t =? t_revision type); [discriminate|].
  destruct (t_revision t <? t_revision type); [|exact (Hlook H)].
  inversion H. exists [], (t :: rest). auto.
Qed.

Lemma type_fill_max_sizes_None IPSET_OPT_MAX IPSET_FLAG IPSET_ADT_FLAGS
    ipset_data_sizeof type :
  type_fill_max_sizes IPSET_OPT_MAX IPSET_FLAG IPSET_ADT_FLAGS
    ipset_data_sizeof type = None
  <-> valid_family (t_family type) = false.
Proof.
  unfold type_fill_max_sizes, valid_family.
  destruct (t_family type =? AF_UNSPEC), (t_family type =? AF_INET),
    (t_family type =? AF_INET6), (t_family type =? AF_INET46); simpl;
    split; intros H; try reflexivity; discriminate.
Qed.

Lemma type_max_size_full_add IPSET_OPT_MAX IPSET_FLAG IPSET_ADT_FLAGS
    ipset_data_sizeof type family :
  t_full_add (type_max_size IPSET_OPT_MAX IPSET_FLAG IPSET_ADT_FLAGS
                ipset_data_sizeof type family) = t_full_add type.
Proof. unfold type_max_size. destruct (family =? AF_INET); reflexivity. Qed.

(** X18.  [ipset_type_add] fails with the bare -1 exactly for a family that
    is none of the four known ones; a call that does not return 0 leaves
    the registry as it was; a call that returns 0 splices the descriptor
    in at one place: every descriptor registered before is still there, in
    the same order, and the new one has the name, the aliases, the
    revision, the family and the kernel mark it was given. *)
Theorem ipset_type_add_splices IPSET_OPT_MAX IPSET_FLAG IPSET_ADT_FLAGS
    ipset_data_sizeof type typelist :
  let r := ipset_type_add IPSET_OPT_MAX IPSET_FLAG IPSET_ADT_FLAGS
             ipset_data_sizeof type typelist in
  (fst r = Type_bad_family <-> valid_family (t_family type) = false)
  /\ (fst r <> Type_added -> snd r = typelist)
  /\ (fst r = Type_added
      -> exists pre post type',
           typelist = pre ++ post /\ snd r = pre ++ type' :: post
           /\ t_name type' = t_name type /\ t_alias type' = t_alias type
           /\ t_revision type' = t_revision type
           /\ t_family type' = t_family type
           /\ t_kernel_check type' = t_kernel_check type).
Proof.
  cbv zeta. unfold ipset_type_add.
  pose proof (type_fill_max_sizes_None IPSET_OPT_MAX IPSET_FLAG
                IPSET_ADT_FLAGS ipset_data_sizeof type) as Hnone.
  destruct (type_fill_max_sizes IPSET_OPT_MAX IPSET_FLAG IPSET_ADT_FLAGS
              ipset_data_sizeof type) as [type'|] eqn:Hfill.
  - assert (Hvalid : valid_family (t_family type) <> false).
    { intros E. apply Hnone in E. discriminate. }
    pose proof (type_fill_max_sizes_fields _ _ _ _ _ _ Hfill) as Hfields.
    destruct (type_add_scan type' typelist) as [|l'|] eqn:Hscan; simpl.
    + split; [split; [discriminate | intros E; contradiction]|].
      split; [reflexivity | discriminate].
    + split; [split; [discriminate | intros E; contradiction]|].
      split; [intros H; exfalso; apply H; reflexivity|].
      intros _. destruct (type_add_scan_inserted_split type' typelist l' Hscan)
        as (pre & post & Hl & Hl').
      exists pre, post, type'. tauto.
    + split; [split; [discriminate | intros E; contradiction]|].
      split; [intros H; exfalso; apply H; reflexivity|].
      intros _. exists [], typelist, type'. simpl. tauto.
  - simpl. split; [split; [intros _; apply Hnone; reflexivity | reflexivity]|].
    split; [reflexivity | discriminate].
Qed.

Lemma ipset_type_add_added IPSET_OPT_MAX IPSET_FLAG IPSET_ADT_FLAGS
    ipset_data_sizeof type typelist :
  fst (ipset_type_add IPSET_OPT_MAX IPSET_FLAG IPSET_ADT_FLAGS
         ipset_data_sizeof type typelist) = Type_added
  -> exists pre post type',
       typelist = pre ++ post
       /\ snd (ipset_type_add IPSET_OPT_MAX IPSET_FLAG IPSET_ADT_FLAGS
                 ipset_data_sizeof type typelist) = pre ++ type' :: post
       /\ type_fill_max_sizes IPSET_OPT_MAX IPSET_FLAG IPSET_ADT_FLAGS
            ipset_data_sizeof type = Some type'.
Proof.
  unfold ipset_type_add.
  destruct (type_fill_max_sizes IPSET_OPT_MAX IPSET_FLAG IPSET_ADT_FLAGS
              ipset_data_sizeof type) as [type'|] eqn:Hfill; [|discriminate].
  destruct (type_add_scan type' typelist) as [|l'|] eqn:Hscan; simpl;
    [discriminate| |].
  - intros _. destruct (type_add_scan_inserted_split type' typelist l' Hscan)
      as (pre & post & Hl & Hl').
    exists pre, post, type'. auto.
  - intros _. exists [], typelist, type'. auto.
Qed.

Lemma create_scan_finds typename family l k tmin tmax :
  (exists t, In t l /\ create_candidate typename family t = true)
  -> exists i best tmin' tmax',
       create_scan typename family l k None tmin tmax
       = (Some (i, best), tmin', tmax').
Proof.
  unfold create_candidate. revert k.
  induction l as [|x rest IH]; intros k [t [Hin Ht]]; [destruct Hin|]. simpl.
  destruct (kernel_check_eqb (t_kernel_check x) IPSET_KERNEL_MISMATCH) eqn:Ek.
  - destruct Hin as [E|Hin]; [subst x; rewrite Ek in Ht; discriminate|].
    apply IH. exists t. auto.
  - destruct (ipset_match_typename typename x && MATCH_FAMILY x family) eqn:Ex.
    + rewrite create_scan_tmin. eauto.
    + destruct Hin as [E|Hin]; [subst x; rewrite Ek, Ex in Ht; discriminate|].
      apply IH. exists t. auto.
Qed.

(** X19.  A descriptor that [ipset_type_add] has accepted is known from
    then on: [ipset_typename_resolve] answers for its name and for each of
    its aliases, and, unless it was registered as a kernel mismatch,
    [create_type_get] for that name and a family it serves does not fail
    with the "unknown settype" error. *)
Theorem ipset_type_add_then_known IPSET_OPT_MAX IPSET_FLAG IPSET_ADT_FLAGS
    ipset_data_sizeof type typelist str :
  fst (ipset_type_add IPSET_OPT_MAX IPSET_FLAG IPSET_ADT_FLAGS
         ipset_data_sizeof type typelist) = Type_added
  -> ipset_match_typename str type = true
  -> let l' := snd (ipset_type_add IPSET_OPT_MAX IPSET_FLAG IPSET_ADT_FLAGS
                      ipset_data_sizeof type typelist) in
     ipset_typename_resolve str l' <> None
     /\ (t_kernel_check type <> IPSET_KERNEL_MISMATCH
         -> forall ipset_cmd w,
              d_typename (w_data w) = Some str
              -> MATCH_FAMILY type (d_family (w_data w)) = true
              -> w_typelist w = l'
              -> fst (create_type_get ipset_cmd w) <> Err_unknown_settype).
Proof.
  intros Hadd Hmatch l'.
  destruct (ipset_type_add_added _ _ _ _ _ _ Hadd)
    as (pre & post & type' & _ & Hl' & Hfill).
  fold l' in Hl'.
  destruct (type_fill_max_sizes_fields _ _ _ _ _ _ Hfill)
    as (Fn & Fa & _ & Ff & Fk).
  assert (Hmatch' : ipset_match_typename str type' = true).
  { unfold ipset_match_typename in *. rewrite Fn, Fa. exact Hmatch. }
  assert (Hin : In type' l').
  { rewrite Hl'. apply in_or_app. right. left. reflexivity. }
  split.
  - intros Hnone. rewrite ipset_typename_resolve_None in Hnone.
    rewrite (Hnone type' Hin) in Hmatch'. discriminate.
  - intros Hk ipset_cmd w Hname Hfam Hl.
    destruct (create_scan_finds str (d_family (w_data w)) l' 0 0 0)
      as (i & best & tmin & tmax & Hscan).
    { exists type'. split; [exact Hin|]. unfold create_candidate.
      rewrite Hmatch', Fk. unfold MATCH_FAMILY in *. rewrite Ff, Hfam.
      apply kernel_check_eqb_neq in Hk. rewrite Hk. reflexivity. }
    unfold create_type_get. rewrite Hname, Hl, Hscan.
    destruct (kernel_check_eqb (t_kernel_check best) IPSET_KERNEL_OK);
      [discriminate|].
    match goal with
    | |- context [send ipset_cmd IPSET_CMD_TYPE ?w1] =>
        destruct (send ipset_cmd IPSET_CMD_TYPE w1) as [ret w2]
    end.
    destruct (negb (ret =? 0)); [discriminate|].
    destruct (d_revision (w_data w2)); [|discriminate].
    destruct (MAX tmin _ >? MIN tmax z);
      [destruct (_ >? tmax); discriminate | discriminate].
Qed.

Lemma ipset_type_add_then_known_witness :
  let l' := snd (sample_type_add hash_net [hash_ip_inet]) in
  fst (sample_type_add hash_net [hash_ip_inet]) = Type_added
  /\ ipset_typename_resolve "nethash" l' <> None.
Proof.
  split; [reflexivity|].
  exact (proj1 (ipset_type_add_then_known sample_OPT_MAX sample_FLAG
                  sample_ADT_FLAGS sample_sizeof hash_net [hash_ip_inet]
                  "nethash" eq_refl eq_refl)).
Defined.

(** ** The order [ipset_type_add] keeps *)

Lemma revisions_of_app name a b :
  revisions_of name (a ++ b) = revisions_of name a ++ revisions_of name b.
Proof. unfold revisions_of. rewrite filter_app, map_app. reflexivity. Qed.

Lemma revisions_of_In name l t :
  In t l -> STREQ (t_name t) name = true
  -> In (t_revision t) (revisions_of name l).
Proof.
  intros Hin Hname. unfold revisions_of. apply in_map. apply filter_In. auto.
Qed.

(** With no registered revision of the name at or below the new one, the
    loop runs off the list. *)
Lemma type_add_scan_no_lower type l :
  (forall t, In t l -> STREQ (t_name t) (t_name type) = true
             -> t_revision type < t_revision t)
  -> type_add_scan type l = Scan_end.
Proof.
  induction l as [|t rest IH]; intros H; [reflexivity|].
  rewrite type_add_scan_cons. cbv zeta.
  rewrite IH by (intros x Hx; apply H; right; exact Hx).
  assert (Hlook :
    match rest with
    | n :: _ =>
        if STREQ (t_name n) (t_name type) then
          if t_revision n =? t_revision type then Scan_exists
          else if t_revision n <? t_revision type
               then Scan_inserted (t :: type :: rest)
               else Scan_end
        else Scan_end
    | [] => Scan_end
    end = Scan_end).
  { destruct rest as [|n rest']; [reflexivity|].
    destruct (STREQ (t_name n) (t_name type)) eqn:En; [|reflexivity].
    pose proof (H n (or_intror (or_introl eq_refl)) En) as Hn.
    destruct (Z.eqb_spec (t_revision n) (t_revision type)); [lia|].
    destruct (Z.ltb_spec (t_revision n) (t_revision type)); [lia|].
    reflexivity. }
  destruct (STREQ (t_name t) (t_name type)) eqn:Et; [|exact Hlook].
  pose proof (H t (or_introl eq_refl) Et) as Ht.
  destruct (Z.eqb_spec (t_revision t) (t_revision type)); [lia|].
  destruct (Z.ltb_spec (t_revision t) (t_revision type)); [lia|].
  exact Hlook.
Qed.

(** The loop splices the new descriptor in front of the first registered
    descriptor of the name that has a lower revision. *)
Lemma type_add_scan_before_lower type pre t post :
  (forall p, In p pre -> STREQ (t_name p) (t_name type) = true
             -> t_revision type < t_revision p)
  -> STREQ (t_name t) (t_name type) = true
  -> t_revision t < t_revision type
  -> type_add_scan type (pre ++ t :: post)
     = Scan_inserted (pre ++ type :: t :: post).
Proof.
  intros Hpre Ht Hlt.
  assert (Hhead : type_add_scan type (t :: post)
                  = Scan_inserted (type :: t :: post)).
  { rewrite type_add_scan_cons. cbv zeta. rewrite Ht.
    destruct (Z.eqb_spec (t_revision t) (t_revision type)); [lia|].
    destruct (Z.ltb_spec (t_revision t) (t_revision type)); [|lia].
    reflexivity. }
  induction pre as [|p pre IH]; [exact Hhead|].
  simpl app. rewrite type_add_scan_cons. cbv zeta.
  rewrite IH by (intros x Hx; apply Hpre; right; exact Hx).
  assert (Hlook :
    match pre ++ t :: post with
    | n :: _ =>
        if STREQ (t_name n) (t_name type) then
          if t_revision n =? t_revision type then Scan_exists
          else if t_revision n <? t_revision type
               then Scan_inserted (p :: type :: pre ++ t :: post)
               else Scan_inserted (p :: pre ++ type :: t :: post)
        else Scan_inserted (p :: pre ++ type :: t :: post)
    | [] => Scan_inserted (p :: pre ++ type :: t :: post)
    end = Scan_inserted (p :: pre ++ type :: t :: post)).
  { destruct pre as [|n pre']; simpl app; cbv iota.
    - rewrite Ht.
      destruct (Z.eqb_spec (t_revision t) (t_revision type)); [lia|].
      destruct (Z.ltb_spec (t_revision t) (t_revision type)); reflexivity.
    - destruct (STREQ (t_name n) (t_name type)) eqn:En; [|reflexivity].
      pose proof (Hpre n (or_intror (or_introl eq_refl)) En) as Hn.
      destruct (Z.eqb_spec (t_revision n) (t_revision type)); [lia|].
      destruct (Z.ltb_spec (t_revision n) (t_revision type)); [lia|].
      reflexivity. }
  destruct (STREQ (t_name p) (t_name type)) eqn:Ep; [|exact Hlook].
  pose proof (Hpre p (or_introl eq_refl) Ep) as Hp.
  destruct (Z.eqb_spec (t_revision p) (t_revision type)); [lia|].
  destruct (Z.ltb_spec (t_revision p) (t_revision type)); [lia|].
  exact Hlook.
Qed.

(** The first registered descriptor of a name below a revision that is not
    registered. *)
Lemma first_lower_revision name r l :
  ~ In r (revisions_of name l)
  -> (exists t, In t l /\ STREQ (t_name t) name = true /\ t_revision t < r)
  -> exists pre t post,
       l = pre ++ t :: post
       /\ STREQ (t_name t) name = true /\ t_revision t < r
       /\ forall p, In p pre -> STREQ (t_name p) name = true
                    -> r < t_revision p.
Proof.
  induction l as [|x rest IH]; intros Hnew [t [Hin [Hname Hlt]]];
    [destruct Hin|].
  destruct (STREQ (t_name x) name) eqn:Ex.
  - destruct (Z.lt_trichotomy (t_revision x) r) as [Hx|[Hx|Hx]].
    + exists [], x, rest. simpl. repeat split; auto. intros p [].
    + exfalso. apply Hnew. rewrite <- Hx.
      apply revisions_of_In; [left; reflexivity | exact Ex].
    + destruct Hin as [E|Hin]; [subst x; lia|].
      destruct IH as (pre & t' & post & Hl & Hn' & Hlt' & Hpre).
      * intros H. apply Hnew. unfold revisions_of in *. simpl.
        rewrite Ex. right. exact H.
      * exists t. auto.
      * exists (x :: pre), t', post. subst rest. repeat split; auto.
        intros p [E|Hp] Hpn; [subst p; exact Hx | apply Hpre; assumption].
  - destruct Hin as [E|Hin]; [subst x; congruence|].
    destruct IH as (pre & t' & post & Hl & Hn' & Hlt' & Hpre).
    + intros H. apply Hnew. unfold revisions_of in *. simpl.
      rewrite Ex. exact H.
    + exists t. auto.
    + exists (x :: pre), t', post. subst rest. repeat split; auto.
      intros p [E|Hp] Hpn; [subst p; congruence | apply Hpre; assumption].
Qed.

Lemma strictly_descending_app_tail a b :
  strictly_descending (a ++ b) = true -> strictly_descending b = true.
Proof.
  induction a as [|x a IH]; simpl app; [auto|].
  intros H. apply strictly_descending_cons in H. apply IH. apply H.
Qed.

(** Whether some registered descriptor of the name has a revision below
    [r] can be told by looking. *)
Lemma classic_lower name r l :
  (exists t, In t l /\ STREQ (t_name t) name = true /\ t_revision t < r)
  \/ ~ (exists t, In t l /\ STREQ (t_name t) name = true /\ t_revision t < r).
Proof.
  induction l as [|x rest IH].
  - right. intros [t [[] _]].
  - destruct IH as [[t [Hin H]]|Hno].
    + left. exists t. split; [right; exact Hin | exact H].
    + destruct (STREQ (t_name x) name) eqn:Ex.
      * destruct (Z.ltb_spec (t_revision x) r) as [Hlt|Hge].
        -- left. exists x. split; [left; reflexivity | auto].
        -- right. intros [t [[E|Hin] [Hn Hlt]]].
           ++ subst t. lia.
           ++ apply Hno. exists t. auto.
      * right. intros [t [[E|Hin] [Hn Hlt]]].
        -- subst t. congruence.
        -- apply Hno. exists t. auto.
Qed.

(** X20.  On a registry in which the revisions of a name are strictly
    descending, [ipset_type_add] of a new revision of that name returns 0,
    and the revisions of the name are strictly descending afterwards
    exactly when the name had no revision yet or the new revision is above
    some registered one; a new revision below all registered ones is put
    in front of them.  The revisions registered under other names are not
    touched. *)
Theorem ipset_type_add_keeps_descending IPSET_OPT_MAX IPSET_FLAG
    IPSET_ADT_FLAGS ipset_data_sizeof type typelist :
  valid_family (t_family type) = true
  -> strictly_descending (revisions_of (t_name type) typelist) = true
  -> ~ In (t_revision type) (revisions_of (t_name type) typelist)
  -> let r := ipset_type_add IPSET_OPT_MAX IPSET_FLAG IPSET_ADT_FLAGS
                ipset_data_sizeof type typelist in
     fst r = Type_added
     /\ (strictly_descending (revisions_of (t_name type) (snd r)) = true
         <-> revisions_of (t_name type) typelist = []
             \/ exists old, In old (revisions_of (t_name type) typelist)
                            /\ old < t_revision type)
     /\ (forall other, other <> t_name type
            -> revisions_of other (snd r) = revisions_of other typelist).
Proof.
  intros Hfam Hdesc Hnew r.
  destruct (type_fill_max_sizes_valid IPSET_OPT_MAX IPSET_FLAG IPSET_ADT_FLAGS
              ipset_data_sizeof type Hfam) as [type' Hfill].
  destruct (type_fill_max_sizes_fields _ _ _ _ _ _ Hfill)
    as (Fn & _ & Fr & _ & _).
  set (name := t_name type) in *. set (rev := t_revision type) in *.
  assert (Hself : revisions_of name [type'] = [rev]).
  { unfold revisions_of. simpl. rewrite Fn. unfold name.
    rewrite STREQ_refl. simpl. rewrite Fr. reflexivity. }
  assert (Hother : forall other, other <> name
                     -> revisions_of other [type'] = []).
  { intros other Hne. unfold revisions_of. simpl. rewrite Fn.
    destruct (STREQ name other) eqn:E; [|reflexivity].
    apply STREQ_eq in E. congruence. }
  destruct (classic_lower name rev typelist) as [Hlow|Hnone].
  - (* some registered revision of the name is lower *)
    destruct (first_lower_revision name rev typelist Hnew Hlow)
      as (pre & t & post & Hl & Hnt & Hlt & Hpre).
    assert (Hscan : type_add_scan type' typelist
                    = Scan_inserted (pre ++ type' :: t :: post)).
    { rewrite Hl. apply type_add_scan_before_lower; rewrite ?Fn, ?Fr; auto. }
    assert (Hr : r = (Type_added, pre ++ [type'] ++ t :: post)).
    { unfold r, ipset_type_add. rewrite Hfill, Hscan. reflexivity. }
    rewrite Hr. cbn [fst snd]. split; [reflexivity|]. split.
    + split.
      * intros _. right. exists (t_revision t). split; [|exact Hlt].
        apply revisions_of_In; [|exact Hnt]. rewrite Hl.
        apply in_or_app. right. left. reflexivity.
      * intros _. rewrite !revisions_of_app, Hself. simpl app.
        rewrite Hl, revisions_of_app in Hdesc.
        apply strictly_descending_insert; [exact Hdesc| |].
        -- intros x Hx. unfold revisions_of in Hx. apply in_map_iff in Hx.
           destruct Hx as [p [Hrev Hp]]. apply filter_In in Hp.
           destruct Hp as [Hp Hpn]. subst x. apply Hpre; assumption.
        -- apply strictly_descending_app_tail in Hdesc.
           unfold revisions_of in Hdesc |- *. simpl in Hdesc |- *.
           rewrite Hnt in Hdesc |- *. simpl in Hdesc |- *.
           apply strictly_descending_cons in Hdesc. destruct Hdesc as [Hall _].
           intros y [Hy|Hy]; [subst y; exact Hlt|].
           specialize (Hall y Hy). lia.
    + intros other Hne. rewrite Hl, !revisions_of_app, (Hother other Hne).
      reflexivity.
  - (* every registered revision of the name is higher *)
    assert (Hhigh : forall t, In t typelist
                      -> STREQ (t_name t) name = true -> rev < t_revision t).
    { intros t Hin Hn.
      destruct (Z.lt_trichotomy (t_revision t) rev) as [H|[H|H]];
        [|exfalso|exact H].
      - exfalso. apply Hnone. exists t. auto.
      - apply Hnew. rewrite <- H. apply revisions_of_In; assumption. }
    assert (Hscan : type_add_scan type' typelist = Scan_end).
    { apply type_add_scan_no_lower. rewrite Fn, Fr. exact Hhigh. }
    assert (Hr : r = (Type_added, [type'] ++ typelist)).
    { unfold r, ipset_type_add. rewrite Hfill, Hscan. reflexivity. }
    rewrite Hr. cbn [fst snd]. split; [reflexivity|]. split.
    + rewrite revisions_of_app, Hself. simpl app. split.
      * intros H. destruct (revisions_of name typelist) as [|x xs] eqn:E;
          [left; reflexivity|].
        exfalso. apply strictly_descending_cons in H. destruct H as [Hall _].
        specialize (Hall x (or_introl eq_refl)).
        assert (Hx : In x (revisions_of name typelist))
          by (rewrite E; left; reflexivity).
        unfold revisions_of in Hx. apply in_map_iff in Hx.
        destruct Hx as [t [Hrev Ht]]. apply filter_In in Ht.
        destruct Ht as [Hin Hn]. specialize (Hhigh t Hin Hn). lia.
      * intros [E|[old [Hold Hlt]]].
        -- rewrite E. reflexivity.
        -- exfalso. unfold revisions_of in Hold. apply in_map_iff in Hold.
           destruct Hold as [t [Hrev Ht]]. apply filter_In in Ht.
           destruct Ht as [Hin Hn]. specialize (Hhigh t Hin Hn). lia.
    + intros other Hne. rewrite revisions_of_app, (Hother other Hne).
      reflexivity.
Qed.

Lemma ipset_type_add_keeps_descending_witness :
  let l := [sample_type "hash:ip" 5 AF_INET; sample_type "hash:ip" 3 AF_INET] in
  let r := sample_type_add (sample_type "hash:ip" 4 AF_INET) l in
  fst r = Type_added
  /\ strictly_descending (revisions_of "hash:ip" (snd r)) = true.
Proof.
  assert (Hnew : ~ In 4 (revisions_of "hash:ip"
                           [sample_type "hash:ip" 5 AF_INET;
                            sample_type "hash:ip" 3 AF_INET])).
  { simpl. intros [H|[H|[]]]; discriminate. }
  pose proof (ipset_type_add_keeps_descending sample_OPT_MAX sample_FLAG
                sample_ADT_FLAGS sample_sizeof (sample_type "hash:ip" 4 AF_INET)
                [sample_type "hash:ip" 5 AF_INET; sample_type "hash:ip" 3 AF_INET]
                eq_refl eq_refl Hnew) as (H1 & H2 & _).
  split; [exact H1|]. apply H2. right. exists 3. split.
  - simpl. right. left. reflexivity.
  - reflexivity.
Defined.

(** ** The sizes [type_max_size] fills in *)

Lemma size_t_wrap_range z : 0 <= size_t_wrap z < 2 ^ 64.
Proof. unfold size_t_wrap. apply Z.mod_pos_bound. reflexivity. Qed.

Section MaxSize.

Variable IPSET_OPT_MAX : nat.
Variable IPSET_FLAG : nat -> Z.
Variable IPSET_ADT_FLAGS : Z.
Variable ipset_data_sizeof : nat -> Z -> Z.

Local Abbreviation max_sum :=
  (type_max_size_sum IPSET_OPT_MAX IPSET_FLAG IPSET_ADT_FLAGS ipset_data_sizeof).
Local Abbreviation fill_sizes :=
  (type_fill_max_sizes IPSET_OPT_MAX IPSET_FLAG IPSET_ADT_FLAGS
     ipset_data_sizeof).
Local Abbreviation counted :=
  (counted_options IPSET_OPT_MAX IPSET_FLAG IPSET_ADT_FLAGS).

(** The loop with its wrap-around at every step, against the plain sum. *)
Lemma type_max_size_fold type family opts acc :
  0 <= acc < 2 ^ 64
  -> fold_left
       (fun max opt =>
          if Z.land (IPSET_FLAG opt) IPSET_ADT_FLAGS =? 0 then max
          else if Z.land (IPSET_FLAG opt) (t_full_add type) =? 0 then max
          else size_t_wrap (max + ipset_data_sizeof opt family))
       opts acc
     = (acc + sizes_total ipset_data_sizeof family
                (filter (fun opt =>
                           negb (Z.land (IPSET_FLAG opt) IPSET_ADT_FLAGS =? 0)
                           && negb (Z.land (IPSET_FLAG opt) (t_full_add type)
                                    =? 0)) opts)) mod 2 ^ 64.
Proof.
  revert acc. induction opts as [|opt opts IH]; intros acc Hacc; simpl.
  - rewrite Z.add_0_r. symmetry. apply Z.mod_small. exact Hacc.
  - destruct (Z.land (IPSET_FLAG opt) IPSET_ADT_FLAGS =? 0); simpl;
      [apply IH; exact Hacc|].
    destruct (Z.land (IPSET_FLAG opt) (t_full_add type) =? 0); simpl;
      [apply IH; exact Hacc|].
    rewrite IH by apply size_t_wrap_range. unfold size_t_wrap.
    rewrite Zplus_mod_idemp_l. f_equal. lia.
Qed.

(** X21.  The size [type_max_size] stores is the sum, modulo [2^64], of
    [ipset_data_sizeof] over the options whose flag is both in
    [IPSET_ADT_FLAGS] and in the flags of the add command of the type.
    [ipset_type_add] stores it for IPv4 in the first slot when the family
    is [AF_INET] or [AF_UNSPEC], for IPv6 in the second slot when it is
    [AF_INET6], both when it is [AF_INET46]; a slot that is not stored
    keeps what the caller had put there. *)
Theorem type_max_size_is_wrapped_total type :
  (forall family,
      max_sum type family
      = sizes_total ipset_data_sizeof family (counted type) mod 2 ^ 64)
  /\ (forall type',
         fill_sizes type = Some type'
         -> t_maxsize_inet type'
            = (if t_family type =? AF_INET6 then t_maxsize_inet type
               else max_sum type AF_INET)
            /\ t_maxsize_inet6 type'
               = (if (t_family type =? AF_INET6) || (t_family type =? AF_INET46)
                  then max_sum type AF_INET6
                  else t_maxsize_inet6 type)).
Proof.
  split.
  - intros family. unfold type_max_size_sum, counted_options.
    rewrite type_max_size_fold by (split; [reflexivity | reflexivity]).
    reflexivity.
  - intros type'. unfold type_fill_max_sizes, type_max_size.
    destruct (t_family type =? AF_UNSPEC) eqn:E0.
    + apply Z.eqb_eq in E0. rewrite E0. simpl. intros H. inversion H.
      simpl. auto.
    + destruct (t_family type =? AF_INET) eqn:E1.
      * apply Z.eqb_eq in E1. rewrite E1. simpl. intros H. inversion H.
        simpl. auto.
      * simpl orb. cbv iota. destruct (t_family type =? AF_INET6) eqn:E2.
        -- simpl. intros H. inversion H. simpl. auto.
        -- destruct (t_family type =? AF_INET46) eqn:E3; [|discriminate].
           simpl. intros H. inversion H. simpl. auto.
Qed.

End MaxSize.

Lemma type_max_size_is_wrapped_total_witness :
  let type' := {| t_name := "hash:net"; t_alias := ["nethash"];
                  t_revision := 2; t_family := AF_INET46;
                  t_kernel_check := IPSET_KERNEL_CHECK_NEEDED;
                  t_full_add := 2; t_maxsize_inet := 4;
                  t_maxsize_inet6 := 16 |} in
  type_fill_max_sizes sample_OPT_MAX sample_FLAG sample_ADT_FLAGS
    sample_sizeof hash_net = Some type'
  /\ t_maxsize_inet type'
     = type_max_size_sum sample_OPT_MAX sample_FLAG sample_ADT_FLAGS
         sample_sizeof hash_net AF_INET.
Proof.
  split; [reflexivity|].
  exact (proj1 (proj2 (type_max_size_is_wrapped_total sample_OPT_MAX
                         sample_FLAG sample_ADT_FLAGS sample_sizeof hash_net)
                  _ eq_refl)).
Defined.

(** * What the lookups leave untouched *)

Lemma cache_lookup_same_types setname l1 l2 :
  names l1 = names l2 -> map s_type l1 = map s_type l2
  -> option_map s_type (cache_lookup setname l1)
     = option_map s_type (cache_lookup setname l2).
Proof.
  revert l2. induction l1 as [|s1 l1 IH]; intros [|s2 l2] Hn Ht;
    try discriminate; [reflexivity|].
  simpl in *. inversion Hn as [[Hname Hnames]]. inversion Ht as [[Htype Htypes]].
  rewrite Hname. destruct (STREQ setname (s_name s2)); simpl.
  - rewrite Htype. reflexivity.
  - apply IH; assumption.
Qed.

(** X22.  The family recorded with a cached set is never read by
    [adt_type_get]: two caches that hold the same names with the same
    types, whatever the families, give the same result, the same session
    data, the same registry and the same commands sent. *)
Theorem adt_type_get_ignores_cached_family ipset_cmd stack_family w l2 :
  names l2 = names (w_setlist w)
  -> map s_type l2 = map s_type (w_setlist w)
  -> let r1 := adt_type_get ipset_cmd stack_family w in
     let r2 := adt_type_get ipset_cmd stack_family (with_setlist w l2) in
     fst r1 = fst r2
     /\ w_data (snd r1) = w_data (snd r2)
     /\ w_typelist (snd r1) = w_typelist (snd r2)
     /\ w_sent (snd r1) = w_sent (snd r2).
Proof.
  intros Hn Ht r1 r2. unfold r1, r2, adt_type_get. simpl.
  destruct (d_setname (w_data w)) as [setname|]; [|simpl; auto].
  pose proof (cache_lookup_same_types setname l2 (w_setlist w) Hn Ht) as Hsame.
  destruct (cache_lookup setname (w_setlist w)) as [s1|],
           (cache_lookup setname l2) as [s2|]; simpl in Hsame;
    try discriminate.
  - inversion Hsame as [Hs]. rewrite Hs. simpl. auto.
  - unfold send. simpl.
    destruct (ipset_cmd IPSET_CMD_HEADER (w_data w)) as [ret data2]. simpl.
    destruct (negb (ret =? 0)); [simpl; auto|].
    destruct (d_typename data2); [|simpl; auto].
    destruct (d_revision data2); [|simpl; auto].
    destruct (adt_scan s (d_family data2) z (w_typelist w)) as [[m l']|];
      simpl; auto.
Qed.

Lemma adt_type_get_ignores_cached_family_witness :
  let w := adt_session "a" [hash_ip_inet] [mk_ipset "a" hash_net AF_INET] in
  fst (adt_type_get (kernel_down (-1)) AF_UNSPEC w)
  = fst (adt_type_get (kernel_down (-1)) AF_UNSPEC
           (with_setlist w [mk_ipset "a" hash_net AF_INET6])).
Proof.
  exact (proj1 (adt_type_get_ignores_cached_family (kernel_down (-1))
                  AF_UNSPEC
                  (adt_session "a" [hash_ip_inet]
                     [mk_ipset "a" hash_net AF_INET])
                  [mk_ipset "a" hash_net AF_INET6] eq_refl eq_refl)).
Defined.

Lemma adt_scan_marks typename family revision l m l' :
  adt_scan typename family revision l = Some (m, l')
  -> exists pre t post,
       l = pre ++ t :: post /\ l' = pre ++ m :: post
       /\ m = set_kernel_check t IPSET_KERNEL_OK
       /\ t_kernel_check t <> IPSET_KERNEL_MISMATCH.
Proof.
  revert l'. induction l as [|x rest IH]; intros l' H; simpl in H;
    [discriminate|].
  assert (Hcont :
    match adt_scan typename family revision rest with
    | Some (m0, rest') => Some (m0, x :: rest')
    | None => None
    end = Some (m, l')
    -> exists pre t post,
         x :: rest = pre ++ t :: post /\ l' = pre ++ m :: post
         /\ m = set_kernel_check t IPSET_KERNEL_OK
         /\ t_kernel_check t <> IPSET_KERNEL_MISMATCH).
  { destruct (adt_scan typename family revision rest) as [[m0 rest']|];
      [|discriminate].
    intros E. inversion E. subst m0 l'.
    destruct (IH rest' eq_refl) as (pre & t & post & Hl & Hl' & Hm & Hk).
    exists (x :: pre), t, post. subst. auto. }
  destruct (kernel_check_eqb (t_kernel_check x) IPSET_KERNEL_MISMATCH) eqn:Ek;
    [exact (Hcont H)|].
  destruct (STREQ typename (t_name x) && MATCH_FAMILY x family
            && (revision =? t_revision x)); [|exact (Hcont H)].
  inversion H. exists [], x, rest. simpl.
  apply kernel_check_eqb_neq in Ek. auto.
Qed.

(** X23.  Whatever the command and whatever the kernel answers,
    [ipset_type_get] adds no set to the cache and removes none, changes no
    cached name or family, and writes the registry in at most one place:
    either the registry is unchanged, or one descriptor, not marked as a
    mismatch, has had its kernel mark set to [IPSET_KERNEL_OK] and nothing
    else has changed.  (That mark is seen through the cached sets that
    point to the descriptor; nothing is said here about the descriptors
    behind the cached sets.) *)
Theorem ipset_type_get_marks_at_most_one ipset_cmd stack_family c w :
  let r := ipset_type_get ipset_cmd stack_family c w in
  names (w_setlist (snd r)) = names (w_setlist w)
  /\ map s_family (w_setlist (snd r)) = map s_family (w_setlist w)
  /\ (w_typelist (snd r) = w_typelist w
      \/ exists pre t post,
           w_typelist w = pre ++ t :: post
           /\ w_typelist (snd r)
              = pre ++ set_kernel_check t IPSET_KERNEL_OK :: post
           /\ t_kernel_check t <> IPSET_KERNEL_MISMATCH).
Proof.
  intros r.
  cut (w_setlist (snd r) = w_setlist w
       /\ (w_typelist (snd r) = w_typelist w
           \/ exists pre t post,
                w_typelist w = pre ++ t :: post
                /\ w_typelist (snd r)
                   = pre ++ set_kernel_check t IPSET_KERNEL_OK :: post
                /\ t_kernel_check t <> IPSET_KERNEL_MISMATCH)).
  { intros (Hnodes & Hreg). rewrite Hnodes. auto. }
  unfold r. clear r.
  assert (Hcreate :
    let r := create_type_get ipset_cmd w in
    w_setlist (snd r) = w_setlist w
    /\ (w_typelist (snd r) = w_typelist w
        \/ exists pre t post,
             w_typelist w = pre ++ t :: post
             /\ w_typelist (snd r)
                = pre ++ set_kernel_check t IPSET_KERNEL_OK :: post
             /\ t_kernel_check t <> IPSET_KERNEL_MISMATCH)).
  { unfold create_type_get.
    destruct (d_typename (w_data w)) as [typename|]; [|simpl; auto].
    destruct (create_scan typename (d_family (w_data w)) (w_typelist w)
                0 None 0 0) as [[[[i best]|] tmin] tmax] eqn:Hscan;
      [|simpl; auto].
    destruct (create_scan_result _ _ _ _ _ _ _ Hscan)
      as (pre & post & Hl & Hlen & _ & Hbest & _).
    set (w1 := if family_unset best (d_family (w_data w))
               then with_data w _ else w).
    assert (Hw1 : w_typelist w1 = w_typelist w /\ w_setlist w1 = w_setlist w).
    { unfold w1. destruct (family_unset best (d_family (w_data w))); auto. }
    destruct Hw1 as (T1 & S1).
    destruct (kernel_check_eqb (t_kernel_check best) IPSET_KERNEL_OK);
      [simpl; auto|].
    destruct (send_fields ipset_cmd IPSET_CMD_TYPE w1) as (Stl & Ssl & _).
    destruct (send ipset_cmd IPSET_CMD_TYPE w1) as [ret w2]. simpl in Stl, Ssl.
    destruct (negb (ret =? 0)); [simpl; split; [|left]; congruence|].
    destruct (d_revision (w_data w2)); [|simpl; split; [|left]; congruence].
    destruct (MAX tmin _ >? MIN tmax z).
    - destruct (_ >? tmax); simpl; split; try left; congruence.
    - simpl. split; [congruence|]. right. exists pre, best, post.
      split; [exact Hl|]. split.
      + rewrite Stl, T1, Hl, <- Hlen. apply type_set_at_split.
      + unfold create_candidate in Hbest. apply andb_true_iff in Hbest.
        destruct Hbest as [Hk _]. apply negb_true_iff in Hk.
        apply kernel_check_eqb_neq in Hk. exact Hk. }
  assert (Hadt :
    let r := adt_type_get ipset_cmd stack_family w in
    w_setlist (snd r) = w_setlist w
    /\ (w_typelist (snd r) = w_typelist w
        \/ exists pre t post,
             w_typelist w = pre ++ t :: post
             /\ w_typelist (snd r)
                = pre ++ set_kernel_check t IPSET_KERNEL_OK :: post
             /\ t_kernel_check t <> IPSET_KERNEL_MISMATCH)).
  { unfold adt_type_get.
    destruct (d_setname (w_data w)) as [setname|]; [|simpl; auto].
    destruct (cache_lookup setname (w_setlist w)); [simpl; auto|].
    destruct (send_fields ipset_cmd IPSET_CMD_HEADER w) as (Stl & Ssl & _).
    destruct (send ipset_cmd IPSET_CMD_HEADER w) as [ret w2]. simpl in Stl, Ssl.
    destruct (negb (ret =? 0)); [simpl; split; [|left]; congruence|].
    destruct (d_typename (w_data w2)); [|simpl; split; [|left]; congruence].
    destruct (d_revision (w_data w2)); [|simpl; split; [|left]; congruence].
    destruct (adt_scan s (d_family (w_data w2)) z (w_typelist w2))
      as [[m l']|] eqn:Hscan; [|simpl; split; [|left]; congruence].
    simpl. split; [congruence|]. right.
    destruct (adt_scan_marks _ _ _ _ _ _ Hscan)
      as (pre & t & post & Hl & Hl' & Hm & Hk).
    exists pre, t, post. rewrite <- Stl, <- Hm. auto. }
  unfold ipset_type_get.
  destruct c; try exact Hcreate; try exact Hadt; simpl; auto.
Qed.

(** * Round trips of the cache and of the registry *)

Lemma swap_label_name a b s :
  s_name (swap_label a b s) = swap_string a b (s_name s).
Proof.
  unfold swap_label, swap_string.
  destruct (STREQ (s_name s) a); [reflexivity|].
  destruct (STREQ (s_name s) b); reflexivity.
Qed.

Lemma STREQ_swap_string a b n x :
  STREQ n (swap_string a b x) = STREQ (swap_string a b n) x.
Proof.
  destruct (STREQ n (swap_string a b x)) eqn:E1; streq.
  - subst n. rewrite swap_string_involutive. symmetry. apply STREQ_refl.
  - symmetry. apply STREQ_neq. intros H. apply E1.
    rewrite <- H. symmetry. apply swap_string_involutive.
Qed.

Lemma cache_lookup_swap_label a b n l :
  cache_lookup n (map (swap_label a b) l)
  = option_map (swap_label a b) (cache_lookup (swap_string a b n) l).
Proof.
  induction l as [|s rest IH]; simpl; [reflexivity|].
  rewrite swap_label_name, STREQ_swap_string.
  destruct (STREQ (swap_string a b n) (s_name s)); [reflexivity | exact IH].
Qed.

Lemma swap_label_type a b s :
  s_type (swap_label a b s) = s_type s
  /\ s_family (swap_label a b s) = s_family s.
Proof.
  unfold swap_label.
  destruct (STREQ (s_name s) a); [split; reflexivity|].
  destruct (STREQ (s_name s) b); split; reflexivity.
Qed.

(** X24.  In a cache with one set per name that holds [a] and [b], after
    [ipset_cache_swap(a, b)] the name [a] leads to the type and family
    that [b] led to, [b] to those of [a], and every other name to what it
    led to before. *)
Theorem ipset_cache_swap_exchanges_lookups strncpy a b l :
  cache_ok strncpy l -> In a (names l) -> In b (names l)
  -> let l' := snd (ipset_cache_swap strncpy a b l) in
     (forall n,
         option_map s_type (cache_lookup n l')
         = option_map s_type (cache_lookup (swap_string a b n) l)
         /\ option_map s_family (cache_lookup n l')
            = option_map s_family (cache_lookup (swap_string a b n) l))
     /\ swap_string a b a = b /\ swap_string a b b = a
     /\ (forall n, n <> a -> n <> b -> swap_string a b n = n).
Proof.
  intros [Hnd Hfit] Ha Hb l'.
  assert (Hfa : strncpy a = a) by (rewrite Forall_forall in Hfit; auto).
  assert (Hfb : strncpy b = b) by (rewrite Forall_forall in Hfit; auto).
  assert (Hl' : l' = map (swap_label a b) l).
  { unfold l'. rewrite ipset_cache_swap_unique by assumption. reflexivity. }
  split; [|split; [|split]].
  - intros n. rewrite Hl', cache_lookup_swap_label.
    destruct (cache_lookup (swap_string a b n) l) as [s|]; simpl;
      [|split; reflexivity].
    destruct (swap_label_type a b s) as [Ht Hf]. rewrite Ht, Hf.
    split; reflexivity.
  - unfold swap_string. rewrite STREQ_refl. reflexivity.
  - unfold swap_string. destruct (STREQ b a) eqn:E; streq; [congruence|].
    rewrite STREQ_refl. reflexivity.
  - intros n Hna Hnb. unfold swap_string.
    apply STREQ_neq in Hna. apply STREQ_neq in Hnb. rewrite Hna, Hnb.
    reflexivity.
Qed.

Lemma ipset_cache_swap_exchanges_lookups_witness :
  let l := cache_run name_copy fresh_calls [] in
  let l' := snd (ipset_cache_swap name_copy "c" "b" l) in
  option_map s_family (cache_lookup "c" l')
  = option_map s_family (cache_lookup (swap_string "c" "b" "c") l).
Proof.
  assert (Hc : In "c" (names (cache_run name_copy fresh_calls [])))
    by (simpl; auto).
  assert (Hb : In "b" (names (cache_run name_copy fresh_calls [])))
    by (simpl; auto).
  exact (proj2 (proj1 (ipset_cache_swap_exchanges_lookups name_copy "c" "b"
                         (cache_run name_copy fresh_calls [])
                         cache_ok_fresh_calls Hc Hb) "c")).
Defined.

(** X25.  Adding a set under a name the cache does not hold and deleting
    that name again restores the cache. *)
Theorem ipset_cache_add_then_del strncpy name type family l :
  strncpy name = name -> ~ In name (names l)
  -> let added := ipset_cache_add strncpy true name type family l in
     fst added = 0
     /\ ipset_cache_del (Some name) (snd added) = (0, l).
Proof.
  intros Hfit Hnew added. unfold added.
  rewrite (ipset_cache_add_fresh strncpy name type family l Hnew).
  simpl fst. simpl snd. split; [reflexivity|]. simpl.
  rewrite cache_del_scan_split; [rewrite app_nil_r; reflexivity | exact Hnew|].
  simpl. exact Hfit.
Qed.

Lemma ipset_cache_add_then_del_witness :
  let l := cache_run name_copy fresh_calls [] in
  ipset_cache_del (Some "list1")
    (snd (ipset_cache_add name_copy true "list1" hash_net AF_INET l))
  = (0, l).
Proof.
  refine (proj2 (ipset_cache_add_then_del name_copy "list1" hash_net AF_INET
                   (cache_run name_copy fresh_calls []) eq_refl _)).
  simpl. intros [H|[H|[]]]; discriminate.
Defined.

Section RegisterInOrder.

Variable IPSET_OPT_MAX : nat.
Variable IPSET_FLAG : nat -> Z.
Variable IPSET_ADT_FLAGS : Z.
Variable ipset_data_sizeof : nat -> Z -> Z.

Local Abbreviation type_add :=
  (ipset_type_add IPSET_OPT_MAX IPSET_FLAG IPSET_ADT_FLAGS ipset_data_sizeof).
Local Abbreviation register :=
  (register_all IPSET_OPT_MAX IPSET_FLAG IPSET_ADT_FLAGS ipset_data_sizeof).

(** A revision above the one at the head of the list, of the same name,
    goes to the head. *)
Lemma ipset_type_add_on_top type l :
  valid_family (t_family type) = true
  -> match l with
     | [] => True
     | t :: _ => t_name t = t_name type /\ t_revision t < t_revision type
     end
  -> exists type',
       type_add type l = (Type_added, type' :: l)
       /\ t_name type' = t_name type /\ t_revision type' = t_revision type.
Proof.
  intros Hfam Hhead.
  destruct (type_fill_max_sizes_valid IPSET_OPT_MAX IPSET_FLAG IPSET_ADT_FLAGS
              ipset_data_sizeof type Hfam) as [type' Hfill].
  destruct (type_fill_max_sizes_fields _ _ _ _ _ _ Hfill)
    as (Fn & _ & Fr & _ & _).
  exists type'. split; [|auto].
  unfold ipset_type_add. rewrite Hfill.
  destruct l as [|t rest]; [reflexivity|].
  destruct Hhead as [Hn Hlt].
  rewrite type_add_scan_cons. cbv zeta. rewrite Fn, Fr, Hn, STREQ_refl.
  destruct (Z.eqb_spec (t_revision t) (t_revision type)); [lia|].
  destruct (Z.ltb_spec (t_revision t) (t_revision type)); [|lia].
  reflexivity.
Qed.

Lemma register_in_order name types l :
  (forall t, In t types -> t_name t = name /\ valid_family (t_family t) = true)
  -> (forall t, In t l -> t_name t = name)
  -> strictly_descending (rev (map t_revision types) ++ map t_revision l) = true
  -> map t_revision (register types l)
     = rev (map t_revision types) ++ map t_revision l
     /\ forall t, In t (register types l) -> t_name t = name.
Proof.
  revert l. induction types as [|ty tys IH]; intros l Htypes Hl Hdesc.
  - simpl. auto.
  - simpl rev in *. rewrite <- app_assoc in *. simpl app in *.
    destruct (Htypes ty (or_introl eq_refl)) as [Hn Hfam].
    destruct (ipset_type_add_on_top ty l Hfam) as (ty' & Hadd & Fn & Fr).
    { destruct l as [|t rest]; [exact I|]. split.
      - rewrite Hn. apply Hl. left. reflexivity.
      - apply strictly_descending_app_tail in Hdesc.
        apply strictly_descending_cons in Hdesc. apply Hdesc.
        left. reflexivity. }
    simpl register_all. rewrite Hadd. simpl snd.
    destruct (IH (ty' :: l)) as [Hrev Hnames].
    + intros t Ht. apply Htypes. right. exact Ht.
    + intros t [E|Ht]; [subst t; congruence | apply Hl; exact Ht].
    + simpl map. rewrite Fr. exact Hdesc.
    + split; [|exact Hnames]. rewrite Hrev. simpl map. rewrite Fr.
      reflexivity.
Qed.

(** X26.  Revisions of one name registered in increasing order end up in
    the registry in the reverse order: strictly descending, highest
    first. *)
Theorem register_increasing_revisions name types :
  (forall t, In t types -> t_name t = name /\ valid_family (t_family t) = true)
  -> strictly_descending (rev (map t_revision types)) = true
  -> map t_revision (register types []) = rev (map t_revision types)
     /\ revisions_of name (register types []) = rev (map t_revision types)
     /\ strictly_descending (revisions_of name (register types [])) = true.
Proof.
  intros Htypes Hdesc.
  destruct (register_in_order name types []) as [Hrev Hnames].
  - exact Htypes.
  - intros t [].
  - simpl. rewrite app_nil_r. exact Hdesc.
  - simpl in Hrev. rewrite app_nil_r in Hrev.
    assert (Hall : revisions_of name (register types [])
                   = map t_revision (register types [])).
    { unfold revisions_of. f_equal.
      generalize (register types []) Hnames. intros l Hl.
      induction l as [|t rest IHl]; simpl; [reflexivity|].
      rewrite (Hl t (or_introl eq_refl)), STREQ_refl.
      rewrite IHl by (intros x Hx; apply Hl; right; exact Hx). reflexivity. }
    rewrite Hall, Hrev. auto.
Qed.

End RegisterInOrder.

Lemma register_increasing_revisions_witness :
  let types := [sample_type "hash:ip" 0 AF_INET; sample_type "hash:ip" 1 AF_INET6;
                sample_type "hash:ip" 4 AF_INET46] in
  strictly_descending (rev (map t_revision types)) = true
  /\ map t_revision (sample_registry types) = [4; 1; 0].
Proof.
  split; [reflexivity|].
  refine (proj1 (register_increasing_revisions sample_OPT_MAX sample_FLAG
                   sample_ADT_FLAGS sample_sizeof "hash:ip"
                   [sample_type "hash:ip" 0 AF_INET;
                    sample_type "hash:ip" 1 AF_INET6;
                    sample_type "hash:ip" 4 AF_INET46] _ eq_refl)).
  intros t [H|[H|[H|[]]]]; subst t; split; reflexivity.
Defined.

(** * Aliases in [adt_type_get] *)

(** C4 (code bug).  [adt_type_get] compares the type name the kernel
    reports with the canonical name of a descriptor and never with its
    aliases.  Once the set is not in the cache and the kernel has reported
    type name, family and revision: when no registered descriptor has the
    reported name as its canonical name, [adt_type_get] fails with the
    "Kernel-library incompatibility" error and marks nothing, also when a
    descriptor that is not marked as a mismatch carries the reported name
    as an alias, has a matching family and has the very revision reported;
    [ipset_type_check], run on the same reply, returns the first such
    descriptor. *)
Theorem adt_type_get_alias_not_matched ipset_cmd stack_family w setname
    typename family revision :
  d_setname (w_data w) = Some setname
  -> cache_lookup setname (w_setlist w) = None
  -> kernel_header_reports ipset_cmd typename family revision
  -> (forall t, In t (w_typelist w) -> t_name t <> typename)
  -> let r := adt_type_get ipset_cmd stack_family w in
     fst r = Err_kernel_library family revision
     /\ w_typelist (snd r) = w_typelist w
     /\ (forall pre t post,
            w_typelist w = pre ++ t :: post
            -> forallb (fun x => negb (check_candidate typename family
                                         revision x)) pre = true
            -> check_candidate typename family revision t = true
            -> named_candidate typename family revision t = true
               /\ t_kernel_check t <> IPSET_KERNEL_MISMATCH
               /\ fst (ipset_type_check (snd r)) = Type_found t).
Proof.
  intros Hset Hmiss Hkernel Hcanon r.
  assert (Hr : r = (Err_kernel_library family revision,
                    snd (send ipset_cmd IPSET_CMD_HEADER w))).
  { unfold r.
    rewrite (adt_type_get_on_miss ipset_cmd stack_family w setname typename
               family revision Hset Hmiss Hkernel).
    cbv zeta. rewrite adt_scan_none; [reflexivity|].
    intros t Hin. unfold adt_candidate.
    destruct (STREQ typename (t_name t)) eqn:E; streq.
    - exfalso. apply (Hcanon t Hin). congruence.
    - simpl. apply andb_false_r. }
  destruct (send_fields ipset_cmd IPSET_CMD_HEADER w)
    as (Stl & _ & _ & _ & Sdata).
  destruct (Hkernel (w_data w)) as (_ & Hname & Hfam & Hrev).
  rewrite Hr. cbn [fst snd].
  split; [reflexivity|]. split; [exact Stl|].
  intros pre t post Hl Hpre Ht.
  split; [|split].
  - unfold check_candidate in Ht. unfold named_candidate.
    apply andb_true_iff in Ht. destruct Ht as [_ Ht].
    rewrite Z.eqb_sym. exact Ht.
  - unfold check_candidate in Ht. apply andb_true_iff in Ht.
    destruct Ht as [Hk _]. apply negb_true_iff in Hk.
    apply kernel_check_eqb_neq in Hk. exact Hk.
  - unfold ipset_type_check. rewrite Sdata, Hname, Hrev, Hfam, Stl, Hl.
    rewrite (check_scan_first typename family revision pre t post Hpre Ht).
    reflexivity.
Qed.

Lemma adt_type_get_alias_not_matched_witness :
  let w := adt_session "s1" [hash_ip_inet] [] in
  let r := adt_type_get (kernel_header "iphash" AF_INET 0) AF_UNSPEC w in
  named_candidate "iphash" AF_INET 0 hash_ip_inet = true
  /\ t_kernel_check hash_ip_inet <> IPSET_KERNEL_MISMATCH
  /\ fst r = Err_kernel_library AF_INET 0
  /\ w_typelist (snd r) = [hash_ip_inet]
  /\ fst (ipset_type_check (snd r)) = Type_found hash_ip_inet.
Proof.
  assert (Hcanon : forall t, In t (w_typelist (adt_session "s1" [hash_ip_inet] []))
                             -> t_name t <> "iphash").
  { intros t [E|[]]. subst t. discriminate. }
  destruct (adt_type_get_alias_not_matched
              (kernel_header "iphash" AF_INET 0) AF_UNSPEC
              (adt_session "s1" [hash_ip_inet] []) "s1" "iphash" AF_INET 0
              eq_refl eq_refl (kernel_header_is_reported "iphash" AF_INET 0)
              Hcanon) as (Hfail & Hreg & Hcheck).
  destruct (Hcheck [] hash_ip_inet [] eq_refl eq_refl eq_refl)
    as (Hnamed & Hmark & Hfound).
  split; [exact Hnamed|]. split; [exact Hmark|]. split; [exact Hfail|].
  split; [exact Hreg | exact Hfound].
Defined.

(** * The revision range of a create *)

Lemma highest_revision_spec l m :
  highest_revision l = Some m
  -> In m l /\ forall t, In t l -> t_revision t <= t_revision m.
Proof.
  revert m. induction l as [|x rest IH]; intros m H; simpl in H;
    [discriminate|].
  destruct (highest_revision rest) as [m'|] eqn:E.
  - destruct (IH m' eq_refl) as [Hin Hall].
    destruct (Z.ltb_spec (t_revision m') (t_revision x)) as [Hlt|Hge];
      inversion H; subst m; (split; [simpl; auto|]);
      intros t [Ht|Ht]; try (subst t; lia); specialize (Hall t Ht); lia.
  - inversion H. subst m. split; [left; reflexivity|].
    intros t [Ht|Ht]; [subst t; lia|].
    destruct rest as [|y rest']; [destruct Ht|]. simpl in E.
    destruct (highest_revision rest') as [m''|];
      [destruct (t_revision m'' <? t_revision y)|]; discriminate.
Qed.

Lemma lowest_revision_spec l m :
  lowest_revision l = Some m
  -> In m l /\ forall t, In t l -> t_revision m <= t_revision t.
Proof.
  revert m. induction l as [|x rest IH]; intros m H; simpl in H;
    [discriminate|].
  destruct (lowest_revision rest) as [m'|] eqn:E.
  - destruct (IH m' eq_refl) as [Hin Hall].
    destruct (Z.ltb_spec (t_revision x) (t_revision m')) as [Hlt|Hge];
      inversion H; subst m; (split; [simpl; auto|]);
      intros t [Ht|Ht]; try (subst t; lia); specialize (Hall t Ht); lia.
  - inversion H. subst m. split; [left; reflexivity|].
    intros t [Ht|Ht]; [subst t; lia|].
    destruct rest as [|y rest']; [destruct Ht|]. simpl in E.
    destruct (lowest_revision rest') as [m''|];
      [destruct (t_revision y <? t_revision m'')|]; discriminate.
Qed.

(** The scan on candidates that come in strictly descending revision
    order: every candidate other than the match comes after it with a
    lower revision, and the later candidates of its family are the ones
    [tmin] is taken from, in descending order. *)
Lemma create_scan_descending_split typename family l i best tmin tmax :
  create_scan typename family l 0 None 0 0 = (Some (i, best), tmin, tmax)
  -> strictly_descending (candidate_revisions typename family l) = true
  -> exists pre post,
       l = pre ++ best :: post /\ length pre = i
       /\ tmax = t_revision best
       /\ tmin = last (same_family_revisions typename family best post) 0
       /\ strictly_descending
            (same_family_revisions typename family best post) = true
       /\ (forall c, In c l -> create_candidate typename family c = true
                     -> c = best
                        \/ (In c post /\ t_revision c < t_revision best)).
Proof.
  intros Hscan Hdesc.
  destruct (create_scan_result typename family l i best tmin tmax Hscan)
    as (pre & post & Hl & Hlen & Hpre & Hbest & Hmax & Hmin).
  exists pre, post. subst l. unfold candidate_revisions in Hdesc.
  rewrite filter_app, (filter_none _ pre Hpre) in Hdesc. simpl in Hdesc.
  rewrite Hbest in Hdesc. simpl in Hdesc.
  apply strictly_descending_cons in Hdesc. destruct Hdesc as [Hall Hpost].
  repeat split; try assumption.
  - unfold same_family_revisions.
    apply (strictly_descending_filter_both
             (create_candidate typename family)
             (fun t => t_family t =? t_family best) post Hpost).
  - intros c Hc Hcand. apply in_app_or in Hc.
    destruct Hc as [Hc|[Hc|Hc]].
    + rewrite forallb_forall in Hpre. specialize (Hpre c Hc).
      rewrite Hcand in Hpre. discriminate.
    + left. symmetry. exact Hc.
    + right. split; [exact Hc|]. apply Hall. apply in_map.
      apply filter_In. auto.
Qed.

(** On candidates in strictly descending revision order, of which at least
    two have the family of the one of the highest revision, the scan of
    [create_type_get] ends with that one as its match and with the lowest
    revision of that family as [tmin]. *)
Lemma create_scan_highest_lowest typename family l best low :
  strictly_descending (candidate_revisions typename family l) = true
  -> spec_bestMatch typename family l = Some best
  -> lowest_family_revision typename family l = Some low
  -> low < t_revision best
  -> exists pre post,
       l = pre ++ best :: post
       /\ create_scan typename family l 0 None 0 0
          = (Some (length pre, best), low, t_revision best).
Proof.
  intros Hdesc Hbest Hlow Hlt.
  unfold lowest_family_revision in Hlow. rewrite Hbest in Hlow.
  destruct (lowest_revision
              (filter (fun t => t_family t =? t_family best)
                 (create_candidates typename family l))) as [c|] eqn:Ec;
    [|discriminate].
  simpl in Hlow. injection Hlow as Hlow.
  apply lowest_revision_spec in Ec. destruct Ec as [Hc Hcmin].
  apply filter_In in Hc. destruct Hc as [Hc Hcfam].
  apply Z.eqb_eq in Hcfam.
  unfold create_candidates in Hc. apply filter_In in Hc.
  destruct Hc as [Hcin Hccand].
  unfold spec_bestMatch in Hbest. apply highest_revision_spec in Hbest.
  destruct Hbest as [Hb Hbmax].
  unfold create_candidates in Hb. apply filter_In in Hb.
  destruct Hb as [Hbin Hbcand].
  destruct (create_scan_finds typename family l 0%nat 0 0)
    as (i & sb & tmin & tmax & Hscan).
  { exists best. split; assumption. }
  destruct (create_scan_descending_split typename family l i sb tmin tmax
              Hscan Hdesc)
    as (pre & post & Hl & Hlen & Hmax & Hmin & Hsfdesc & Hplace).
  assert (Hsbcand : In sb (create_candidates typename family l)).
  { destruct (create_scan_result typename family l i sb tmin tmax Hscan)
      as (pre' & post' & Hl' & _ & _ & Hsb & _).
    apply filter_In. split; [|exact Hsb].
    rewrite Hl'. apply in_or_app. right. left. reflexivity. }
  assert (Esb : sb = best).
  { destruct (Hplace best Hbin Hbcand) as [E|[_ Hlower]];
      [symmetry; exact E|].
    specialize (Hbmax sb Hsbcand). lia. }
  subst sb.
  assert (Hcpost : In (t_revision c)
                     (same_family_revisions typename family best post)).
  { destruct (Hplace c Hcin Hccand) as [E|[Hcp _]]; [subst c; lia|].
    unfold same_family_revisions. apply in_map. apply filter_In.
    split; [exact Hcp|]. rewrite Hccand, Hcfam, Z.eqb_refl. reflexivity. }
  assert (Etmin : tmin = low).
  { pose proof (strictly_descending_last _ 0 _ Hsfdesc Hcpost) as Hle.
    assert (Hlast : In tmin (same_family_revisions typename family best post)).
    { rewrite Hmin. apply last_In. intros E. rewrite E in Hcpost.
      destruct Hcpost. }
    unfold same_family_revisions in Hlast. apply in_map_iff in Hlast.
    destruct Hlast as [c0 [Hrev0 Hc0]]. apply filter_In in Hc0.
    destruct Hc0 as [Hc0post Hc0test]. apply andb_true_iff in Hc0test.
    destruct Hc0test as [Hc0cand Hc0fam].
    assert (Hge : t_revision c <= t_revision c0).
    { apply Hcmin. apply filter_In. split; [|exact Hc0fam].
      apply filter_In. split; [|exact Hc0cand].
      rewrite Hl. apply in_or_app. right. right. exact Hc0post. }
    rewrite <- Hmin in Hle. lia. }
  exists pre, post. split; [exact Hl|].
  rewrite Hscan, Hlen, Etmin, Hmax. reflexivity.
Qed.

(** C1, as stated, fails: with revisions 3, 5 and 7 of a type registered
    for IPv4, in that order, the match of the highest revision is
    revision 7 and the second-highest revision of its family is 5; against
    a kernel that supports revision 4 only, [max 5 4 <= min 7 4] does not
    hold, and [create_type_get] succeeds. *)
Lemma create_type_get_below_second_highest :
  let w := create_session "hash:ip" AF_INET three_revisions in
  let r := create_type_get (kernel_range 4 4) w in
  map t_revision three_revisions = [7; 5; 3]
  /\ option_map t_revision (spec_bestMatch "hash:ip" AF_INET three_revisions)
     = Some 7
  /\ spec_minRevision "hash:ip" AF_INET three_revisions = Some 5
  /\ ~ (Z.max 5 4 <= Z.min 7 4)
  /\ is_found (fst r) = true.
Proof.
  cbv zeta. split; [reflexivity|]. split; [reflexivity|].
  split; [reflexivity|]. split; [|reflexivity].
  intros H. vm_compute in H. apply H. reflexivity.
Qed.

(** One revision only: [tmin] is left at 0, and revision 5 alone is
    accepted against a kernel that supports revisions 1 to 2. *)
Lemma create_type_get_one_revision_low_kernel :
  let w := create_session "hash:ip" AF_INET
             (sample_registry [sample_type "hash:ip" 5 AF_INET]) in
  is_found (fst (create_type_get (kernel_range 1 2) w)) = true.
Proof. reflexivity. Qed.

(** C1 (amended).  With revisions 3 and 5 of a type registered for IPv4,
    [create_type_get] against a kernel that supports revisions 6 to 8 fails
    with the "upgrade your ipset library" error, against one that supports
    1 to 2 with the "upgrade your kernel" error, and against one that
    supports 4 to 6 it succeeds and marks revision 5 [IPSET_KERNEL_OK].
    In general, on a registry whose candidates for the type name and the
    family come in strictly descending revision order: when the candidate
    of the highest revision, [best], is not marked [IPSET_KERNEL_OK] yet,
    at least one more candidate has its family, and the kernel reports
    [kmin] and [kmax], the call succeeds if and only if
    [max low kmin <= min (revision of best) kmax], where [low] is the
    lowest revision among the candidates that have the family of [best];
    on success [best] is returned and marked [IPSET_KERNEL_OK], nothing
    else in the registry changes, and on failure the registry is left as
    it is. *)
Theorem create_type_get_revision_overlap :
  (forall IPSET_OPT_MAX IPSET_FLAG IPSET_ADT_FLAGS ipset_data_sizeof name,
      let typelist :=
        register_all IPSET_OPT_MAX IPSET_FLAG IPSET_ADT_FLAGS ipset_data_sizeof
          [sample_type name 3 AF_INET; sample_type name 5 AF_INET] [] in
      let w := create_session name AF_INET typelist in
      let ok := create_type_get (kernel_range 4 6) w in
      map t_revision typelist = [5; 3]
      /\ fst (create_type_get (kernel_range 6 8) w)
         = Err_upgrade_library AF_INET 6 5
      /\ fst (create_type_get (kernel_range 1 2) w)
         = Err_upgrade_kernel AF_INET 2 3
      /\ is_found (fst ok) = true
      /\ map t_revision (w_typelist (snd ok)) = [5; 3]
      /\ map t_kernel_check (w_typelist (snd ok))
         = [IPSET_KERNEL_OK; IPSET_KERNEL_CHECK_NEEDED])
  /\ (forall ipset_cmd w typename best low kmin kmax,
         d_typename (w_data w) = Some typename
         -> strictly_descending
              (candidate_revisions typename (d_family (w_data w))
                 (w_typelist w)) = true
         -> spec_bestMatch typename (d_family (w_data w)) (w_typelist w)
            = Some best
         -> lowest_family_revision typename (d_family (w_data w))
              (w_typelist w) = Some low
         -> low < t_revision best
         -> t_kernel_check best <> IPSET_KERNEL_OK
         -> kernel_reports ipset_cmd (Some kmin) kmax
         -> let r := create_type_get ipset_cmd w in
            (is_found (fst r) = true
             <-> Z.max low kmin <= Z.min (t_revision best) kmax)
            /\ (is_found (fst r) = true
                -> fst r = Type_found (set_kernel_check best IPSET_KERNEL_OK)
                   /\ exists pre post,
                        w_typelist w = pre ++ best :: post
                        /\ w_typelist (snd r)
                           = pre ++ set_kernel_check best IPSET_KERNEL_OK
                                 :: post)
            /\ (is_found (fst r) = false
                -> w_typelist (snd r) = w_typelist w)).
Proof.
  split.
  - intros OM FL ADT SZ name. cbv zeta.
    rewrite register_3_then_5 by auto.
    unfold create_type_get, create_session. simpl.
    unfold ipset_match_typename. simpl. rewrite !STREQ_refl. simpl.
    repeat split.
  - intros ipset_cmd w typename best low kmin kmax
      Hname Hdesc Hbest Hlow Hlt Hcheck Hkernel r.
    destruct (create_scan_highest_lowest typename (d_family (w_data w))
                (w_typelist w) best low Hdesc Hbest Hlow Hlt)
      as (pre & post & Hl & Hscan).
    destruct (create_type_get_checked ipset_cmd w typename (length pre) best
                low (t_revision best) (Some kmin) kmax Hname Hscan Hcheck
                Hkernel) as (Hfst & Htl & _).
    fold r in Hfst, Htl. rewrite Hfst, Htl, MAX_max, MIN_min.
    destruct (Z.gtb_spec (Z.max low kmin) (Z.min (t_revision best) kmax))
      as [Hgt|Hle].
    + destruct (kmin >? t_revision best); simpl;
        (split; [split; [discriminate | lia]|]);
        (split; [discriminate | reflexivity]).
    + simpl. split; [split; [intros _; exact Hle | reflexivity]|].
      split; [|discriminate].
      intros _. split; [reflexivity|]. exists pre, post.
      split; [exact Hl|]. rewrite Hl. apply type_set_at_split.
Qed.

Lemma create_type_get_revision_overlap_witness :
  let w := create_session "hash:ip" AF_INET three_revisions in
  strictly_descending (candidate_revisions "hash:ip" AF_INET three_revisions)
  = true
  /\ option_map t_revision (spec_bestMatch "hash:ip" AF_INET three_revisions)
     = Some 7
  /\ lowest_family_revision "hash:ip" AF_INET three_revisions = Some 3
  /\ kernel_reports (kernel_range 4 4) (Some 4) 4
  /\ (is_found (fst (create_type_get (kernel_range 4 4) w)) = true
      <-> Z.max 3 4 <= Z.min 7 4).
Proof.
  split; [reflexivity|]. split; [reflexivity|]. split; [reflexivity|].
  split; [apply kernel_range_reports|].
  refine (proj1 (proj2 create_type_get_revision_overlap (kernel_range 4 4)
                   (create_session "hash:ip" AF_INET three_revisions)
                   "hash:ip" (sample_type "hash:ip" 7 AF_INET) 3 4 4
                   eq_refl eq_refl eq_refl eq_refl _ _
                   (kernel_range_reports 4 4))).
  - reflexivity.
  - simpl. discriminate.
Defined.
